(** * VVector.h: the resizable array [Vector<T>] over raw storage

    A shallow embedding of [src/VVector.h].  The container keeps a pointer
    [vector_] to a block obtained from [std::allocator<T>], a count [size_]
    of live elements and the block's [capacity_].  The embedding keeps the
    split the source lives by: a block is a row of slots that are either raw
    memory or hold a live object, and only construction and destruction
    cross that line.  Exceptions are a second outcome of every computation;
    which allocation or construction throws is decided by an oracle, the way
    a test instruments an element type to throw on its K-th construction. *)

From stdpp Require Import base numbers option list.

Set Default Proof Using "Type*".

(** ** Element types

    What the container needs of [T]: the value [T()] gives; the value
    default-initialisation leaves in storage that held the bits [g] (the
    default constructor of a class type decides it, while for a scalar no
    initialisation is performed and the object is whatever the storage
    held); and the state a move constructor leaves its source in. *)
Class Element (T : Type) := {
  value_init : T;
  default_init : Z → T;
  moved_from : T → T;
}.

Inductive ctor_kind := CopyCtor | MoveCtor | DefaultCtor.

Global Instance ctor_kind_eq_dec : EqDecision ctor_kind.
Proof. solve_decision. Defined.

Inductive exn := bad_alloc | ctor_failure | out_of_range.

(** The environment's choices: whether the [n]-th call of
    [allocator_.allocate] throws, whether the [n]-th constructor call
    throws (calls are numbered from 0 over the whole run), and what
    [allocate(0)] gives, which the standard leaves unspecified: a null
    pointer, or a block of no slots as with [::operator new(0)] (libstdc++
    and libc++).  It also decides what is found where the program never
    put a value: whether a pointer that was not initialised tests as null,
    and the bits in the storage the [n]-th constructor call is given. *)
Record Oracle := {
  alloc_throws : nat → bool;
  ctor_throws : ctor_kind → nat → bool;
  zero_is_null : bool;
  unset_is_null : bool;
  storage_bits : nat → Z;
}.

(** ** Pointers and storage *)

(** A [T*]: null, indeterminate (an uninitialised member or local), or the
    address of slot [off] of block [b]. *)
Inductive ptr := Null | Wild | Ptr (b off : nat).

Global Instance ptr_eq_dec : EqDecision ptr.
Proof. solve_decision. Defined.

Inductive Slot (T : Type) := Raw | Live (x : T).
Arguments Raw {T}.
Arguments Live {T} x.

(** Steps the language gives no meaning to.  The step is recorded, and the
    model follows the continuation in which it had no effect on memory;
    the record says where a run left what the language defines. *)
Inductive Fault :=
  | DestroyRaw (p : ptr)      (* destructor run where no object lives *)
  | BadConstruct (p : ptr)    (* construction outside raw storage *)
  | BadRead (p : ptr)         (* read where no object lives *)
  | BadFree (p : ptr)         (* deallocate of something allocate did not give *)
  | BadRange (first last : ptr)
  | BadTest.                  (* branch on an indeterminate pointer *)

Record Vector := {
  vector_ : ptr;
  size_ : nat;
  capacity_ : nat;
}.

(** Locals of a method body that a [catch] block reads after the [try]
    block assigned them. *)
Record Frame := {
  new_vector_end : ptr;
  local_i : nat;
}.

(** [std::size_t] is 64 bits wide; [std::allocator<T>::allocate] refuses
    more than [max_size()] elements, which is [PTRDIFF_MAX / sizeof(T)], at
    most the bound below. *)
Definition size_t_mod : N := 2 ^ 64.
Definition max_size : N := 2 ^ 63 - 1.

Definition fits (n : nat) : bool := (N.of_nat n <=? max_size)%N.

(** [a * b], [a + b] and [a - b] in [std::size_t]. *)
Definition size_mul (a b : nat) : nat :=
  N.to_nat ((N.of_nat a * N.of_nat b) mod size_t_mod)%N.
Definition size_add (a b : nat) : nat :=
  N.to_nat ((N.of_nat a + N.of_nat b) mod size_t_mod)%N.
Definition size_sub (a b : nat) : nat :=
  N.to_nat ((N.of_nat a + size_t_mod - N.of_nat b mod size_t_mod) mod size_t_mod)%N.

Definition ptr_add (p : ptr) (n : nat) : ptr :=
  match p with
  | Ptr b i => Ptr b (i + n)
  | Null => if n is 0 then Null else Wild
  | Wild => Wild
  end.

(** Length of the range [[first, last)], when the two pointers bound one. *)
Definition range_len (first last : ptr) : option nat :=
  match first, last with
  | Ptr b i, Ptr b' j => if bool_decide (b = b' ∧ i ≤ j) then Some (j - i) else None
  | Null, Null => Some 0
  | _, _ => None
  end.

(** [p - n], for the iterators that step backwards. *)
Definition ptr_sub (p : ptr) (n : nat) : ptr :=
  match p with
  | Ptr b i => if bool_decide (n ≤ i) then Ptr b (i - n) else Wild
  | Null => if n is 0 then Null else Wild
  | Wild => Wild
  end.

(** What a parameter of type [const T&] or [T&&] is bound to: an object of
    the caller's that lies in no block of the heap (a local, a temporary),
    kept here by its value, or the object stored in a slot, which may be an
    element of the very container the call is made on. *)
Inductive Reference (T : Type) := Object (x : T) | Stored (p : ptr).
Arguments Object {T} x.
Arguments Stored {T} p.

(** [std::reverse_iterator<T*>] keeps the iterator it was made from; it
    refers to the slot before that one, and stepping it forward steps the
    kept iterator back. *)
Record ReverseIterator := { base : ptr }.

Section Model.
Context {T : Type} `{!Element T}.

(** The heap: entry [b] is [None] once block [b] has been deallocated.
    [n_alloc] and [n_ctor] count the calls made so far (they index the
    oracle), [n_dtor] the destructor calls on live objects. *)
Record World := {
  heap : list (option (list (Slot T)));
  n_alloc : nat;
  n_ctor : nat;
  n_dtor : nat;
  faults : list Fault;
}.

Record State := {
  this : Vector;
  frame : Frame;
  mem : World;
}.

Definition set_heap (h : list (option (list (Slot T)))) (w : World) : World :=
  {| heap := h; n_alloc := n_alloc w; n_ctor := n_ctor w; n_dtor := n_dtor w;
     faults := faults w |}.
Definition bump_alloc (w : World) : World :=
  {| heap := heap w; n_alloc := S (n_alloc w); n_ctor := n_ctor w;
     n_dtor := n_dtor w; faults := faults w |}.
Definition bump_ctor (w : World) : World :=
  {| heap := heap w; n_alloc := n_alloc w; n_ctor := S (n_ctor w);
     n_dtor := n_dtor w; faults := faults w |}.
Definition bump_dtor (w : World) : World :=
  {| heap := heap w; n_alloc := n_alloc w; n_ctor := n_ctor w;
     n_dtor := S (n_dtor w); faults := faults w |}.
Definition add_fault (f : Fault) (w : World) : World :=
  {| heap := heap w; n_alloc := n_alloc w; n_ctor := n_ctor w;
     n_dtor := n_dtor w; faults := faults w ++ [f] |}.

Definition set_this (v : Vector) (s : State) : State :=
  {| this := v; frame := frame s; mem := mem s |}.
Definition set_frame (f : Frame) (s : State) : State :=
  {| this := this s; frame := f; mem := mem s |}.
Definition set_mem (w : World) (s : State) : State :=
  {| this := this s; frame := frame s; mem := w |}.

Definition block_at (w : World) (b : nat) : option (list (Slot T)) :=
  mjoin (heap w !! b).

Definition slot_at (w : World) (p : ptr) : option (Slot T) :=
  match p with
  | Ptr b i => blk ← block_at w b; blk !! i
  | _ => None
  end.

Definition set_block (b : nat) (blk : list (Slot T)) (w : World) : World :=
  set_heap (<[b := Some blk]> (heap w)) w.

Definition store (p : ptr) (x : Slot T) (w : World) : World :=
  match p with
  | Ptr b i =>
      match block_at w b with
      | Some blk => set_block b (<[i := x]> blk) w
      | None => w
      end
  | _ => w
  end.

(** ** Computations: a state and exception monad *)

Inductive Res (A : Type) :=
  | Ok (a : A) (s : State)
  | Throw (e : exn) (s : State).
Arguments Ok {A} a s.
Arguments Throw {A} e s.

Definition M (A : Type) : Type := State → Res A.

Global Instance M_ret : MRet M := λ A a s, Ok a s.
Global Instance M_bind : MBind M := λ A B k m s,
  match m s with
  | Ok a s' => k a s'
  | Throw e s' => Throw e s'
  end.

Definition gets {A} (f : State → A) : M A := λ s, Ok (f s) s.
Definition modify (f : State → State) : M unit := λ s, Ok tt (f s).
Definition throw {A} (e : exn) : M A := λ s, Throw e s.

(** [try { body } catch (...) { handler; throw; }] *)
Definition try_catch {A} (body : M A) (handler : M unit) : M A := λ s,
  match body s with
  | Ok a s' => Ok a s'
  | Throw e s' =>
      match handler s' with
      | Ok _ s'' => Throw e s''
      | Throw e' s'' => Throw e' s''
      end
  end.

Definition final {A} (r : Res A) : State :=
  match r with Ok _ s => s | Throw _ s => s end.

Definition fault (f : Fault) : M unit :=
  modify (λ s, set_mem (add_fault f (mem s)) s).

(** A call gets its own locals and drops them when it returns or unwinds. *)
Definition call {A} (m : M A) : M A := λ s,
  match m (set_frame {| new_vector_end := Wild; local_i := 0 |} s) with
  | Ok a s' => Ok a (set_frame (frame s) s')
  | Throw e s' => Throw e (set_frame (frame s) s')
  end.

(** Run [m] with [this] bound to the object [v]; hand back the object as
    [m] leaves it. *)
Definition on_object {A} (v : Vector) (m : M A) : M (A * Vector) := λ s,
  match m (set_this v s) with
  | Ok a s' => Ok (a, this s') (set_this (this s) s')
  | Throw e s' => Throw e (set_this (this s) s')
  end.

Definition get_vector_ : M ptr := gets (λ s, vector_ (this s)).
Definition get_size_ : M nat := gets (λ s, size_ (this s)).
Definition get_capacity_ : M nat := gets (λ s, capacity_ (this s)).
Definition set_vector_ (p : ptr) : M unit :=
  modify (λ s, set_this {| vector_ := p; size_ := size_ (this s);
                           capacity_ := capacity_ (this s) |} s).
Definition set_size_ (n : nat) : M unit :=
  modify (λ s, set_this {| vector_ := vector_ (this s); size_ := n;
                           capacity_ := capacity_ (this s) |} s).
Definition set_capacity_ (n : nat) : M unit :=
  modify (λ s, set_this {| vector_ := vector_ (this s); size_ := size_ (this s);
                           capacity_ := n |} s).

Definition get_new_vector_end : M ptr := gets (λ s, new_vector_end (frame s)).
Definition set_new_vector_end (p : ptr) : M unit :=
  modify (λ s, set_frame {| new_vector_end := p; local_i := local_i (frame s) |} s).
Definition get_i : M nat := gets (λ s, local_i (frame s)).
Definition set_i (n : nat) : M unit :=
  modify (λ s, set_frame {| new_vector_end := new_vector_end (frame s);
                            local_i := n |} s).

(** ** The allocator and the lifetime primitives *)

Variable O : Oracle.

(** [allocator_.allocate(n)]: a fresh block of [n] raw slots, unless the
    request is refused; for [n = 0] the oracle says whether there is a
    block at all. *)
Definition allocate (n : nat) : M ptr := λ s,
  let w := mem s in
  if negb (fits n) || alloc_throws O (n_alloc w)
  then Throw bad_alloc (set_mem (bump_alloc w) s)
  else if bool_decide (n = 0) && zero_is_null O
  then Ok Null (set_mem (bump_alloc w) s)
  else Ok (Ptr (length (heap w)) 0)
          (set_mem (set_heap (heap w ++ [Some (replicate n Raw)]) (bump_alloc w)) s).

(** [allocator_.deallocate(p, n)]; on a null pointer [::operator delete]
    does nothing. *)
Definition deallocate (p : ptr) (n : nat) : M unit := λ s,
  let w := mem s in
  match p with
  | Null => Ok tt s
  | Ptr b 0 =>
      match block_at w b with
      | Some blk =>
          if bool_decide (length blk = n)
          then Ok tt (set_mem (set_heap (<[b := None]> (heap w)) w) s)
          else fault (BadFree p) s
      | None => fault (BadFree p) s
      end
  | _ => fault (BadFree p) s
  end.

(** [::new (p) T(x)] through a constructor of kind [k]. *)
Definition construct_at (p : ptr) (k : ctor_kind) (x : T) : M unit := λ s,
  let w := mem s in
  if ctor_throws O k (n_ctor w) then Throw ctor_failure (set_mem (bump_ctor w) s)
  else match slot_at w p with
       | Some Raw => Ok tt (set_mem (store p (Live x) (bump_ctor w)) s)
       | _ => Ok tt (set_mem (add_fault (BadConstruct p) (bump_ctor w)) s)
       end.

(** Copy-construct at [dst] from the object at [src]. *)
Definition copy_construct (dst src : ptr) : M unit :=
  sl ← gets (λ s, slot_at (mem s) src);
  match sl with
  | Some (Live x) => construct_at dst CopyCtor x
  | _ => fault (BadRead src)
  end.

(** Move-construct at [dst] from the object at [src]. *)
Definition move_construct (dst src : ptr) : M unit :=
  sl ← gets (λ s, slot_at (mem s) src);
  match sl with
  | Some (Live x) =>
      construct_at dst MoveCtor x;;
      modify (λ s, set_mem (store src (Live (moved_from x)) (mem s)) s)
  | _ => fault (BadRead src)
  end.

(** [::new (dst) T(value)] for [k = CopyCtor] and
    [::new (dst) T(std::move(value))] for [k = MoveCtor], with [value] a
    reference: an object stored in a slot is read there at this moment,
    and a move leaves it moved-from. *)
Definition construct_from (dst : ptr) (k : ctor_kind) (value : Reference T) : M unit :=
  match value with
  | Object x => construct_at dst k x
  | Stored src =>
      match k with
      | MoveCtor => move_construct dst src
      | _ => copy_construct dst src
      end
  end.

(** [std::destroy_at(p)] *)
Definition destroy_at (p : ptr) : M unit := λ s,
  let w := mem s in
  match slot_at w p with
  | Some (Live _) => Ok tt (set_mem (store p Raw (bump_dtor w)) s)
  | _ => fault (DestroyRaw p) s
  end.

Fixpoint destroy_n (p : ptr) (n : nat) : M unit :=
  match n with
  | 0 => mret tt
  | S n' => destroy_at p;; destroy_n (ptr_add p 1) n'
  end.

(** [std::destroy(first, last)] *)
Definition destroy (first last : ptr) : M unit :=
  match range_len first last with
  | Some n => destroy_n first n
  | None => fault (BadRange first last)
  end.

(** The [std::uninitialized_*] algorithms construct [n] objects one after
    the other from [cur] on; when a construction throws they destroy the
    objects they built, [[first, cur)], and let the exception go on. *)
Fixpoint construct_n (ctor : ptr → M unit) (first cur : ptr) (n : nat) : M unit :=
  match n with
  | 0 => mret tt
  | S n' =>
      try_catch (ctor cur) (destroy first cur);;
      construct_n ctor first (ptr_add cur 1) n'
  end.

Definition uninitialized_fill (first last : ptr) (value : Reference T) : M unit :=
  match range_len first last with
  | Some n => construct_n (λ p, construct_from p CopyCtor value) first first n
  | None => fault (BadRange first last)
  end.

Definition uninitialized_value_construct_n (first : ptr) (n : nat) : M unit :=
  construct_n (λ p, construct_at p DefaultCtor value_init) first first n.

(** Default-initialisation at [p]: the object is what [T] makes of the
    bits the storage held. *)
Definition default_construct_at (p : ptr) : M unit :=
  g ← gets (λ s, storage_bits O (n_ctor (mem s)));
  construct_at p DefaultCtor (default_init g).

Definition uninitialized_default_construct_n (first : ptr) (n : nat) : M unit :=
  construct_n default_construct_at first first n.

Fixpoint move_n (src d_first cur : ptr) (n : nat) : M ptr :=
  match n with
  | 0 => mret cur
  | S n' =>
      try_catch (move_construct cur src) (destroy d_first cur);;
      move_n (ptr_add src 1) d_first (ptr_add cur 1) n'
  end.

(** [std::uninitialized_move(first, last, d_first)]; returns the end of the
    destination range. *)
Definition uninitialized_move (first last d_first : ptr) : M ptr :=
  match range_len first last with
  | Some n => move_n first d_first d_first n
  | None => fault (BadRange first last);; mret d_first
  end.

(** [if (p)]; the test of a pointer that holds no value can go either
    way. *)
Definition truthy (p : ptr) : M bool :=
  match p with
  | Null => mret false
  | Ptr _ _ => mret true
  | Wild => fault BadTest;; mret (negb (unset_is_null O))
  end.

(** A counted loop: [n] rounds of [body]. *)
Fixpoint repeat_n (n : nat) (body : M unit) : M unit :=
  match n with
  | 0 => mret tt
  | S n' => body;; repeat_n n' body
  end.

(** ** The private members *)

Definition AllocateMemory (capacity : nat) : M unit :=
  p ← allocate capacity; set_vector_ p.

Definition DeallocateMemory : M unit :=
  v ← get_vector_;
  c ← truthy v;
  if c : bool then
    cap ← get_capacity_;
    deallocate v cap;;
    set_vector_ Null
  else mret tt.

Definition DestroyElements (size : nat) : M unit :=
  v ← get_vector_; destroy v (ptr_add v size).

Definition Reallocate (new_capacity : nat) : M unit :=
  new_vector ← allocate new_capacity;
  try_catch
    (v ← get_vector_; sz ← get_size_;
     uninitialized_move v (ptr_add v sz) new_vector;; mret tt)
    (sz ← get_size_;
     destroy new_vector (ptr_add new_vector sz);;
     deallocate new_vector new_capacity);;
  sz ← get_size_;
  DestroyElements sz;;
  DeallocateMemory;;
  set_vector_ new_vector;;
  set_capacity_ new_capacity.

(** ** Construction and destruction

    A constructor runs on an object whose members hold nothing yet. *)
Definition new_object : M unit :=
  modify (set_this {| vector_ := Wild; size_ := 0; capacity_ := 0 |}).

(** [Vector()] *)
Definition Vector_default : M unit :=
  new_object;; set_vector_ Null;; set_size_ 0;; set_capacity_ 0.

(** [~Vector()] *)
Definition Vector_destroy : M unit :=
  sz ← get_size_; DestroyElements sz;; DeallocateMemory.

(** [explicit Vector(std::size_t capacity)] *)
Definition Vector_sized (capacity : nat) : M unit :=
  new_object;; set_size_ capacity;; set_capacity_ capacity;;
  sz ← get_size_;
  if bool_decide (0 < sz) then
    try_catch
      (cap ← get_capacity_; AllocateMemory cap;;
       v ← get_vector_; cap ← get_capacity_;
       uninitialized_default_construct_n v cap)
      DeallocateMemory
  else set_vector_ Null.

(** [Vector(std::size_t size, const T& value)].  The loop
    [for (; i < size_; i++)] leaves [size_] alone, so it makes
    [size_ - i] rounds.  The container is being built, so that [value] is
    no element of it and no step of the constructor changes it: it is kept
    by its value. *)
Definition Vector_fill (size : nat) (value : T) : M unit := call (
  new_object;; set_size_ size;; set_capacity_ size;;
  set_i 0;;
  try_catch
    (AllocateMemory size;;
     sz ← get_size_; i ← get_i;
     repeat_n (sz - i)
       (v ← get_vector_; i ← get_i;
        construct_at (ptr_add v i) CopyCtor value;;
        set_i (size_add i 1)))
    (v ← get_vector_; i ← get_i;
     destroy v (ptr_add v i);;
     DeallocateMemory)).

(** [Vector(Iterator first, Iterator last)]; [src] is the sequence the two
    iterators bound, so that [std::distance(first, last)] is its length and
    [first[i]] its [i]-th element. *)
Definition Vector_range (src : list T) : M unit := call (
  new_object;; set_size_ (length src);;
  sz ← get_size_; set_capacity_ sz;;
  set_i 0;;
  try_catch
    (sz ← get_size_; AllocateMemory sz;;
     sz ← get_size_; i ← get_i;
     repeat_n (sz - i)
       (v ← get_vector_; i ← get_i;
        match src !! i with
        | Some x => construct_at (ptr_add v i) CopyCtor x
        | None => fault (BadRead Wild)
        end;;
        set_i (size_add i 1)))
    (v ← get_vector_; i ← get_i;
     destroy v (ptr_add v i);;
     DeallocateMemory)).

(** [Vector(std::initializer_list<ValueType> list)] *)
Definition Vector_list (list : list T) : M unit := Vector_range list.

(** One round of the copy constructor's loop:
    [new (vector_ + size_) T(other.vector_[size_]); ++size_]. *)
Definition copy_round (other : Vector) : M unit :=
  v ← get_vector_; sz ← get_size_;
  copy_construct (ptr_add v sz) (ptr_add (vector_ other) sz);;
  sz ← get_size_; set_size_ (size_add sz 1).

(** [Vector(const Vector& other)].  The loop counts in [size_] itself and
    makes [other.size_ - size_] rounds. *)
Definition Vector_copy (other : Vector) : M unit :=
  new_object;; set_size_ 0;; set_capacity_ 0;;
  try_catch
    (AllocateMemory (capacity_ other);;
     sz ← get_size_;
     repeat_n (size_ other - sz) (copy_round other))
    (v ← get_vector_; sz ← get_size_;
     destroy v (ptr_add v sz);;
     deallocate v (capacity_ other);;
     set_size_ 0);;
  set_size_ (size_ other);;
  set_capacity_ (capacity_ other).

Definition moved_out : Vector := {| vector_ := Null; size_ := 0; capacity_ := 0 |}.

(** [Vector(Vector&& other) noexcept]; gives back [other] as it is left. *)
Definition Vector_move (other : Vector) : M Vector :=
  new_object;;
  set_vector_ (vector_ other);; set_size_ (size_ other);;
  set_capacity_ (capacity_ other);;
  mret moved_out.

(** ** Queries and element access *)

Definition Size : M nat := get_size_.
Definition Capacity : M nat := get_capacity_.
Definition Empty : M bool := sz ← get_size_; mret (bool_decide (sz = 0)).

(** [operator[]]: the reference is the address of the slot. *)
Definition index (i : nat) : M ptr :=
  v ← get_vector_; mret (ptr_add v i).

Definition At (i : nat) : M ptr :=
  sz ← get_size_;
  if bool_decide (sz ≤ i) then throw out_of_range
  else v ← get_vector_; mret (ptr_add v i).

Definition Data : M ptr :=
  cap ← get_capacity_;
  if bool_decide (cap = 0) then mret Null else get_vector_.

(** What a reference refers to. *)
Definition deref (s : State) (p : ptr) : option T :=
  match slot_at (mem s) p with
  | Some (Live x) => Some x
  | _ => None
  end.

(** [Swap(Vector& other)]; gives back [other] as it is left. *)
Definition Swap (other : Vector) : M Vector :=
  v ← gets this;
  modify (set_this other);;
  mret v.

(** ** Assignment

    The right-hand side of an assignment is the object itself or another
    one; [this != &other] tells them apart. *)
Inductive Operand := Self | Other (v : Vector).

(** [operator=(const Vector& other)]: [temp] is built, exchanged with
    [*this] and destroyed at the end of its block. *)
Definition assign_copy (other : Operand) : M unit :=
  match other with
  | Self => mret tt
  | Other o =>
      '(_, temp) ← on_object moved_out (Vector_copy o);
      temp ← Swap temp;
      on_object temp Vector_destroy;;
      mret tt
  end.

(** [operator=(Vector&& other) noexcept]; gives back [other] as it is left. *)
Definition assign_move (other : Operand) : M Operand :=
  match other with
  | Self => mret Self
  | Other o =>
      sz ← get_size_; DestroyElements sz;;
      DeallocateMemory;;
      set_vector_ (vector_ o);; set_size_ (size_ o);;
      set_capacity_ (capacity_ o);;
      mret (Other moved_out)
  end.

(** ** Capacity and mutation *)

(** [Resize(SizeType new_size, const ValueType& value)].  The new slots
    are filled from the reference after the elements were moved. *)
Definition Resize_fill (new_size : nat) (value : Reference T) : M unit := call (
  cap ← get_capacity_;
  if bool_decide (cap < new_size) then
    set_new_vector_end Null;;
    new_vector ← try_catch (allocate new_size) (deallocate Null new_size);
    try_catch
      (v ← get_vector_; sz ← get_size_;
       e ← uninitialized_move v (ptr_add v sz) new_vector;
       set_new_vector_end e)
      (deallocate new_vector new_size);;
    try_catch
      (e ← get_new_vector_end;
       uninitialized_fill e (ptr_add new_vector new_size) value;;
       set_new_vector_end (ptr_add new_vector new_size))
      (e ← get_new_vector_end;
       destroy new_vector e;;
       deallocate new_vector new_size);;
    sz ← get_size_; DestroyElements sz;;
    DeallocateMemory;;
    set_vector_ new_vector;;
    set_size_ new_size;;
    set_capacity_ new_size
  else
    sz ← get_size_;
    if bool_decide (sz < new_size) then
      try_catch
        (v ← get_vector_; sz ← get_size_;
         uninitialized_fill (ptr_add v sz) (ptr_add v new_size) value)
        (v ← get_vector_; sz ← get_size_;
         destroy (ptr_add v sz) (ptr_add v new_size));;
      set_size_ new_size
    else if bool_decide (new_size < sz) then
      v ← get_vector_; sz ← get_size_;
      destroy (ptr_add v new_size) (ptr_add v sz);;
      set_size_ new_size
    else mret tt).

(** [Resize(SizeType new_size)] *)
Definition Resize (new_size : nat) : M unit := call (
  cap ← get_capacity_;
  if bool_decide (cap < new_size) then
    new_vector ← try_catch (allocate new_size) (deallocate Null new_size);
    set_new_vector_end new_vector;;
    try_catch
      (v ← get_vector_; sz ← get_size_;
       e ← uninitialized_move v (ptr_add v sz) new_vector;
       set_new_vector_end e;;
       e ← get_new_vector_end; sz ← get_size_;
       uninitialized_value_construct_n e (size_sub new_size sz))
      (e ← get_new_vector_end;
       destroy new_vector e;;
       deallocate new_vector new_size);;
    sz ← get_size_; DestroyElements sz;;
    DeallocateMemory;;
    set_vector_ new_vector;;
    set_size_ new_size;;
    set_capacity_ new_size
  else
    sz ← get_size_;
    if bool_decide (sz < new_size) then
      try_catch
        (v ← get_vector_; sz ← get_size_;
         uninitialized_value_construct_n (ptr_add v sz) (size_sub new_size sz))
        (v ← get_vector_; sz ← get_size_;
         destroy (ptr_add v sz) (ptr_add v new_size));;
      set_size_ new_size
    else if bool_decide (new_size < sz) then
      v ← get_vector_; sz ← get_size_;
      destroy (ptr_add v new_size) (ptr_add v sz);;
      set_size_ new_size
    else mret tt).

Definition Reserve (new_capacity : nat) : M unit :=
  cap ← get_capacity_;
  if bool_decide (cap < new_capacity) then Reallocate new_capacity else mret tt.

Definition ShrinkToFit : M unit :=
  sz ← get_size_; cap ← get_capacity_;
  if bool_decide (sz < cap) then sz ← get_size_; Reallocate sz else mret tt.

Definition Clear : M unit :=
  sz ← get_size_; DestroyElements sz;; set_size_ 0.

(** The two overloads [PushBack(ConstReference value)] and
    [PushBack(ValueType&& value)] differ in the constructor that builds the
    new element, [T(value)] or [T(std::move(value))], and in nothing else.
    On a full container the new element is built from the reference after
    the elements were moved to the new block. *)
Definition PushBack_with (k : ctor_kind) (value : Reference T) : M unit := call (
  sz ← get_size_; cap ← get_capacity_;
  if bool_decide (sz = cap) then
    cap ← get_capacity_;
    let new_capacity := if bool_decide (cap = 0) then 1 else size_mul 2 cap in
    new_vector ← try_catch (allocate new_capacity) (deallocate Null new_capacity);
    set_new_vector_end new_vector;;
    try_catch
      (v ← get_vector_; sz ← get_size_;
       e ← uninitialized_move v (ptr_add v sz) new_vector;
       set_new_vector_end e;;
       e ← get_new_vector_end;
       construct_from e k value;;
       set_new_vector_end (ptr_add e 1))
      (e ← get_new_vector_end;
       destroy new_vector (ptr_add e 1);;
       deallocate new_vector new_capacity);;
    sz ← get_size_; DestroyElements sz;;
    DeallocateMemory;;
    set_vector_ new_vector;;
    sz ← get_size_; set_size_ (size_add sz 1);;
    set_capacity_ new_capacity
  else
    try_catch
      (v ← get_vector_; sz ← get_size_;
       construct_from (ptr_add v sz) k value)
      (v ← get_vector_; sz ← get_size_;
       destroy_at (ptr_add v sz));;
    sz ← get_size_; set_size_ (size_add sz 1)).

Definition PushBack (value : Reference T) : M unit := PushBack_with CopyCtor value.
Definition PushBack_rvalue (value : Reference T) : M unit :=
  PushBack_with MoveCtor value.

Definition PopBack : M unit :=
  sz ← get_size_;
  if bool_decide (0 < sz) then
    set_size_ (size_sub sz 1);;
    v ← get_vector_; sz ← get_size_;
    destroy_at (ptr_add v sz)
  else mret tt.

(** ** First and last element, iterators *)

(** [Front()]: [vector_[0]] *)
Definition Front : M ptr :=
  v ← get_vector_; mret (ptr_add v 0).

(** [Back()]: [vector_[size_ - 1]], the subtraction in [std::size_t] *)
Definition Back : M ptr :=
  v ← get_vector_; sz ← get_size_; mret (ptr_add v (size_sub sz 1)).

Definition begin : M ptr := get_vector_.

Definition end_ : M ptr :=
  v ← get_vector_; sz ← get_size_; mret (ptr_add v sz).

Definition rbegin : M ReverseIterator := e ← end_; mret {| base := e |}.
Definition rend : M ReverseIterator := b ← begin; mret {| base := b |}.
Definition cbegin : M ptr := begin.
Definition cend : M ptr := end_.
Definition crbegin : M ReverseIterator := rbegin.
Definition crend : M ReverseIterator := rend.

(** [*r] and [++r] of a reverse iterator. *)
Definition rderef (s : State) (r : ReverseIterator) : option T :=
  deref s (ptr_sub (base r) 1).
Definition rnext (r : ReverseIterator) : ReverseIterator :=
  {| base := ptr_sub (base r) 1 |}.

(** The loop [for (it = first; it != last; ++it)] over [*it]: the elements
    it visits, in at most [fuel] rounds.  [None] when the rounds run out or
    an iterator refers to no object. *)
Fixpoint visit (s : State) (fuel : nat) (it last : ptr) : option (list T) :=
  if bool_decide (it = last) then Some []
  else match fuel with
       | 0 => None
       | S fuel' =>
           x ← deref s it;
           rest ← visit s fuel' (ptr_add it 1) last;
           Some (x :: rest)
       end.

(** The same loop over reverse iterators. *)
Fixpoint rvisit (s : State) (fuel : nat) (it last : ReverseIterator)
    : option (list T) :=
  if bool_decide (base it = base last) then Some []
  else match fuel with
       | 0 => None
       | S fuel' =>
           x ← rderef s it;
           rest ← rvisit s fuel' (rnext it) last;
           Some (x :: rest)
       end.

End Model.

Arguments Ok {T A} a s.
Arguments Throw {T A} e s.

(** ** What a container holds

    [block_of xs cap] is the block of a container of capacity [cap] whose
    elements are [xs]: the live prefix, then raw slots. *)
Definition block_of {T} (xs : list T) (cap : nat) : list (Slot T) :=
  (Live <$> xs) ++ replicate (cap - length xs) Raw.

(** The world after [a] allocations, [c] constructor calls and [d]
    destructor calls that brought the heap to [h] without a fault. *)
Definition evolve {T} (h : list (option (list (Slot T)))) (a c d : nat)
    (w : World (T:=T)) : World :=
  {| heap := h; n_alloc := a + n_alloc w; n_ctor := c + n_ctor w;
     n_dtor := d + n_dtor w; faults := faults w |}.

(** The data-model invariant as the code keeps it, with the elements named:
    [v] is a container with elements [xs] in the world [w].  Its block has
    [capacity_] slots, the first [size_] of them live and the others raw;
    a container of capacity 0 has no block or a block of no slots. *)
Definition owns {T} (w : World (T:=T)) (v : Vector) (xs : list T) : Prop :=
  size_ v = length xs ∧ length xs ≤ capacity_ v ∧ fits (capacity_ v) = true ∧
  match vector_ v with
  | Null => capacity_ v = 0
  | Ptr b 0 => block_at w b = Some (block_of xs (capacity_ v))
  | _ => False
  end.

(** The element at index [i], read through [operator[]]. *)
Definition element {T} (s : State (T:=T)) (i : nat) : option T :=
  match index i s with
  | Ok p s' => deref s' p
  | Throw _ _ => None
  end.

(** Oracles. *)
Definition never_throws (O : Oracle) : Prop :=
  (∀ n, alloc_throws O n = false) ∧ (∀ k n, ctor_throws O k n = false).

(** The next [n] constructor calls after the first [c] do not throw. *)
Definition quiet (O : Oracle) (c n : nat) : Prop :=
  ∀ k j, j < n → ctor_throws O k (c + j) = false.

(** Storage that was not written to before: the [n]-th object built finds
    the bits [41 + n] there, and a pointer that was not initialised does
    not test as null. *)
Definition stale (n : nat) : Z := 41 + Z.of_nat n.

(** The objects that default-initialisation leaves in [n] slots when [c]
    constructor calls have been made before: each is what [T] makes of the
    bits its storage held. *)
Definition default_inits {T} `{!Element T} (O : Oracle) (c n : nat) : list T :=
  (λ i, default_init (storage_bits O (c + i))) <$> seq 0 n.

(** Nothing throws, and [allocate(0)] gives a block, as with libstdc++. *)
Definition never : Oracle :=
  {| alloc_throws := λ _, false; ctor_throws := λ _ _, false;
     zero_is_null := false; unset_is_null := false; storage_bits := stale |}.

(** The same on an implementation whose [allocate(0)] gives a null pointer. *)
Definition never_null : Oracle :=
  {| alloc_throws := λ _, false; ctor_throws := λ _ _, false;
     zero_is_null := true; unset_is_null := false; storage_bits := stale |}.

(** The [n]-th constructor call throws if it is of kind [k]. *)
Definition ctor_fails_at (k : ctor_kind) (n : nat) : Oracle :=
  {| alloc_throws := λ _, false;
     ctor_throws := λ k' m, bool_decide (k' = k ∧ m = n);
     zero_is_null := false; unset_is_null := false; storage_bits := stale |}.

(** [int] elements: [int()] is 0, default-initialisation writes nothing,
    and moving an [int] copies it. *)
Global Instance int_Element : Element Z :=
  {| value_init := 0%Z; default_init := λ g, g; moved_from := id |}.

(** Elements that own a buffer, as [std::string] or [std::vector<int>] do:
    the default constructor makes an empty one, and a move takes the
    buffer and leaves the source empty. *)
Global Instance buffer_Element : Element (list Z) :=
  {| value_init := []; default_init := λ _, []; moved_from := λ _, [] |}.

(** The program before any container exists. *)
Definition boot {T} : State (T:=T) :=
  {| this := {| vector_ := Wild; size_ := 0; capacity_ := 0 |};
     frame := {| new_vector_end := Wild; local_i := 0 |};
     mem := {| heap := []; n_alloc := 0; n_ctor := 0; n_dtor := 0; faults := [] |} |}.

(** One [PushBack] call of a sequence, by const reference or by rvalue, of
    an object of the caller's. *)
Inductive push (T : Type) := ByConstRef (x : T) | ByRvalue (x : T).
Arguments ByConstRef {T} x.
Arguments ByRvalue {T} x.

Definition pushed {T} (c : push T) : T :=
  match c with ByConstRef x | ByRvalue x => x end.

Definition do_push {T} `{!Element T} (O : Oracle) (c : push T) : M unit :=
  match c with
  | ByConstRef x => PushBack O (Object x)
  | ByRvalue x => PushBack_rvalue O (Object x)
  end.

Fixpoint push_all {T} `{!Element T} (O : Oracle) (cs : list (push T)) : M unit :=
  match cs with
  | [] => mret tt
  | c :: cs' => do_push O c;; push_all O cs'
  end.

(** A step that does not throw, whatever the state, and touches nothing
    but the memory, where it neither allocates nor constructs. *)
Definition quiet_step {T} (m : M (T:=T) unit) : Prop :=
  ∀ s, ∃ w', m s = Ok tt (set_mem w' s) ∧
             n_alloc w' = n_alloc (mem s) ∧ n_ctor w' = n_ctor (mem s).

(** Sample containers of [int]: [{7,7,7}] with capacity 3, as
    [Vector<int> a(3, 7)] builds it, and [{7,7}] and [{7}] with capacity 4. *)
Definition three_sevens : State (T:=Z) :=
  final (Vector_fill never 3 7%Z boot).
Definition two_sevens_cap4 : State (T:=Z) :=
  final ((Vector_fill never 2 7%Z;; Reserve never 4) boot).
Definition one_seven_cap4 : State (T:=Z) :=
  final ((Vector_fill never 1 7%Z;; Reserve never 4) boot).

(** Two buffers in a full container of capacity 2. *)
Definition two_buffers : State (T:=list Z) :=
  final (Vector_fill never 2 [1; 2]%Z boot).

(** The faults of destructor calls on the [n] slots of block [b] from
    slot [i] on, none of which holds an object. *)
Definition raw_destroys (b i n : nat) : list Fault :=
  (λ k, DestroyRaw (Ptr b k)) <$> seq i n.

Definition add_faults {T} (fs : list Fault) (w : World (T:=T)) : World :=
  {| heap := heap w; n_alloc := n_alloc w; n_ctor := n_ctor w; n_dtor := n_dtor w;
     faults := faults w ++ fs |}.

(** ** Comparison

    The operators compare elements with [operator==] and [operator<] of
    [T]. *)
Class Comparable (T : Type) := {
  elem_eq : T → T → bool;
  elem_lt : T → T → bool;
}.

Section Comparison.
Context {T : Type} `{!Comparable T}.

(** Read the object at [p] through a [const T&]. *)
Definition read (p : ptr) : M (T:=T) (option T) := λ s,
  match slot_at (mem s) p with
  | Some (Live x) => Ok (Some x) s
  | _ => Ok None (set_mem (add_fault (BadRead p) (mem s)) s)
  end.

(** The loop of [std::equal(first1, last1, first2)] over the [n] elements
    of [[first1, last1)]. *)
Fixpoint equal_n (first1 first2 : ptr) (n : nat) : M (T:=T) bool :=
  match n with
  | 0 => mret true
  | S n' =>
      x ← read first1; y ← read first2;
      match x, y with
      | Some x, Some y =>
          if elem_eq x y then equal_n (ptr_add first1 1) (ptr_add first2 1) n'
          else mret false
      | _, _ => mret false
      end
  end.

Definition equal (first1 last1 first2 : ptr) : M (T:=T) bool :=
  match range_len first1 last1 with
  | Some n => equal_n first1 first2 n
  | None => fault (BadRange first1 last1);; mret false
  end.

(** The loop of [std::lexicographical_compare] with [n] elements left in
    the first range and [m] in the second: the first pair in which one
    element is less than the other decides; when a range runs out, the
    first is less exactly if only it ran out. *)
Fixpoint lexicographical_compare_n (first1 first2 : ptr) (n m : nat)
    : M (T:=T) bool :=
  match n, m with
  | S n', S m' =>
      x ← read first1; y ← read first2;
      match x, y with
      | Some x, Some y =>
          if elem_lt x y then mret true
          else if elem_lt y x then mret false
          else lexicographical_compare_n (ptr_add first1 1) (ptr_add first2 1) n' m'
      | _, _ => mret false
      end
  | 0, S _ => mret true
  | _, 0 => mret false
  end.

Definition lexicographical_compare (first1 last1 first2 last2 : ptr)
    : M (T:=T) bool :=
  match range_len first1 last1, range_len first2 last2 with
  | Some n, Some m => lexicographical_compare_n first1 first2 n m
  | None, _ => fault (BadRange first1 last1);; mret false
  | _, None => fault (BadRange first2 last2);; mret false
  end.

(** [operator==]: [other.begin()] is [other.vector_]. *)
Definition operator_eq (other : Vector) : M (T:=T) bool :=
  sz ← get_size_;
  if bool_decide (sz = size_ other) then
    b ← begin; e ← end_;
    equal b e (vector_ other)
  else mret false.

Definition operator_ne (other : Vector) : M (T:=T) bool :=
  r ← operator_eq other; mret (negb r).

(** [operator<]: [other.end()] is [other.vector_ + other.size_]. *)
Definition operator_lt (other : Vector) : M (T:=T) bool :=
  b ← begin; e ← end_;
  lexicographical_compare b e (vector_ other) (ptr_add (vector_ other) (size_ other)).

Definition operator_ge (other : Vector) : M (T:=T) bool :=
  r ← operator_lt other; mret (negb r).

(** [operator>] is [other < *this]: [operator<] runs on [other]. *)
Definition operator_gt (other : Vector) : M (T:=T) bool :=
  me ← gets this;
  r ← on_object other (operator_lt me);
  mret r.1.

Definition operator_le (other : Vector) : M (T:=T) bool :=
  r ← operator_gt other; mret (negb r).

End Comparison.

(** [int] compares as the integers do. *)
Global Instance int_Comparable : Comparable Z :=
  {| elem_eq := Z.eqb; elem_lt := Z.ltb |}.

(** ** Sequences of calls and the list they amount to *)

(** The argument of a call on the container [a]: an object of the
    caller's, or [a[i]], an element of [a] itself. *)
Inductive Arg (T : Type) := Value (x : T) | Own (i : nat).
Arguments Value {T} x.
Arguments Own {T} i.

(** The reference the argument evaluates to when the call is made; [a[i]]
    goes through [operator[]]. *)
Definition bind_arg {T} (a : Arg T) : M (T:=T) (Reference T) :=
  match a with
  | Value x => mret (Object x)
  | Own i => p ← index i; mret (Stored p)
  end.

(** One call of a member function that changes the container. *)
Inductive Call (T : Type) :=
  | CallPushBack (value : Arg T)
  | CallPushBackRvalue (value : Arg T)
  | CallPopBack
  | CallResize (new_size : nat)
  | CallResizeFill (new_size : nat) (value : Arg T)
  | CallReserve (new_capacity : nat)
  | CallShrinkToFit
  | CallClear.
Arguments CallPushBack {T} value.
Arguments CallPushBackRvalue {T} value.
Arguments CallPopBack {T}.
Arguments CallResize {T} new_size.
Arguments CallResizeFill {T} new_size value.
Arguments CallReserve {T} new_capacity.
Arguments CallShrinkToFit {T}.
Arguments CallClear {T}.

Definition perform {T} `{!Element T} (O : Oracle) (c : Call T) : M unit :=
  match c with
  | CallPushBack a => value ← bind_arg a; PushBack O value
  | CallPushBackRvalue a => value ← bind_arg a; PushBack_rvalue O value
  | CallPopBack => PopBack
  | CallResize n => Resize O n
  | CallResizeFill n a => value ← bind_arg a; Resize_fill O n value
  | CallReserve n => Reserve O n
  | CallShrinkToFit => ShrinkToFit O
  | CallClear => Clear
  end.

Fixpoint perform_all {T} `{!Element T} (O : Oracle) (cs : list (Call T)) : M unit :=
  match cs with
  | [] => mret tt
  | c :: cs' => perform O c;; perform_all O cs'
  end.

(** The object the argument names when the container holds [xs]. *)
Definition arg_value {T} (a : Arg T) (xs : list T) : option T :=
  match a with
  | Value x => Some x
  | Own i => xs !! i
  end.

(** What the argument, naming [y] at the call, is read as once the elements
    have been moved to a new block: an element of the container is in the
    moved-from state by then. *)
Definition after_move {T} `{!Element T} (a : Arg T) (y : T) : T :=
  match a with
  | Value _ => y
  | Own _ => moved_from y
  end.

(** The elements after the argument was moved from, with no relocation
    before: one of the container's own is left moved-from. *)
Definition taken {T} `{!Element T} (a : Arg T) (xs : list T) : list T :=
  match a with
  | Value _ => xs
  | Own i => alter moved_from i xs
  end.

(** What a call makes of a plain list of elements held at capacity [cap],
    and of the capacity.  A call that moves the elements to a new block
    reads its argument afterwards. *)
Definition list_after {T} `{!Element T} (c : Call T) (xs : list T) (cap : nat)
    : list T :=
  match c with
  | CallPushBack a =>
      match arg_value a xs with
      | Some y => xs ++ [if bool_decide (length xs = cap) then after_move a y else y]
      | None => xs
      end
  | CallPushBackRvalue a =>
      match arg_value a xs with
      | Some y => if bool_decide (length xs = cap) then xs ++ [after_move a y]
                  else taken a xs ++ [y]
      | None => xs
      end
  | CallPopBack => take (length xs - 1) xs
  | CallResize n => take n xs ++ replicate (n - length xs) value_init
  | CallResizeFill n a =>
      match arg_value a xs with
      | Some y => take n xs ++ replicate (n - length xs)
                                (if bool_decide (cap < n) then after_move a y else y)
      | None => xs
      end
  | CallReserve _ | CallShrinkToFit => xs
  | CallClear => []
  end.

Definition capacity_after {T} (c : Call T) (xs : list T) (cap : nat) : nat :=
  match c with
  | CallPushBack _ | CallPushBackRvalue _ =>
      if bool_decide (length xs = cap) then 1 `max` (2 * cap) else cap
  | CallResize n | CallResizeFill n _ | CallReserve n => cap `max` n
  | CallShrinkToFit => length xs
  | CallPopBack | CallClear => cap
  end.

(** The largest number of elements the call may ask the allocator for. *)
Definition request {T} (c : Call T) (xs : list T) : nat :=
  match c with
  | CallPushBack _ | CallPushBackRvalue _ => 2 * (length xs + 1)
  | CallResize n | CallResizeFill n _ | CallReserve n => n
  | _ => 0
  end.

(** The argument of the call, where it has one, names an object. *)
Definition names_object {T} (c : Call T) (xs : list T) : bool :=
  match c with
  | CallPushBack a | CallPushBackRvalue a | CallResizeFill _ a =>
      bool_decide (is_Some (arg_value a xs))
  | _ => true
  end.

Fixpoint list_after_all {T} `{!Element T} (cs : list (Call T)) (xs : list T)
    (cap : nat) : list T :=
  match cs with
  | [] => xs
  | c :: cs' => list_after_all cs' (list_after c xs cap) (capacity_after c xs cap)
  end.

Fixpoint capacity_after_all {T} `{!Element T} (cs : list (Call T)) (xs : list T)
    (cap : nat) : nat :=
  match cs with
  | [] => cap
  | c :: cs' => capacity_after_all cs' (list_after c xs cap) (capacity_after c xs cap)
  end.

(** The calls can be made one after the other on a container that holds
    [xs] at capacity [cap]: none asks the allocator for more than it can
    give, and none is handed an element that is not there. *)
Fixpoint well_posed {T} `{!Element T} (cs : list (Call T)) (xs : list T)
    (cap : nat) : bool :=
  match cs with
  | [] => true
  | c :: cs' =>
      fits (request c xs) && names_object c xs
      && well_posed cs' (list_after c xs cap) (capacity_after c xs cap)
  end.

(** The list operation a call stands for, with its argument as it is when
    the call is made, and the calls whose argument is no element of the
    container. *)
Definition plain_list_after {T} `{!Element T} (c : Call T) (xs : list T) : list T :=
  match c with
  | CallPushBack a | CallPushBackRvalue a =>
      match arg_value a xs with
      | Some y => xs ++ [y]
      | None => xs
      end
  | CallPopBack => take (length xs - 1) xs
  | CallResize n => take n xs ++ replicate (n - length xs) value_init
  | CallResizeFill n a =>
      match arg_value a xs with
      | Some y => take n xs ++ replicate (n - length xs) y
      | None => xs
      end
  | CallReserve _ | CallShrinkToFit => xs
  | CallClear => []
  end.

Fixpoint plain_list_after_all {T} `{!Element T} (cs : list (Call T)) (xs : list T)
    : list T :=
  match cs with
  | [] => xs
  | c :: cs' => plain_list_after_all cs' (plain_list_after c xs)
  end.

Definition by_value {T} (c : Call T) : bool :=
  match c with
  | CallPushBack (Own _) | CallPushBackRvalue (Own _) | CallResizeFill _ (Own _) => false
  | _ => true
  end.

(** ** What a call does to the rest of the program *)

(** The block a container keeps, if it keeps one. *)
Definition block_index (v : Vector) : option nat :=
  match vector_ v with
  | Ptr b _ => Some b
  | _ => None
  end.

(** From the heap [h] of a container that kept the block [o] to the heap
    [h'] where it keeps [o']: no block is forgotten; the blocks that were
    not the container's are as they were; a block that is new, or was the
    container's, and is not the container's now has been deallocated; the
    container's block is the one it had or a new one. *)
Definition heap_step {T} (h h' : list (option (list (Slot T))))
    (o o' : option nat) : Prop :=
  length h ≤ length h' ∧
  (∀ b, b < length h → o ≠ Some b → h' !! b = h !! b) ∧
  (∀ b, b < length h' → length h ≤ b ∨ o = Some b → o' ≠ Some b →
        h' !! b = Some None) ∧
  (∀ b, o' = Some b → o = Some b ∨ length h ≤ b).

(** A call that returned, on a container that held [xs] and holds [xs']
    now: the container is well formed, the caller's locals are as they
    were, no step without a meaning was taken, every object constructed
    beyond the change in the number of elements was destroyed, once, and
    the heap changed as [heap_step] allows. *)
Definition clean_step {T} (s s' : State (T:=T)) (xs xs' : list T) : Prop :=
  owns (mem s') (this s') xs' ∧
  frame s' = frame s ∧
  faults (mem s') = faults (mem s) ∧
  n_ctor (mem s') + n_dtor (mem s) + length xs
    = n_ctor (mem s) + n_dtor (mem s') + length xs' ∧
  heap_step (heap (mem s)) (heap (mem s')) (block_index (this s)) (block_index (this s')).

(** ** Lexicographic order

    [xs] comes before [ys]: it is a proper prefix of [ys], or the two
    differ first at a position where the element of [xs] is the lesser. *)
Definition lex_before {T} `{!Comparable T} (xs ys : list T) : Prop :=
  (∃ y r, ys = xs ++ y :: r) ∨
  (∃ p x y r1 r2, xs = p ++ x :: r1 ∧ ys = p ++ y :: r2 ∧ elem_lt x y = true).

(** What [std::equal] answers on a range that holds [xs] and a second one
    that holds [ys], and what [std::lexicographical_compare] answers. *)
Fixpoint seq_equal {T} `{!Comparable T} (xs ys : list T) : bool :=
  match xs, ys with
  | [], _ => true
  | x :: xs', y :: ys' => elem_eq x y && seq_equal xs' ys'
  | _ :: _, [] => false
  end.

Fixpoint seq_less {T} `{!Comparable T} (xs ys : list T) : bool :=
  match xs, ys with
  | x :: xs', y :: ys' =>
      if elem_lt x y then true
      else if elem_lt y x then false
      else seq_less xs' ys'
  | [], _ :: _ => true
  | _, [] => false
  end.

(** The range from [p] on holds the elements [xs]. *)
Definition holds {T} (s : State (T:=T)) (p : ptr) (xs : list T) : Prop :=
  ∀ k x, xs !! k = Some x → deref s (ptr_add p k) = Some x.

(** Calls that are [PushBack]s of an object of the caller's. *)
Definition is_PushBack {T} (c : Call T) : bool :=
  match c with
  | CallPushBack (Value _) | CallPushBackRvalue (Value _) => true
  | _ => false
  end.

(** The [n]-th allocation fails; no construction throws. *)
Definition alloc_fails_at (n : nat) : Oracle :=
  {| alloc_throws := λ m, bool_decide (m = n);
     ctor_throws := λ _ _, false;
     zero_is_null := false; unset_is_null := false; storage_bits := stale |}.

(** The same where a pointer that was not initialised tests as null. *)
Definition alloc_fails_at_null (n : nat) : Oracle :=
  {| alloc_throws := λ m, bool_decide (m = n);
     ctor_throws := λ _ _, false;
     zero_is_null := false; unset_is_null := true; storage_bits := stale |}.

(** A second container, [{7,7,8}], built while [{7,7,7}] exists: [this] is
    the new one and [this three_sevens] is still the old one. *)
Definition seven_seven_eight : State (T:=Z) :=
  final (Vector_range never [7; 7; 8]%Z three_sevens).

(** * Proofs *)

(** Unfold the plumbing of the monad and of the member accesses. *)
Ltac mrun :=
  repeat progress
    (unfold mbind, M_bind, mret, M_ret, try_catch, call, gets, modify, throw,
       get_vector_, get_size_, get_capacity_, set_vector_, set_size_, set_capacity_,
       get_new_vector_end, set_new_vector_end, get_i, set_i, truthy, construct_from,
       set_this, set_frame, set_mem, evolve, add_faults;
     cbn [this frame mem vector_ size_ capacity_ new_vector_end local_i
          heap n_alloc n_ctor n_dtor faults]).

Ltac len := rewrite ?length_insert, ?length_app; cbn [length]; lia.

(** Look up in a heap that was updated block by block. *)
Ltac lk :=
  repeat first
    [ rewrite list_lookup_insert_ne by lia
    | rewrite list_lookup_insert_eq by len
    | rewrite lookup_app_l by lia
    | rewrite lookup_app_r by lia ].

(** The three ways a call leaves the heap: a first block, a new block for
    the old one, the same block. *)
Ltac heap_first w :=
  unfold heap_step, block_index; cbn [vector_];
  split; [len|]; split; [intros ? ? _; by lk|]; split;
  [ let b' := fresh "b'" in let Hb' := fresh "Hb'" in
    intros b' Hb' [?|?] ?; [|done];
    rewrite ?length_insert, length_app in Hb'; cbn [length] in Hb';
    destruct (decide (b' = length (heap w))) as [->|]; [done|lia]
  | intros ? [= <-]; by right ].

Ltac heap_moved w b :=
  unfold heap_step, block_index; cbn [vector_];
  split; [len|]; split;
  [ let b' := fresh "b'" in intros b' ? ?; assert (b' ≠ b) by congruence; by lk|];
  split;
  [ let b' := fresh "b'" in let Hb' := fresh "Hb'" in let Hor := fresh "Hor" in
    intros b' Hb' Hor ?;
    rewrite ?length_insert, length_app in Hb'; cbn [length] in Hb';
    assert (b' = b) as ->
      by (destruct Hor as [?|[= ?]]; [|done];
          destruct (decide (b' = length (heap w))) as [->|]; [done|lia]);
    by rewrite list_lookup_insert_eq by len
  | intros ? [= <-]; by right ].

Ltac heap_same b :=
  unfold heap_step, block_index; cbn [vector_];
  split; [len|]; split;
  [ let b' := fresh "b'" in intros b' ? ?; assert (b' ≠ b) by congruence; by lk|];
  split;
  [ let Hb' := fresh "Hb'" in
    intros ? Hb' [?|?] ?; [rewrite ?length_insert in Hb'; lia|done]
  | intros ? [= <-]; by left ].

Section Proofs.
Context {T : Type} `{!Element T}.
Implicit Types (s : State (T:=T)) (w : World (T:=T)) (xs : list T).
Implicit Types (blk pre post : list (Slot T)) (h : list (option (list (Slot T)))).
Variable O : Oracle.

Lemma bind_eq {A B} (m : M A) (k : A → M B) s :
  (m ≫= k) s = match m s with Ok a s' => k a s' | Throw e s' => Throw e s' end.
Proof. reflexivity. Qed.

Lemma set_mem_mem s : set_mem (mem s) s = s.
Proof. by destruct s. Qed.

Lemma set_mem_set_mem w w' s : set_mem w' (set_mem w s) = set_mem w' s.
Proof. reflexivity. Qed.

Lemma evolve_id w : evolve (heap w) 0 0 0 w = w.
Proof. by destruct w. Qed.

Lemma evolve_evolve h h' a c d a' c' d' w :
  evolve h' a' c' d' (evolve h a c d w) = evolve h' (a' + a) (c' + c) (d' + d) w.
Proof. unfold evolve; simpl. f_equal; lia. Qed.

Lemma block_at_lt w b blk : block_at w b = Some blk → b < length (heap w).
Proof.
  unfold block_at. intros Hb. apply lookup_lt_is_Some.
  destruct (heap w !! b); [eauto|done].
Qed.

Lemma block_at_heap w b blk : block_at w b = Some blk ↔ heap w !! b = Some (Some blk).
Proof.
  unfold block_at. destruct (heap w !! b) as [[?|]|]; simpl; naive_solver.
Qed.

Lemma block_at_evolve h a c d w b : block_at (evolve h a c d w) b = mjoin (h !! b).
Proof. reflexivity. Qed.

Lemma block_at_fresh h blk a c d f :
  block_at {| heap := h ++ [Some blk]; n_alloc := a; n_ctor := c; n_dtor := d;
              faults := f |} (length h) = Some blk.
Proof. unfold block_at. cbn [heap]. by rewrite lookup_app_r, Nat.sub_diag. Qed.

Lemma construct_at_ok b i k x s blk :
  ctor_throws O k (n_ctor (mem s)) = false →
  block_at (mem s) b = Some blk →
  blk !! i = Some Raw →
  construct_at O (Ptr b i) k x s =
  Ok tt (set_mem (evolve (<[b := Some (<[i := Live x]> blk)]> (heap (mem s))) 0 1 0 (mem s)) s).
Proof.
  intros Hq Hb Hi. unfold construct_at. rewrite Hq. simpl.
  rewrite Hb. simpl. rewrite Hi.
  change (block_at (bump_ctor (mem s)) b) with (block_at (mem s) b). rewrite Hb.
  reflexivity.
Qed.

Lemma construct_at_throw p k x s :
  ctor_throws O k (n_ctor (mem s)) = true →
  construct_at O p k x s = Throw ctor_failure (set_mem (evolve (heap (mem s)) 0 1 0 (mem s)) s).
Proof. intros Hq. unfold construct_at. by rewrite Hq. Qed.

Lemma destroy_at_ok b i x s blk :
  block_at (mem s) b = Some blk →
  blk !! i = Some (Live x) →
  destroy_at (Ptr b i) s =
  Ok tt (set_mem (evolve (<[b := Some (<[i := Raw]> blk)]> (heap (mem s))) 0 0 1 (mem s)) s).
Proof.
  intros Hb Hi. unfold destroy_at. simpl. rewrite Hb. simpl. rewrite Hi.
  change (block_at (bump_dtor (mem s)) b) with (block_at (mem s) b). rewrite Hb.
  reflexivity.
Qed.

Lemma quiet_head k c n : quiet O c (S n) → ctor_throws O k c = false.
Proof. intros Hq. rewrite <- (Nat.add_0_r c). apply Hq. lia. Qed.

Lemma quiet_tail c n : quiet O c (S n) → quiet O (S c) n.
Proof. intros Hq k j Hj. replace (S c + j) with (c + S j) by lia. apply Hq. lia. Qed.

Lemma destroy_n_ok b pre xs post s :
  block_at (mem s) b = Some (pre ++ (Live <$> xs) ++ post) →
  destroy_n (Ptr b (length pre)) (length xs) s =
  Ok tt (set_mem (evolve (<[b := Some (pre ++ replicate (length xs) Raw ++ post)]> (heap (mem s)))
                         0 0 (length xs) (mem s)) s).
Proof.
  revert pre s. induction xs as [|x xs IH]; intros pre s Hb.
  - simpl. rewrite list_insert_id by by apply block_at_heap.
    by rewrite evolve_id, set_mem_mem.
  - simpl. rewrite bind_eq.
    erewrite destroy_at_ok; [|done|].
    2:{ rewrite lookup_app_r by lia. by rewrite Nat.sub_diag. }
    replace (Ptr b (length pre + 1)) with (Ptr b (length (pre ++ [Raw]))) 
      by (rewrite length_app; done).
    rewrite IH.
    2:{ simpl. rewrite block_at_evolve, list_lookup_insert_eq by by eapply block_at_lt.
        simpl. f_equal. rewrite <- (Nat.add_0_r (length pre)) at 1.
        rewrite insert_app_r. simpl. by rewrite <- app_assoc. }
    simpl. rewrite set_mem_set_mem, list_insert_insert_eq, evolve_evolve.
    rewrite <- app_assoc. simpl. do 3 f_equal; lia.
Qed.

Lemma construct_n_ok k x first b pre n post s :
  quiet O (n_ctor (mem s)) n →
  block_at (mem s) b = Some (pre ++ replicate n Raw ++ post) →
  construct_n (λ p, construct_at O p k x) first (Ptr b (length pre)) n s =
  Ok tt (set_mem (evolve (<[b := Some (pre ++ replicate n (Live x) ++ post)]> (heap (mem s)))
                         0 n 0 (mem s)) s).
Proof.
  revert pre s. induction n as [|n IH]; intros pre s Hq Hb.
  - simpl. rewrite list_insert_id by by apply block_at_heap.
    by rewrite evolve_id, set_mem_mem.
  - simpl. rewrite bind_eq. unfold try_catch.
    erewrite construct_at_ok; [|by eapply quiet_head|done|].
    2:{ rewrite lookup_app_r by lia. by rewrite Nat.sub_diag. }
    replace (Ptr b (length pre + 1)) with (Ptr b (length (pre ++ [Live x])))
      by (rewrite length_app; done).
    rewrite IH.
    + simpl. rewrite set_mem_set_mem, list_insert_insert_eq, evolve_evolve.
      rewrite <- app_assoc. simpl. do 3 f_equal; lia.
    + simpl. by apply quiet_tail.
    + simpl. rewrite block_at_evolve, list_lookup_insert_eq by by eapply block_at_lt.
      simpl. f_equal. rewrite <- (Nat.add_0_r (length pre)) at 1.
      rewrite insert_app_r. simpl. by rewrite <- app_assoc.
Qed.


Lemma insert_collapse2 {A} (l : list A) i j a a0 b b0 :
  i ≠ j → <[i := a]> (<[j := b]> (<[i := a0]> (<[j := b0]> l))) = <[i := a]> (<[j := b]> l).
Proof.
  intros Hij. rewrite (list_insert_insert_ne (<[j:=b0]> l) j i b a0) by done.
  by rewrite !list_insert_insert_eq.
Qed.

Lemma move_construct_ok bs bd i j x s sblk dblk :
  bs ≠ bd →
  ctor_throws O MoveCtor (n_ctor (mem s)) = false →
  block_at (mem s) bs = Some sblk → sblk !! i = Some (Live x) →
  block_at (mem s) bd = Some dblk → dblk !! j = Some Raw →
  move_construct O (Ptr bd j) (Ptr bs i) s =
  Ok tt (set_mem (evolve (<[bs := Some (<[i := Live (moved_from x)]> sblk)]>
                           (<[bd := Some (<[j := Live x]> dblk)]> (heap (mem s))))
                         0 1 0 (mem s)) s).
Proof.
  intros Hne Hq Hs Hi Hd Hj. unfold move_construct. rewrite bind_eq. unfold gets.
  simpl. rewrite Hs. simpl. rewrite Hi. rewrite bind_eq.
  erewrite construct_at_ok by done. unfold modify, store. simpl.
  rewrite block_at_evolve, list_lookup_insert_ne by done.
  apply block_at_heap in Hs. rewrite Hs. simpl.
  unfold set_block, set_heap. simpl. reflexivity.
Qed.

Lemma move_n_ok bs bd spre dpre xs spost dpost d_first s :
  bs ≠ bd → quiet O (n_ctor (mem s)) (length xs) →
  block_at (mem s) bs = Some (spre ++ (Live <$> xs) ++ spost) →
  block_at (mem s) bd = Some (dpre ++ replicate (length xs) Raw ++ dpost) →
  move_n O (Ptr bs (length spre)) d_first (Ptr bd (length dpre)) (length xs) s =
  Ok (Ptr bd (length dpre + length xs))
     (set_mem (evolve (<[bs := Some (spre ++ (Live <$> (moved_from <$> xs)) ++ spost)]>
                        (<[bd := Some (dpre ++ (Live <$> xs) ++ dpost)]> (heap (mem s))))
                      0 (length xs) 0 (mem s)) s).
Proof.
  intros Hne. revert spre dpre s.
  induction xs as [|x xs IH]; intros spre dpre s Hq Hs Hd.
  - simpl. rewrite !list_insert_id; [|by apply block_at_heap|].
    2:{ rewrite list_lookup_insert_ne by done. by apply block_at_heap. }
    rewrite evolve_id, set_mem_mem. unfold mret, M_ret. do 2 f_equal. lia.
  - simpl. rewrite bind_eq. unfold try_catch.
    erewrite move_construct_ok; [|done|by eapply quiet_head|done| |done|].
    2:{ rewrite lookup_app_r by lia. by rewrite Nat.sub_diag. }
    2:{ rewrite lookup_app_r by lia. by rewrite Nat.sub_diag. }
    replace (Ptr bs (length spre + 1)) with (Ptr bs (length (spre ++ [Live (moved_from x)])))
      by (rewrite length_app; done).
    replace (Ptr bd (length dpre + 1)) with (Ptr bd (length (dpre ++ [Live x])))
      by (rewrite length_app; done).
    assert (Hbs : bs < length (heap (mem s))) by by eapply block_at_lt.
    assert (Hbd : bd < length (heap (mem s))) by by eapply block_at_lt.
    rewrite IH.
    + simpl. rewrite set_mem_set_mem, insert_collapse2, evolve_evolve by done.
      rewrite <- !app_assoc, length_app. simpl. 
      f_equal; [f_equal; lia|]. do 2 f_equal; lia.
    + simpl. by apply quiet_tail.
    + simpl. rewrite block_at_evolve, list_lookup_insert_eq.
      2:{ by rewrite length_insert. }
      simpl. f_equal. rewrite <- (Nat.add_0_r (length spre)) at 1.
      rewrite insert_app_r. simpl. by rewrite <- app_assoc.
    + simpl. rewrite block_at_evolve, list_lookup_insert_ne, list_lookup_insert_eq by done.
      simpl. f_equal. rewrite <- (Nat.add_0_r (length dpre)) at 1.
      rewrite insert_app_r. simpl. by rewrite <- app_assoc.
Qed.

Lemma allocate_ok n s :
  fits n = true → alloc_throws O (n_alloc (mem s)) = false →
  0 < n ∨ zero_is_null O = false →
  allocate O n s =
  Ok (Ptr (length (heap (mem s))) 0)
     (set_mem (evolve (heap (mem s) ++ [Some (replicate n Raw)]) 1 0 0 (mem s)) s).
Proof.
  intros Hf Ha Hz. unfold allocate. rewrite Hf, Ha. cbn [negb orb].
  destruct Hz as [Hn | ->].
  - by rewrite bool_decide_eq_false_2 by lia.
  - by rewrite andb_false_r.
Qed.

Lemma allocate_zero_null s :
  alloc_throws O (n_alloc (mem s)) = false → zero_is_null O = true →
  allocate O 0 s = Ok Null (set_mem (evolve (heap (mem s)) 1 0 0 (mem s)) s).
Proof. intros Ha Hz. unfold allocate. by rewrite Ha, Hz. Qed.

Lemma deallocate_ok b blk n s :
  block_at (mem s) b = Some blk → length blk = n →
  deallocate (Ptr b 0) n s =
  Ok tt (set_mem (evolve (<[b := None]> (heap (mem s))) 0 0 0 (mem s)) s).
Proof.
  intros Hb Hn. unfold deallocate. rewrite Hb. rewrite bool_decide_eq_true_2 by done.
  by destruct s as [? ? []].
Qed.


Lemma block_of_nil cap : block_of (T:=T) [] cap = replicate cap Raw.
Proof. unfold block_of. simpl. by rewrite Nat.sub_0_r. Qed.

Lemma block_of_length xs cap : length xs ≤ cap → length (block_of xs cap) = cap.
Proof.
  intros. unfold block_of. rewrite length_app, length_fmap, length_replicate. lia.
Qed.

Lemma block_of_split xs cap n :
  length xs ≤ n → n ≤ cap →
  block_of xs cap = (Live <$> xs) ++ replicate (n - length xs) Raw ++ replicate (cap - n) Raw.
Proof.
  intros. unfold block_of. rewrite <- replicate_add. do 2 f_equal. lia.
Qed.

Lemma block_of_lookup_live xs cap i x :
  xs !! i = Some x → block_of xs cap !! i = Some (Live x).
Proof.
  intros Hi. unfold block_of. rewrite lookup_app_l.
  - by rewrite list_lookup_fmap, Hi.
  - rewrite length_fmap. by eapply lookup_lt_Some.
Qed.

Lemma block_of_snoc xs cap x :
  length xs < cap → <[length xs := Live x]> (block_of xs cap) = block_of (xs ++ [x]) cap.
Proof.
  intros Hlt. unfold block_of.
  rewrite <- (length_fmap Live xs) at 1. rewrite <- (Nat.add_0_r (length (Live <$> xs))).
  rewrite insert_app_r, fmap_app, <- app_assoc, length_app. cbn [length fmap list_fmap app].
  destruct (cap - length xs) as [|r] eqn:Hr; [lia|].
  replace (cap - (length xs + 1)) with r by lia. done.
Qed.

Lemma block_of_lookup_raw xs cap i :
  length xs ≤ i → i < cap → block_of xs cap !! i = Some Raw.
Proof.
  intros H1 H2. unfold block_of. rewrite lookup_app_r by (rewrite length_fmap; lia).
  apply lookup_replicate_2. rewrite length_fmap. lia.
Qed.

Lemma range_len_At b i n : range_len (Ptr b i) (ptr_add (Ptr b i) n) = Some n.
Proof.
  simpl. rewrite bool_decide_eq_true_2 by (split; [done|lia]). f_equal. lia.
Qed.

Lemma range_len_At' b i j : i ≤ j → range_len (Ptr b i) (Ptr b j) = Some (j - i).
Proof. intros. simpl. by rewrite bool_decide_eq_true_2. Qed.

Lemma uninitialized_move_ok bs bd xs cap n s :
  bs ≠ bd → quiet O (n_ctor (mem s)) (length xs) → length xs ≤ n →
  block_at (mem s) bs = Some (block_of xs cap) →
  block_at (mem s) bd = Some (replicate n Raw) →
  uninitialized_move O (Ptr bs 0) (ptr_add (Ptr bs 0) (length xs)) (Ptr bd 0) s =
  Ok (Ptr bd (length xs))
     (set_mem (evolve (<[bs := Some (block_of (moved_from <$> xs) cap)]>
                        (<[bd := Some (block_of xs n)]> (heap (mem s))))
                      0 (length xs) 0 (mem s)) s).
Proof.
  intros Hne Hq Hn Hs Hd. unfold uninitialized_move. rewrite range_len_At.
  rewrite (move_n_ok bs bd [] [] xs (replicate (cap - length xs) Raw)
             (replicate (n - length xs) Raw)); try done.
  - unfold block_of. simpl. by rewrite length_fmap.
  - rewrite Hd. simpl. rewrite <- replicate_add. do 2 f_equal. lia.
Qed.

Lemma DestroyElements_ok b xs cap n s :
  vector_ (this s) = Ptr b 0 → n = length xs → length xs ≤ cap →
  block_at (mem s) b = Some (block_of xs cap) →
  DestroyElements n s =
  Ok tt (set_mem (evolve (<[b := Some (replicate cap Raw)]> (heap (mem s)))
                         0 0 (length xs) (mem s)) s).
Proof.
  intros Hv -> Hn Hb. unfold DestroyElements, get_vector_, gets. rewrite bind_eq, Hv.
  unfold destroy. rewrite range_len_At.
  rewrite (destroy_n_ok b [] xs (replicate (cap - length xs) Raw)) by done.
  simpl. rewrite <- replicate_add.
  by replace (length xs + (cap - length xs)) with cap by lia.
Qed.

Lemma DeallocateMemory_ok b blk s :
  vector_ (this s) = Ptr b 0 → block_at (mem s) b = Some blk →
  length blk = capacity_ (this s) →
  DeallocateMemory O s =
  Ok tt (set_this {| vector_ := Null; size_ := size_ (this s); capacity_ := capacity_ (this s) |}
           (set_mem (evolve (<[b := None]> (heap (mem s))) 0 0 0 (mem s)) s)).
Proof.
  intros Hv Hb Hl. unfold DeallocateMemory. mrun. rewrite Hv. mrun.
  by erewrite deallocate_ok.
Qed.

Lemma uninitialized_fill_ok b xs cap n v s :
  quiet O (n_ctor (mem s)) (n - length xs) → length xs ≤ n → n ≤ cap →
  block_at (mem s) b = Some (block_of xs cap) →
  uninitialized_fill O (Ptr b (length xs)) (Ptr b n) (Object v) s =
  Ok tt (set_mem (evolve (<[b := Some (block_of (xs ++ replicate (n - length xs) v) cap)]>
                            (heap (mem s)))
                         0 (n - length xs) 0 (mem s)) s).
Proof.
  intros Hq H1 H2 Hb. unfold uninitialized_fill. rewrite range_len_At' by done.
  rewrite <- (length_fmap Live xs) at 1 2.
  rewrite (construct_n_ok CopyCtor v _ b (Live <$> xs) (n - length xs)
             (replicate (cap - n) Raw)); try done.
  - do 5 f_equal. unfold block_of.
    rewrite fmap_app, fmap_replicate, <- app_assoc, length_app, length_replicate.
    do 3 f_equal. lia.
  - by rewrite Hb, (block_of_split xs cap n).
Qed.

Lemma uninitialized_value_construct_n_ok b xs cap n s :
  quiet O (n_ctor (mem s)) (n - length xs) → length xs ≤ n → n ≤ cap →
  block_at (mem s) b = Some (block_of xs cap) →
  uninitialized_value_construct_n O (Ptr b (length xs)) (n - length xs) s =
  Ok tt (set_mem (evolve (<[b := Some (block_of (xs ++ replicate (n - length xs) value_init) cap)]>
                            (heap (mem s)))
                         0 (n - length xs) 0 (mem s)) s).
Proof.
  intros Hq H1 H2 Hb. unfold uninitialized_value_construct_n.
  rewrite <- (length_fmap Live xs) at 1 2.
  rewrite (construct_n_ok DefaultCtor value_init _ b (Live <$> xs) (n - length xs)
             (replicate (cap - n) Raw)); try done.
  - do 5 f_equal. unfold block_of.
    rewrite fmap_app, fmap_replicate, <- app_assoc, length_app, length_replicate.
    do 3 f_equal. lia.
  - by rewrite Hb, (block_of_split xs cap n).
Qed.


Lemma fits_spec n : fits n = true ↔ (N.of_nat n ≤ 2 ^ 63 - 1)%N.
Proof. unfold fits, max_size. apply N.leb_le. Qed.

Lemma fits_le n m : n ≤ m → fits m = true → fits n = true.
Proof. rewrite !fits_spec. lia. Qed.

Lemma size_mul_2 n : fits n = true → size_mul 2 n = 2 * n.
Proof.
  rewrite fits_spec. intros Hn. unfold size_mul, size_t_mod.
  rewrite N.mod_small by lia. lia.
Qed.

Lemma size_add_1 n : fits n = true → size_add n 1 = n + 1.
Proof.
  rewrite fits_spec. intros Hn. unfold size_add, size_t_mod.
  rewrite N.mod_small by lia. lia.
Qed.

Lemma size_sub_le a b : b ≤ a → fits a = true → size_sub a b = a - b.
Proof.
  rewrite fits_spec. intros Hb Hn. unfold size_sub, size_t_mod.
  rewrite (N.mod_small (N.of_nat b)) by lia.
  replace (N.of_nat a + 2 ^ 64 - N.of_nat b)%N with (N.of_nat (a - b) + 1 * 2 ^ 64)%N by lia.
  rewrite N.Div0.mod_add, N.mod_small by lia. lia.
Qed.


Lemma owns_fresh w v xs b : owns w v xs → vector_ v = Ptr b 0 → b < length (heap w).
Proof.
  intros (_ & _ & _ & Hv) Hb. rewrite Hb in Hv. by eapply block_at_lt.
Qed.

Lemma PushBack_with_ok k x xs s :
  never_throws O → owns (mem s) (this s) xs → fits (2 * (length xs + 1)) = true →
  ∃ s', PushBack_with O k (Object x) s = Ok tt s' ∧
        owns (mem s') (this s') (xs ++ [x]) ∧
        frame s' = frame s ∧ faults (mem s') = faults (mem s) ∧
        capacity_ (this s') =
          (if bool_decide (length xs = capacity_ (this s))
           then 1 `max` (2 * capacity_ (this s)) else capacity_ (this s)).
Proof.
  intros Hnever (Hsz & Hle & Hfit & Hv) Hbig.
  destruct Hnever as [Ha Hc].
  assert (Hq : ∀ c n, quiet O c n) by (intros c n k' j _; apply Hc).
  destruct s as [[v sz cap] fr w]. cbn [this mem frame vector_ size_ capacity_] in *.
  subst sz. unfold PushBack_with. mrun.
  case_bool_decide as Hfull.
  - (* growth *)
    subst cap. mrun.
    set (nc := if bool_decide (length xs = 0) then 1 else size_mul 2 (length xs)).
    assert (Hnc : nc = 1 `max` (2 * length xs)).
    { unfold nc. case_bool_decide as H0; [rewrite H0; done|].
      rewrite size_mul_2 by (eapply fits_le; [|done]; lia). lia. }
    assert (Hfnc : fits nc = true) by (eapply fits_le; [|done]; lia).
    clearbody nc.
    rewrite allocate_ok by (done || apply Ha || (left; lia)). mrun.
    destruct v as [| |b [|?]]; try done.
    + (* no block yet *)
      assert (xs = []) as -> by (destruct xs; [done|simpl in *; lia]).
      cbn [length] in *. replace nc with 1 in * by lia.
      unfold uninitialized_move. cbn [range_len ptr_add move_n length]. mrun.
      erewrite construct_at_ok; [|apply Hc|apply block_at_fresh|done].
      mrun. unfold DestroyElements, destroy. mrun. cbn [range_len ptr_add destroy_n]. mrun.
      unfold DeallocateMemory. mrun.
      eexists. split; [reflexivity|]. mrun.
      split; [|done]. unfold owns. cbn [vector_ size_ capacity_].
      rewrite size_add_1 by done. repeat split; try done.
      unfold block_at. cbn [heap]. rewrite list_lookup_insert_eq by len. done.
    + (* relocation *)
      assert (Hb : b < length (heap w)) by by eapply block_at_lt.
      erewrite (uninitialized_move_ok b (length (heap w)) xs (length xs) nc);
        [|lia|apply Hq|lia| |apply block_at_fresh].
      2:{ cbn [mem]. unfold block_at. cbn [heap]. rewrite lookup_app_l by done.
          by apply block_at_heap in Hv as ->. }
      mrun.
      erewrite construct_at_ok; [|apply Hc| |].
      2:{ cbn [mem]. unfold block_at. cbn [heap].
          rewrite list_lookup_insert_ne, list_lookup_insert_eq by len. done. }
      2:{ unfold block_of. rewrite lookup_app_r by (rewrite length_fmap; lia).
          rewrite length_fmap, Nat.sub_diag. apply lookup_replicate_2. lia. }
      mrun.
      erewrite (DestroyElements_ok b (moved_from <$> xs) (length xs));
        [|done|by rewrite length_fmap|by rewrite length_fmap|].
      2:{ cbn [mem]. unfold block_at. cbn [heap]. 
          rewrite list_lookup_insert_ne by lia. rewrite list_lookup_insert_eq by len. done. }
      mrun.
      erewrite (DeallocateMemory_ok b); [|done| |].
      2:{ cbn [mem]. unfold block_at. cbn [heap]. rewrite list_lookup_insert_eq by len. done. }
      2:{ by rewrite length_replicate. }
      mrun. eexists. split; [reflexivity|]. mrun.
      split; [|done]. unfold owns. cbn [vector_ size_ capacity_].
      rewrite size_add_1 by (eapply fits_le; [|done]; lia).
      rewrite length_app. cbn [length]. repeat split; try done; try lia.
      unfold block_at. cbn [heap].
      rewrite !(list_lookup_insert_ne _ b) by lia.
      rewrite list_lookup_insert_eq by len. cbn [mjoin option_join].
      by rewrite block_of_snoc by lia.
  - (* room left *)
    destruct v as [| |b [|?]]; try done; [lia|].
    mrun. cbn [ptr_add Nat.add].
    erewrite construct_at_ok; [|apply Hc|done|].
    2:{ apply block_of_lookup_raw; lia. }
    mrun. eexists. split; [reflexivity|]. mrun.
    split; [|done]. unfold owns. cbn [vector_ size_ capacity_].
    rewrite size_add_1 by (eapply fits_le; [|done]; lia).
    rewrite length_app. cbn [length]. repeat split; try done; try lia.
    unfold block_at. cbn [heap]. 
    rewrite list_lookup_insert_eq by by eapply block_at_lt.
    cbn [mjoin option_join ptr_add plus]. by rewrite block_of_snoc by lia.
Qed.

Lemma destroy_suffix_ok b xs cap n s :
  n ≤ length xs → length xs ≤ cap →
  block_at (mem s) b = Some (block_of xs cap) →
  destroy (Ptr b n) (Ptr b (length xs)) s =
  Ok tt (set_mem (evolve (<[b := Some (block_of (take n xs) cap)]> (heap (mem s)))
                         0 0 (length xs - n) (mem s)) s).
Proof.
  intros Hn Hcap Hb. unfold destroy. rewrite range_len_At' by done.
  assert (Hlen : length (Live (T:=T) <$> take n xs) = n)
    by (rewrite length_fmap, length_take; lia).
  rewrite <- Hlen at 1.
  replace (length xs - n) with (length (drop n xs)) by (rewrite length_drop; lia).
  rewrite (destroy_n_ok b (Live <$> take n xs) (drop n xs) (replicate (cap - length xs) Raw)).
  - do 5 f_equal. unfold block_of. rewrite <- replicate_add, length_take, length_drop.
    do 2 f_equal. lia.
  - rewrite Hb. unfold block_of. rewrite app_assoc, <- fmap_app, take_drop. done.
Qed.

Lemma owns_element xs s i x :
  owns (mem s) (this s) xs → xs !! i = Some x → element s i = Some x.
Proof.
  intros (Hsz & Hle & _ & Hv) Hi. unfold element, index. mrun. unfold deref.
  destruct (vector_ (this s)) as [| |b [|?]]; try done.
  - apply lookup_lt_Some in Hi. lia.
  - cbn [ptr_add Nat.add slot_at]. rewrite Hv. cbn [mbind option_bind].
    by erewrite block_of_lookup_live.
Qed.



Lemma copy_construct_ok bs bd i j x s sblk dblk :
  ctor_throws O CopyCtor (n_ctor (mem s)) = false →
  block_at (mem s) bs = Some sblk → sblk !! i = Some (Live x) →
  block_at (mem s) bd = Some dblk → dblk !! j = Some Raw →
  copy_construct O (Ptr bd j) (Ptr bs i) s =
  Ok tt (set_mem (evolve (<[bd := Some (<[j := Live x]> dblk)]> (heap (mem s))) 0 1 0 (mem s)) s).
Proof.
  intros Hq Hs Hi Hd Hj. unfold copy_construct. rewrite bind_eq. unfold gets.
  cbn [slot_at]. rewrite Hs. cbn [mbind option_bind]. rewrite Hi.
  by erewrite construct_at_ok.
Qed.

Lemma copy_construct_throw bs bd i j x s sblk :
  ctor_throws O CopyCtor (n_ctor (mem s)) = true →
  block_at (mem s) bs = Some sblk → sblk !! i = Some (Live x) →
  copy_construct O (Ptr bd j) (Ptr bs i) s =
  Throw ctor_failure (set_mem (evolve (heap (mem s)) 0 1 0 (mem s)) s).
Proof.
  intros Hq Hs Hi. unfold copy_construct. rewrite bind_eq. unfold gets.
  cbn [slot_at]. rewrite Hs. cbn [mbind option_bind]. rewrite Hi.
  by erewrite construct_at_throw.
Qed.

(** The copy constructor's loop, from a state in which [done] has been
    copied and [todo] is still to come. *)
Lemma copy_rounds_ok other bs bd scap dcap done todo rest c fr w :
  vector_ other = Ptr bs 0 → bs ≠ bd →
  quiet O (n_ctor w) (length todo) →
  block_at w bs = Some (block_of (done ++ todo ++ rest) scap) →
  block_at w bd = Some (block_of done dcap) →
  length (done ++ todo) ≤ dcap → fits dcap = true →
  repeat_n (length todo) (copy_round O other)
    {| this := {| vector_ := Ptr bd 0; size_ := length done; capacity_ := c |};
       frame := fr; mem := w |} =
  Ok tt {| this := {| vector_ := Ptr bd 0; size_ := length (done ++ todo); capacity_ := c |};
           frame := fr;
           mem := evolve (<[bd := Some (block_of (done ++ todo) dcap)]> (heap w))
                         0 (length todo) 0 w |}.
Proof.
  intros Hv Hne. revert done w.
  induction todo as [|y todo IH]; intros done w Hq Hs Hd Hlen Hfit.
  - cbn [repeat_n length]. rewrite app_nil_r. unfold mret, M_ret. do 2 f_equal.
    rewrite list_insert_id by by apply block_at_heap. by rewrite evolve_id.
  - cbn [repeat_n length]. rewrite bind_eq. unfold copy_round at 1. mrun.
    rewrite Hv. cbn [ptr_add Nat.add].
    rewrite length_app in Hlen. cbn [length] in Hlen.
    erewrite copy_construct_ok; [|by eapply quiet_head|done| |done|].
    2:{ apply block_of_lookup_live. by rewrite lookup_app_r, Nat.sub_diag. }
    2:{ apply block_of_lookup_raw; lia. }
    mrun. rewrite size_add_1 by (eapply fits_le; [|done]; lia).
    rewrite block_of_snoc by lia.
    replace (length done + 1) with (length (done ++ [y])) by (rewrite length_app; done).
    assert (Hbd : bd < length (heap w)) by by eapply block_at_lt.
    rewrite IH.
    + rewrite <- app_assoc. cbn [app]. do 2 f_equal. unfold evolve. cbn [heap n_alloc n_ctor n_dtor faults].
      rewrite list_insert_insert_eq. f_equal; lia.
    + cbn [n_ctor]. by eapply quiet_tail.
    + unfold block_at. cbn [heap]. rewrite list_lookup_insert_ne by done.
      apply block_at_heap in Hs. rewrite Hs. by rewrite <- app_assoc.
    + unfold block_at. cbn [heap]. by rewrite list_lookup_insert_eq.
    + rewrite <- app_assoc, length_app. cbn [app length]. lia.
    + done.
Qed.

Lemma repeat_n_split a b (body : M unit) s :
  repeat_n (a + b) body s =
  match repeat_n a body s with
  | Ok _ s1 => repeat_n b body s1
  | Throw e s1 => Throw e s1
  end.
Proof.
  revert s. induction a as [|a IH]; intros s; [done|].
  cbn [Nat.add repeat_n]. rewrite !bind_eq. destruct (body s) as [[] s1|e s1]; [|done].
  apply IH.
Qed.

Lemma Vector_copy_ok other xs s :
  never_throws O → owns (mem s) other xs →
  ∃ s', Vector_copy O other s = Ok tt s' ∧
        size_ (this s') = size_ other ∧ capacity_ (this s') = capacity_ other ∧
        (∀ b off, vector_ (this s') = Ptr b off → b = length (heap (mem s)) ∧ off = 0) ∧
        owns (mem s') (this s') xs ∧ owns (mem s') other xs ∧
        frame s' = frame s ∧ faults (mem s') = faults (mem s).
Proof.
  intros [Ha Hc] (Hsz & Hle & Hfit & Hv).
  assert (Hq : ∀ c n, quiet O c n) by (intros c m k' j _; apply Hc).
  destruct s as [v0 fr w]. destruct other as [p sz cap].
  cbn [this mem frame vector_ size_ capacity_] in *. subst sz.
  unfold Vector_copy, new_object, AllocateMemory. mrun.
  destruct (decide (cap = 0)) as [-> | Hcap].
  - (* nothing to copy; the allocator decides whether there is a block *)
    assert (xs = []) as -> by (destruct xs; [done|simpl in *; lia]).
    destruct (zero_is_null O) eqn:Hz.
    + rewrite allocate_zero_null by (done || apply Ha). mrun.
      cbn [length Nat.sub repeat_n]. mrun.
      eexists. split; [reflexivity|]. mrun. repeat split; try done.
    + rewrite allocate_ok by (done || apply Ha || by right). mrun.
      cbn [length Nat.sub repeat_n]. mrun.
      eexists. split; [reflexivity|]. mrun. repeat split; try done; try congruence.
      * unfold block_at. cbn [heap vector_]. by rewrite lookup_app_r, Nat.sub_diag.
      * destruct p as [| |bs [|?]]; try done.
        assert (Hbs : bs < length (heap w)) by by eapply block_at_lt.
        cbn [vector_ capacity_]. unfold block_at. cbn [heap].
        rewrite lookup_app_l by done.
        by apply block_at_heap in Hv as ->.
  - rewrite allocate_ok by (done || apply Ha || (left; lia)). mrun.
    rewrite Nat.sub_0_r.
    destruct p as [| |bs [|?]]; try done.
    assert (Hbs : bs < length (heap w)) by by eapply block_at_lt.
    erewrite (copy_rounds_ok _ bs (length (heap w)) cap cap [] xs []);
      [|done|lia|apply Hq| | |done|done].
    2:{ unfold block_at. cbn [heap]. rewrite lookup_app_l by done.
        apply block_at_heap in Hv. rewrite Hv. by rewrite app_nil_r. }
    2:{ rewrite block_of_nil. apply block_at_fresh. }
    mrun. eexists. split; [reflexivity|]. mrun. cbn [app].
    repeat split; try done; try congruence.
    + unfold block_at. cbn [heap vector_]. by rewrite list_lookup_insert_eq by len.
    + unfold block_at. cbn [heap vector_].
      rewrite list_lookup_insert_ne, lookup_app_l by lia.
      by apply block_at_heap in Hv as ->.
Qed.

Lemma Vector_copy_throw other xs j s :
  owns (mem s) other xs → j < length xs →
  alloc_throws O (n_alloc (mem s)) = false →
  quiet O (n_ctor (mem s)) j →
  ctor_throws O CopyCtor (n_ctor (mem s) + j) = true →
  ∃ s', Vector_copy O other s = Throw ctor_failure s' ∧
        owns (mem s') other xs ∧
        heap (mem s') = heap (mem s) ++ [None] ∧
        n_ctor (mem s') = S j + n_ctor (mem s) ∧
        n_dtor (mem s') = j + n_dtor (mem s) ∧
        frame s' = frame s ∧ faults (mem s') = faults (mem s).
Proof.
  intros (Hsz & Hle & Hfit & Hv) Hj Ha Hq Hthrow.
  destruct s as [v0 fr w]. destruct other as [p sz cap].
  cbn [this mem frame vector_ size_ capacity_] in *. subst sz.
  unfold Vector_copy, new_object, AllocateMemory. mrun.
  rewrite allocate_ok by (done || (left; lia)). mrun.
  rewrite Nat.sub_0_r.
  destruct p as [| |bs [|?]]; try done; [lia|].
  assert (Hbs : bs < length (heap w)) by by eapply block_at_lt.
  assert (Hxs : xs = take j xs ++ drop j xs) by by rewrite take_drop.
  destruct (drop j xs) as [|y rest] eqn:Hdrop.
  { apply (f_equal length) in Hdrop. rewrite length_drop in Hdrop. simpl in Hdrop. lia. }
  assert (Htake : length (take j xs) = j) by (rewrite length_take; lia).
  assert (Hl : length xs = length (take j xs) + S (length rest)).
  { pose proof (f_equal length Hxs) as Hl. by rewrite length_app in Hl. }
  rewrite Hl, repeat_n_split.
  erewrite (copy_rounds_ok _ bs (length (heap w)) cap cap [] (take j xs) (y :: rest));
    [|done|lia|by rewrite Htake| | |cbn [app]; lia|done].
  2:{ unfold block_at. cbn [heap]. rewrite lookup_app_l by done.
      apply block_at_heap in Hv. rewrite Hv. cbn [app]. by rewrite <- Hxs. }
  2:{ rewrite block_of_nil. apply block_at_fresh. }
  cbn [repeat_n app]. rewrite bind_eq. unfold copy_round at 1. mrun.
  cbn [ptr_add Nat.add].
  erewrite copy_construct_throw; [| | |].
  2:{ cbn [mem n_ctor]. rewrite Htake. by rewrite Nat.add_comm. }
  2:{ cbn [mem]. unfold block_at. cbn [heap]. rewrite list_lookup_insert_ne by lia.
      rewrite lookup_app_l by done. by apply block_at_heap in Hv as ->. }
  2:{ apply block_of_lookup_live. rewrite Htake.
      pose proof (lookup_drop xs j 0) as Hd. rewrite Hdrop, Nat.add_0_r in Hd. by symmetry. }
  mrun.
  erewrite (destroy_suffix_ok (length (heap w)) (take j xs) cap 0); [|lia|lia|].
  2:{ cbn [mem]. unfold block_at. cbn [heap]. by rewrite list_lookup_insert_eq by len. }
  mrun.
  erewrite deallocate_ok; [| |].
  2:{ cbn [mem]. unfold block_at. cbn [heap]. by rewrite list_lookup_insert_eq by len. }
  2:{ apply block_of_length. rewrite length_take. lia. }
  mrun. eexists. split; [reflexivity|]. mrun.
  rewrite !list_insert_insert_eq.
  repeat split; try done; try lia.
  - cbn [vector_ capacity_]. unfold block_at. cbn [heap].
    rewrite list_lookup_insert_ne by lia.
    rewrite lookup_app_l by done. by apply block_at_heap in Hv as ->.
  - rewrite <- (Nat.add_0_r (length (heap w))). rewrite insert_app_r. done.
Qed.

Lemma quiet_step_ret : quiet_step (T:=T) (mret tt).
Proof. intros s. exists (mem s). by rewrite set_mem_mem. Qed.

Lemma quiet_step_bind (m1 m2 : M unit) :
  quiet_step (T:=T) m1 → quiet_step (T:=T) m2 → quiet_step (T:=T) (m1 ≫= λ _, m2).
Proof.
  intros H1 H2 s. destruct (H1 s) as (w1 & E1 & ? & ?).
  destruct (H2 (set_mem w1 s)) as (w2 & E2 & ? & ?).
  exists w2. rewrite bind_eq, E1, E2. cbn [mem set_mem] in *. repeat split; congruence.
Qed.

Lemma quiet_step_fault f : quiet_step (T:=T) (fault f).
Proof. intros s. by eexists. Qed.

Lemma destroy_at_quiet p : quiet_step (T:=T) (destroy_at p).
Proof.
  intros s. unfold destroy_at. destruct (slot_at (mem s) p) as [[|x]|].
  - apply quiet_step_fault.
  - eexists. split; [reflexivity|]. by destruct p; cbn; [| |destruct (block_at _ _)].
  - apply quiet_step_fault.
Qed.

Lemma destroy_n_quiet p n : quiet_step (T:=T) (destroy_n p n).
Proof.
  revert p. induction n as [|n IH]; intros p; [apply quiet_step_ret|].
  apply quiet_step_bind; [apply destroy_at_quiet|apply IH].
Qed.

Lemma destroy_quiet first last : quiet_step (T:=T) (destroy first last).
Proof.
  unfold destroy. destruct (range_len first last);
    [apply destroy_n_quiet|apply quiet_step_fault].
Qed.

Lemma deallocate_quiet p n : quiet_step (T:=T) (deallocate p n).
Proof.
  intros s. unfold deallocate. destruct p as [| |b [|?]].
  - apply quiet_step_ret.
  - apply quiet_step_fault.
  - destruct (block_at (mem s) b); [case_bool_decide|]; try apply quiet_step_fault.
    by eexists.
  - apply quiet_step_fault.
Qed.

Lemma DestroyElements_quiet n s :
  ∃ w', DestroyElements n s = Ok tt (set_mem w' s) ∧
        n_alloc w' = n_alloc (mem s) ∧ n_ctor w' = n_ctor (mem s).
Proof. unfold DestroyElements. mrun. apply destroy_quiet. Qed.

Lemma DeallocateMemory_quiet s :
  ∃ w' p, DeallocateMemory O s =
          Ok tt (set_this {| vector_ := p; size_ := size_ (this s);
                             capacity_ := capacity_ (this s) |} (set_mem w' s)) ∧
          n_alloc w' = n_alloc (mem s) ∧ n_ctor w' = n_ctor (mem s).
Proof.
  destruct s as [[p sz cap] fr w]. unfold DeallocateMemory.
  destruct p as [| |b i]; mrun.
  - by exists w, Null.
  - unfold fault. mrun. destruct (unset_is_null O); cbn [negb]; mrun.
    + eexists _, Wild. split; [reflexivity|done].
    + eexists _, Null. split; [reflexivity|done].
  - destruct (deallocate_quiet (Ptr b i) cap
      {| this := {| vector_ := Ptr b i; size_ := sz; capacity_ := cap |}; frame := fr;
         mem := w |}) as (w' & E & ? & ?).
    exists w', Null. by rewrite E.
Qed.

Lemma Vector_move_ok v s :
  Vector_move v s = Ok moved_out (set_this v s).
Proof. by destruct v. Qed.

(** [v = std::move(v)] is the guarded no-op. *)
Lemma assign_move_self s : assign_move O Self s = Ok Self s.
Proof. reflexivity. Qed.

Lemma assign_move_total o s :
  ∃ o' s', assign_move O o s = Ok o' s' ∧
           n_alloc (mem s') = n_alloc (mem s) ∧ n_ctor (mem s') = n_ctor (mem s).
Proof.
  destruct o as [|v]; [by exists Self, s|].
  unfold assign_move. mrun.
  destruct (DestroyElements_quiet (size_ (this s)) s) as (w1 & -> & ? & ?).
  destruct (DeallocateMemory_quiet (set_mem w1 s)) as (w2 & p & -> & ? & ?).
  mrun. eexists _, _. split; [reflexivity|]. cbn [mem set_mem] in *. split; congruence.
Qed.

Lemma assign_move_ok v xs ys s :
  owns (mem s) (this s) ys → owns (mem s) v xs →
  (∀ b, vector_ (this s) = Ptr b 0 → vector_ v ≠ Ptr b 0) →
  ∃ s', assign_move O (Other v) s = Ok (Other moved_out) s' ∧
        this s' = v ∧ owns (mem s') (this s') xs ∧
        n_alloc (mem s') = n_alloc (mem s) ∧ n_ctor (mem s') = n_ctor (mem s) ∧
        n_dtor (mem s') = length ys + n_dtor (mem s) ∧
        frame s' = frame s ∧ faults (mem s') = faults (mem s).
Proof.
  intros (Hsz & Hle & Hfit & Hv) Hown Hdis.
  destruct s as [[p sz cap] fr w]. cbn [this mem frame vector_ size_ capacity_] in *.
  subst sz. unfold assign_move. mrun.
  destruct p as [| |b [|?]]; try done.
  - assert (ys = []) as -> by (destruct ys; [done|simpl in *; lia]).
    unfold DestroyElements, destroy. mrun. cbn [length range_len ptr_add destroy_n]. mrun.
    unfold DeallocateMemory. mrun.
    eexists. split; [reflexivity|]. mrun. destruct v. by destruct w.
  - erewrite (DestroyElements_ok b ys cap); [|done|done|done|done].
    mrun.
    assert (Hb : b < length (heap w)) by by eapply block_at_lt.
    erewrite (DeallocateMemory_ok b); [|done| |].
    2:{ cbn [mem]. unfold block_at. cbn [heap]. rewrite list_lookup_insert_eq by len. done. }
    2:{ by rewrite length_replicate. }
    mrun. eexists. split; [reflexivity|]. mrun.
    destruct v as [pv szv capv].
    destruct Hown as (? & ? & ? & Hpv). cbn [vector_ size_ capacity_] in *.
    split; [done|]. split; [|repeat split; try done; lia].
    unfold owns. cbn [vector_ size_ capacity_]. repeat split; try done.
    destruct pv as [| |bv [|?]]; try done.
    assert (b ≠ bv) by (intros ->; by eapply Hdis).
    unfold block_at. cbn [heap]. rewrite !list_lookup_insert_ne by done.
    by apply block_at_heap in Hpv as ->.
Qed.

(** A [PushBack] that returns has the capacity the growth rule gives. *)
Lemma construct_at_this p k x s a s1 :
  construct_at O p k x s = Ok a s1 → this s1 = this s.
Proof.
  unfold construct_at. destruct (ctor_throws O k _); [done|].
  destruct (slot_at (mem s) p) as [[|?]|]; by intros [= _ <-].
Qed.

Lemma construct_from_this p k (value : Reference T) s a s1 :
  construct_from O p k value s = Ok a s1 → this s1 = this s.
Proof.
  assert (Hcopy : ∀ src, copy_construct O p src s = Ok a s1 → this s1 = this s).
  { intros src. unfold copy_construct. rewrite bind_eq. unfold gets.
    destruct (slot_at (mem s) src) as [[|x]|]; try by intros [= _ <-].
    apply construct_at_this. }
  destruct value as [x|src]; cbn [construct_from]; [apply construct_at_this|].
  destruct k; try apply Hcopy.
  unfold move_construct. rewrite bind_eq. unfold gets.
  destruct (slot_at (mem s) src) as [[|x]|]; try by intros [= _ <-].
  rewrite bind_eq. destruct (construct_at O p MoveCtor x s) as [[] s2|e s2] eqn:E; [|done].
  apply construct_at_this in E. by intros [= _ <-].
Qed.

Lemma PushBack_with_capacity k (value : Reference T) s s' :
  fits (capacity_ (this s)) = true →
  PushBack_with O k value s = Ok tt s' →
  capacity_ (this s') =
    if bool_decide (size_ (this s) = capacity_ (this s))
    then 1 `max` (2 * capacity_ (this s)) else capacity_ (this s).
Proof.
  intros Hfit. destruct s as [[p sz cap] fr w].
  cbn [this mem frame vector_ size_ capacity_] in *.
  unfold PushBack_with. mrun. case_bool_decide as Hfull; mrun.
  - set (nc := if bool_decide (cap = 0) then 1 else size_mul 2 cap).
    assert (Hnc : nc = 1 `max` (2 * cap)).
    { unfold nc. case_bool_decide as H0; [rewrite H0; done|].
      rewrite size_mul_2 by done. lia. }
    clearbody nc. subst nc.
    repeat match goal with
           | |- context [match ?X with Ok _ _ => _ | Throw _ _ => _ end] =>
               lazymatch X with
               | context [match _ with Ok _ _ => _ | Throw _ _ => _ end] => fail
               | _ => destruct X
               end
           end; try done.
    by intros [= <-].
  - match goal with
    | |- context [match value with Object _ => _ | Stored _ => _ end ?s0] =>
        destruct (construct_from O (ptr_add p sz) k value s0) as [a s1|e s1] eqn:E;
        unfold construct_from in E; rewrite E
    end.
    + fold (construct_from O (ptr_add p sz) k value) in E.
      apply construct_from_this in E. cbn [this] in E. intros [= <-].
      cbn [this capacity_]. by rewrite E.
    + destruct (destroy_at _ s1); done.
Qed.

(** *** Handlers that destroy storage holding no object *)

Lemma destroy_at_raw b i blk s :
  block_at (mem s) b = Some blk → blk !! i = Some Raw →
  destroy_at (Ptr b i) s = Ok tt (set_mem (add_faults [DestroyRaw (Ptr b i)] (mem s)) s).
Proof.
  intros Hb Hi. unfold destroy_at. cbn [slot_at]. rewrite Hb. cbn [mbind option_bind].
  by rewrite Hi.
Qed.

Lemma add_faults_add_faults fs gs w :
  add_faults gs (add_faults fs w) = add_faults (fs ++ gs) w.
Proof. unfold add_faults. cbn. by rewrite app_assoc. Qed.

Lemma add_faults_nil w : add_faults [] w = w.
Proof. destruct w. unfold add_faults. cbn. by rewrite app_nil_r. Qed.

Lemma destroy_n_raw b i n blk s :
  block_at (mem s) b = Some blk →
  (∀ k, i ≤ k < i + n → blk !! k = Some Raw) →
  destroy_n (Ptr b i) n s = Ok tt (set_mem (add_faults (raw_destroys b i n) (mem s)) s).
Proof.
  revert i s. induction n as [|n IH]; intros i s Hb Hraw.
  - cbn [destroy_n raw_destroys seq fmap list_fmap].
    by rewrite add_faults_nil, set_mem_mem.
  - cbn [destroy_n]. rewrite bind_eq.
    erewrite destroy_at_raw; [|done|apply Hraw; lia].
    cbn [ptr_add]. rewrite Nat.add_1_r, IH; [|done|intros k Hk; apply Hraw; lia].
    cbn [mem set_mem]. by rewrite add_faults_add_faults.
Qed.

Lemma destroy_n_add p a b s :
  destroy_n p (a + b) s =
  match destroy_n p a s with
  | Ok _ s1 => destroy_n (ptr_add p a) b s1
  | Throw e s1 => Throw e s1
  end.
Proof.
  revert p s. induction a as [|a IH]; intros p s.
  - cbn [Nat.add destroy_n]. unfold mret, M_ret. destruct p as [| |? ?]; cbn [ptr_add]; [done..|].
    by rewrite Nat.add_0_r.
  - cbn [Nat.add destroy_n]. rewrite !bind_eq.
    destruct (destroy_at p s) as [[] s1|e s1]; [|done].
    rewrite IH. destruct p as [| |? ?]; cbn [ptr_add]; [done..|].
    by rewrite <- Nat.add_assoc.
Qed.

Lemma replicate_snoc_cons {A} m (a : A) l :
  replicate m a ++ a :: l = a :: replicate m a ++ l.
Proof. induction m as [|m IH]; [done|]. cbn [replicate app]. by rewrite IH. Qed.

(** A [std::uninitialized_*] algorithm whose [j]-th construction throws
    hands back the storage as it found it. *)
Lemma construct_n_throw k x b pre m n j post s :
  j < n → quiet O (n_ctor (mem s)) j →
  ctor_throws O k (n_ctor (mem s) + j) = true →
  block_at (mem s) b = Some (pre ++ replicate m (Live x) ++ replicate n Raw ++ post) →
  construct_n (λ p, construct_at O p k x) (Ptr b (length pre)) (Ptr b (length pre + m)) n s =
  Throw ctor_failure
    (set_mem (evolve (<[b := Some (pre ++ replicate (m + n) Raw ++ post)]> (heap (mem s)))
                     0 (S j) (m + j) (mem s)) s).
Proof.
  revert m n s. induction j as [|j IH]; intros m n s Hj Hq Ht Hb;
    (destruct n as [|n]; [lia|]); cbn [construct_n]; rewrite bind_eq; unfold try_catch.
  - rewrite Nat.add_0_r in Ht. rewrite construct_at_throw by done.
    unfold destroy. rewrite range_len_At' by lia.
    replace (length pre + m - length pre) with (length (replicate m x)) 
      by (rewrite length_replicate; lia).
    erewrite (destroy_n_ok b pre (replicate m x) (replicate (S n) Raw ++ post)).
    2:{ cbn [mem set_mem]. rewrite block_at_evolve.
        apply block_at_heap in Hb. rewrite Hb. by rewrite fmap_replicate. }
    cbn [mem set_mem heap evolve]. rewrite set_mem_set_mem, length_replicate.
    do 2 f_equal. unfold evolve. cbn [heap n_alloc n_ctor n_dtor faults].
    rewrite (app_assoc (replicate m Raw)), <- replicate_add. f_equal; lia.
  - erewrite construct_at_ok; [|by eapply quiet_head|done|].
    2:{ rewrite lookup_app_r by lia. rewrite lookup_app_r by (rewrite length_replicate; lia).
        rewrite length_replicate. replace (length pre + m - length pre - m) with 0 by lia.
        done. }
    cbn [ptr_add]. replace (length pre + m + 1) with (length pre + S m) by lia.
    assert (Hlt : b < length (heap (mem s))) by by eapply block_at_lt.
    rewrite (IH (S m) n).
    + cbn [mem set_mem heap evolve]. rewrite set_mem_set_mem.
      do 2 f_equal. unfold evolve. cbn [heap n_alloc n_ctor n_dtor faults].
      rewrite list_insert_insert_eq.
      replace (S m + n) with (m + S n) by lia. f_equal; lia.
    + lia.
    + cbn [mem set_mem evolve n_ctor]. by apply quiet_tail.
    + cbn [mem set_mem evolve n_ctor]. 
      replace (1 + n_ctor (mem s) + j) with (n_ctor (mem s) + S j) by lia. done.
    + cbn [mem set_mem]. rewrite block_at_evolve, list_lookup_insert_eq by done.
      cbn [mjoin option_join]. f_equal.
      rewrite app_assoc. 
      replace (length pre + m) with (length (pre ++ replicate m (Live x)) + 0)
        by (rewrite length_app, length_replicate; lia).
      rewrite insert_app_r. cbn [replicate app insert list_insert].
      rewrite <- app_assoc. f_equal. apply replicate_snoc_cons.
Qed.

Lemma gap_throw k x b xs cap n j s :
  length xs < n → n ≤ cap → j < n - length xs →
  quiet O (n_ctor (mem s)) j → ctor_throws O k (n_ctor (mem s) + j) = true →
  block_at (mem s) b = Some (block_of xs cap) →
  construct_n (λ p, construct_at O p k x) (Ptr b (length xs)) (Ptr b (length xs))
    (n - length xs) s =
  Throw ctor_failure (set_mem (evolve (heap (mem s)) 0 (S j) j (mem s)) s).
Proof.
  intros H1 H2 Hj Hq Ht Hb.
  pose proof (construct_n_throw k x b (Live <$> xs) 0 (n - length xs) j
                (replicate (cap - n) Raw) s Hj Hq Ht) as H.
  rewrite length_fmap, Nat.add_0_r in H. cbn [replicate app Nat.add] in H.
  rewrite H.
  - rewrite <- (block_of_split xs cap n) by lia.
    rewrite list_insert_id by by apply block_at_heap. done.
  - rewrite Hb. f_equal. apply block_of_split; lia.
Qed.

Lemma PushBack_with_throw_room k x xs s :
  owns (mem s) (this s) xs → length xs < capacity_ (this s) →
  ctor_throws O k (n_ctor (mem s)) = true →
  ∃ s', PushBack_with O k (Object x) s = Throw ctor_failure s' ∧
        this s' = this s ∧ frame s' = frame s ∧ heap (mem s') = heap (mem s) ∧
        faults (mem s') =
          faults (mem s) ++ [DestroyRaw (ptr_add (vector_ (this s)) (length xs))].
Proof.
  intros (Hsz & Hle & Hfit & Hv) Hroom Ht.
  destruct s as [[p sz cap] fr w]. cbn [this mem frame vector_ size_ capacity_] in *.
  subst sz. unfold PushBack_with. mrun.
  rewrite bool_decide_eq_false_2 by lia. mrun.
  destruct p as [| |b [|?]]; try done; [lia|].
  cbn [ptr_add Nat.add].
  rewrite construct_at_throw by done. mrun. cbn [ptr_add Nat.add].
  erewrite destroy_at_raw; [|done|apply block_of_lookup_raw; lia].
  mrun. eexists. split; [reflexivity|]. done.
Qed.

Lemma PushBack_with_throw_full k x xs s :
  owns (mem s) (this s) xs → length xs = capacity_ (this s) →
  fits (2 * (length xs + 1)) = true →
  alloc_throws O (n_alloc (mem s)) = false →
  quiet O (n_ctor (mem s)) (length xs) →
  ctor_throws O k (n_ctor (mem s) + length xs) = true →
  ∃ s', PushBack_with O k (Object x) s = Throw ctor_failure s' ∧
        this s' = this s ∧ frame s' = frame s ∧
        owns (mem s') (this s') (moved_from <$> xs) ∧
        length (heap (mem s')) = S (length (heap (mem s))) ∧
        heap (mem s') !! length (heap (mem s)) = Some None ∧
        faults (mem s') =
          faults (mem s) ++ [DestroyRaw (Ptr (length (heap (mem s))) (length xs))].
Proof.
  intros (Hsz & Hle & Hfit & Hv) Hfull Hbig Ha Hq Ht.
  destruct s as [[p sz cap] fr w]. cbn [this mem frame vector_ size_ capacity_] in *.
  subst sz cap. unfold PushBack_with. mrun.
  rewrite bool_decide_eq_true_2 by done. mrun.
  set (nc := if bool_decide (length xs = 0) then 1 else size_mul 2 (length xs)).
  assert (Hnc : nc = 1 `max` (2 * length xs)).
  { unfold nc. case_bool_decide as H0; [rewrite H0; done|].
    rewrite size_mul_2 by (eapply fits_le; [|done]; lia). lia. }
  assert (Hfnc : fits nc = true) by (eapply fits_le; [|done]; lia).
  clearbody nc.
  rewrite allocate_ok by (done || (left; lia)). mrun.
  destruct p as [| |b [|?]]; try done.
  - assert (xs = []) as -> by (destruct xs; [done|simpl in *; lia]).
    cbn [length] in *. replace nc with 1 in * by lia.
    unfold uninitialized_move. cbn [range_len ptr_add move_n length]. mrun.
    rewrite Nat.add_0_r in Ht. rewrite construct_at_throw by done. mrun.
    unfold destroy. cbn [ptr_add Nat.add]. rewrite range_len_At' by lia.
    erewrite (destroy_n_raw (length (heap w)) 0 (1 - 0)); [|apply block_at_fresh|].
    2:{ intros k' Hk. assert (k' = 0) as -> by lia. done. }
    mrun.
    erewrite deallocate_ok; [|apply block_at_fresh|done].
    mrun. eexists. split; [reflexivity|]. mrun.
    repeat split; try done.
    + len.
    + by rewrite list_lookup_insert_eq by len.
  - assert (Hb : b < length (heap w)) by by eapply block_at_lt.
    erewrite (uninitialized_move_ok b (length (heap w)) xs (length xs) nc);
      [|lia|done|lia| |apply block_at_fresh].
    2:{ cbn [mem]. unfold block_at. cbn [heap]. rewrite lookup_app_l by done.
        by apply block_at_heap in Hv as ->. }
    mrun.
    rewrite construct_at_throw.
    2:{ cbn [mem n_ctor]. by rewrite Nat.add_0_l, Nat.add_comm. }
    mrun. unfold destroy. cbn [ptr_add]. rewrite range_len_At' by lia.
    rewrite Nat.sub_0_r, destroy_n_add.
    erewrite (destroy_n_ok (length (heap w)) [] xs (replicate (nc - length xs) Raw)).
    2:{ cbn [mem]. unfold block_at. cbn [heap].
        rewrite list_lookup_insert_ne, list_lookup_insert_eq by len. done. }
    cbn [ptr_add length Nat.add app].
    erewrite (destroy_n_raw (length (heap w)) (length xs) 1).
    2:{ cbn [mem set_mem]. rewrite block_at_evolve. cbn [heap].
        rewrite list_lookup_insert_eq by len. done. }
    2:{ intros k' Hk. assert (k' = length xs) as -> by lia. cbn [app].
        rewrite lookup_app_r by (rewrite length_replicate; lia).
        rewrite length_replicate, Nat.sub_diag. apply lookup_replicate_2. lia. }
    mrun.
    erewrite deallocate_ok; [| |].
    2:{ cbn [mem add_faults]. unfold block_at. cbn [heap].
        rewrite list_lookup_insert_eq by len. done. }
    2:{ rewrite length_app, !length_replicate. lia. }
    mrun. eexists. split; [reflexivity|]. mrun. cbn [add_faults heap faults].
    repeat split; try done.
    + by rewrite length_fmap.
    + by rewrite length_fmap.
    + cbn [vector_ capacity_]. unfold block_at. cbn [heap].
      rewrite !(list_lookup_insert_ne _ (length (heap w)) b) by lia.
      rewrite list_lookup_insert_eq by len. done.
    + len.
    + by rewrite list_lookup_insert_eq by len.
Qed.

Lemma Resize_fill_throw_gap n v xs j s :
  owns (mem s) (this s) xs → length xs < n → n ≤ capacity_ (this s) →
  j < n - length xs → quiet O (n_ctor (mem s)) j →
  ctor_throws O CopyCtor (n_ctor (mem s) + j) = true →
  ∃ s' b, vector_ (this s) = Ptr b 0 ∧
          Resize_fill O n (Object v) s = Throw ctor_failure s' ∧
          this s' = this s ∧ frame s' = frame s ∧ heap (mem s') = heap (mem s) ∧
          n_dtor (mem s') = j + n_dtor (mem s) ∧
          faults (mem s') = faults (mem s) ++ raw_destroys b (length xs) (n - length xs).
Proof.
  intros (Hsz & Hle & Hfit & Hv) Hgap Hroom Hj Hq Ht.
  destruct s as [[p sz cap] fr w]. cbn [this mem frame vector_ size_ capacity_] in *.
  subst sz. unfold Resize_fill. mrun.
  rewrite bool_decide_eq_false_2 by lia. mrun.
  rewrite bool_decide_eq_true_2 by lia. mrun.
  destruct p as [| |b [|?]]; try done; [lia|].
  cbn [ptr_add Nat.add]. unfold uninitialized_fill.
  rewrite range_len_At' by lia.
  erewrite (gap_throw CopyCtor v b xs cap n j); [|done..].
  mrun. cbn [ptr_add Nat.add]. unfold destroy. rewrite range_len_At' by lia.
  erewrite (destroy_n_raw b (length xs) (n - length xs)); [|done|].
  2:{ intros k' Hk. apply block_of_lookup_raw; lia. }
  mrun. eexists _, b. split; [done|]. split; [reflexivity|]. done.
Qed.

Lemma Resize_throw_gap n xs j s :
  owns (mem s) (this s) xs → length xs < n → n ≤ capacity_ (this s) →
  j < n - length xs → quiet O (n_ctor (mem s)) j →
  ctor_throws O DefaultCtor (n_ctor (mem s) + j) = true →
  ∃ s' b, vector_ (this s) = Ptr b 0 ∧
          Resize O n s = Throw ctor_failure s' ∧
          this s' = this s ∧ frame s' = frame s ∧ heap (mem s') = heap (mem s) ∧
          n_dtor (mem s') = j + n_dtor (mem s) ∧
          faults (mem s') = faults (mem s) ++ raw_destroys b (length xs) (n - length xs).
Proof.
  intros (Hsz & Hle & Hfit & Hv) Hgap Hroom Hj Hq Ht.
  destruct s as [[p sz cap] fr w]. cbn [this mem frame vector_ size_ capacity_] in *.
  subst sz. unfold Resize. mrun.
  rewrite bool_decide_eq_false_2 by lia. mrun.
  rewrite bool_decide_eq_true_2 by lia. mrun.
  rewrite size_sub_le by (lia || (eapply fits_le; [|done]; lia)).
  destruct p as [| |b [|?]]; try done; [lia|].
  cbn [ptr_add Nat.add]. unfold uninitialized_value_construct_n.
  erewrite (gap_throw DefaultCtor value_init b xs cap n j); [|done..].
  mrun. cbn [ptr_add Nat.add]. unfold destroy. rewrite range_len_At' by lia.
  erewrite (destroy_n_raw b (length xs) (n - length xs)); [|done|].
  2:{ intros k' Hk. apply block_of_lookup_raw; lia. }
  mrun. eexists _, b. split; [done|]. split; [reflexivity|]. done.
Qed.

(** *** Containers of capacity 0 that keep a block *)

Lemma Vector_fill_zero value s :
  alloc_throws O (n_alloc (mem s)) = false → zero_is_null O = false →
  ∃ s', Vector_fill O 0 value s = Ok tt s' ∧
        this s' = {| vector_ := Ptr (length (heap (mem s))) 0; size_ := 0; capacity_ := 0 |} ∧
        Data s' = Ok Null s'.
Proof.
  intros Ha Hz. unfold Vector_fill, new_object, AllocateMemory. mrun.
  rewrite allocate_ok by (done || by right). mrun. cbn [Nat.sub repeat_n]. mrun.
  eexists. split; [reflexivity|]. done.
Qed.

Lemma Vector_range_nil s :
  alloc_throws O (n_alloc (mem s)) = false → zero_is_null O = false →
  ∃ s', Vector_range O [] s = Ok tt s' ∧
        this s' = {| vector_ := Ptr (length (heap (mem s))) 0; size_ := 0; capacity_ := 0 |} ∧
        Data s' = Ok Null s'.
Proof.
  intros Ha Hz. unfold Vector_range, new_object, AllocateMemory. mrun. cbn [length].
  rewrite allocate_ok by (done || by right). mrun. cbn [Nat.sub repeat_n]. mrun.
  eexists. split; [reflexivity|]. done.
Qed.

Lemma ShrinkToFit_emptied s :
  owns (mem s) (this s) [] → 0 < capacity_ (this s) →
  alloc_throws O (n_alloc (mem s)) = false → zero_is_null O = false →
  ∃ s', ShrinkToFit O s = Ok tt s' ∧
        this s' = {| vector_ := Ptr (length (heap (mem s))) 0; size_ := 0; capacity_ := 0 |} ∧
        Data s' = Ok Null s'.
Proof.
  intros (Hsz & Hle & Hfit & Hv) Hcap Ha Hz.
  destruct s as [[p sz cap] fr w]. cbn [this mem frame vector_ size_ capacity_ length] in *.
  subst sz. unfold ShrinkToFit, Reallocate. mrun.
  rewrite bool_decide_eq_true_2 by done. mrun.
  rewrite allocate_ok by (done || by right). mrun.
  destruct p as [| |b [|?]]; try done; [lia|].
  assert (Hb : b < length (heap w)) by by eapply block_at_lt.
  erewrite (uninitialized_move_ok b (length (heap w)) [] cap 0);
    [|lia|intros ?? Hj; cbn [length] in Hj; lia|done| |apply block_at_fresh].
  2:{ cbn [mem]. unfold block_at. cbn [heap]. rewrite lookup_app_l by done.
      by apply block_at_heap in Hv as ->. }
  mrun.
  erewrite (DestroyElements_ok b [] cap); [|done|done|cbn [length]; lia|].
  2:{ cbn [mem fmap list_fmap]. unfold block_at. cbn [heap].
      rewrite list_lookup_insert_eq by len. done. }
  mrun.
  erewrite (DeallocateMemory_ok b); [|done| |].
  2:{ cbn [mem]. unfold block_at. cbn [heap]. rewrite list_lookup_insert_eq by len. done. }
  2:{ by rewrite length_replicate. }
  mrun. eexists. split; [reflexivity|]. done.
Qed.

(** Where [allocate(0)] gives a null pointer the two constructors leave the
    member null. *)
Lemma Vector_fill_zero_null value s :
  alloc_throws O (n_alloc (mem s)) = false → zero_is_null O = true →
  ∃ s', Vector_fill O 0 value s = Ok tt s' ∧
        this s' = {| vector_ := Null; size_ := 0; capacity_ := 0 |}.
Proof.
  intros Ha Hz. unfold Vector_fill, new_object, AllocateMemory. mrun.
  rewrite allocate_zero_null by done. mrun. cbn [Nat.sub repeat_n]. mrun.
  eexists. split; [reflexivity|]. done.
Qed.

Lemma Vector_range_nil_null s :
  alloc_throws O (n_alloc (mem s)) = false → zero_is_null O = true →
  ∃ s', Vector_range O [] s = Ok tt s' ∧
        this s' = {| vector_ := Null; size_ := 0; capacity_ := 0 |}.
Proof.
  intros Ha Hz. unfold Vector_range, new_object, AllocateMemory. mrun. cbn [length].
  rewrite allocate_zero_null by done. mrun. cbn [Nat.sub repeat_n]. mrun.
  eexists. split; [reflexivity|]. done.
Qed.

End Proofs.

(** * Properties of the container *)

Section Properties.
Context {T : Type} `{!Element T}.
Implicit Types (s : State (T:=T)) (xs : list T).
Variable O : Oracle.

Lemma do_push_ok c xs s :
  never_throws O → owns (mem s) (this s) xs → fits (2 * (length xs + 1)) = true →
  ∃ s', do_push O c s = Ok tt s' ∧ owns (mem s') (this s') (xs ++ [pushed c]) ∧
        faults (mem s') = faults (mem s).
Proof.
  intros Hn Hown Hfit. destruct c as [x|x]; cbn [do_push pushed].
  - destruct (PushBack_with_ok O CopyCtor x xs s Hn Hown Hfit) as (s' & ? & ? & ? & ? & ?).
    eauto.
  - destruct (PushBack_with_ok O MoveCtor x xs s Hn Hown Hfit) as (s' & ? & ? & ? & ? & ?).
    eauto.
Qed.

Lemma push_all_ok cs xs s :
  never_throws O → owns (mem s) (this s) xs →
  fits (2 * (length xs + length cs)) = true →
  ∃ s', push_all O cs s = Ok tt s' ∧
        owns (mem s') (this s') (xs ++ (pushed <$> cs)) ∧
        faults (mem s') = faults (mem s).
Proof.
  intros Hn. revert xs s. induction cs as [|c cs IH]; intros xs s Hown Hfit.
  - exists s. rewrite app_nil_r. done.
  - cbn [push_all length] in *. rewrite bind_eq.
    destruct (do_push_ok c xs s Hn Hown) as (s1 & -> & Hown1 & Hf1).
    { eapply fits_le; [|done]. lia. }
    destruct (IH (xs ++ [pushed c]) s1 Hown1) as (s' & E & Hown' & Hf').
    { rewrite length_app. cbn [length]. eapply fits_le; [|done]. lia. }
    exists s'. rewrite fmap_cons, cons_middle, app_assoc. split; [done|]. split; [done|].
    congruence.
Qed.

Lemma Vector_default_owns s :
  ∃ s', Vector_default s = Ok tt s' ∧ owns (mem s') (this s') [] ∧ mem s' = mem s ∧
        this s' = moved_out.
Proof. eexists. split; [reflexivity|]. by repeat split. Qed.

(** C5: a [PushBack] that returns normally on a container with
    [size == capacity] leaves the capacity at [max(1, 2 * capacity)], and
    one on a container with [size < capacity] leaves the capacity as it
    was; three pushes into a default-constructed container take the
    capacity through 1, 2 and 4. *)
Theorem PushBack_doubles_capacity :
  (∀ k (value : Reference T) s s',
     fits (capacity_ (this s)) = true →
     PushBack_with O k value s = Ok tt s' →
     capacity_ (this s') =
       if bool_decide (size_ (this s) = capacity_ (this s))
       then 1 `max` (2 * capacity_ (this s)) else capacity_ (this s)) ∧
  (never_throws O →
   ∀ c1 c2 c3 s, ∃ s0 s1 s2 s3,
     Vector_default s = Ok tt s0 ∧ do_push O c1 s0 = Ok tt s1 ∧
     do_push O c2 s1 = Ok tt s2 ∧ do_push O c3 s2 = Ok tt s3 ∧
     capacity_ (this s0) = 0 ∧ capacity_ (this s1) = 1 ∧
     capacity_ (this s2) = 2 ∧ capacity_ (this s3) = 4).
Proof.
  split; [intros k value s s'; apply PushBack_with_capacity|].
  intros Hn c1 c2 c3 s.
  assert (Hstep : ∀ c xs s, owns (mem s) (this s) xs →
            fits (2 * (length xs + 1)) = true →
            ∃ s', do_push O c s = Ok tt s' ∧ owns (mem s') (this s') (xs ++ [pushed c]) ∧
                  capacity_ (this s') =
                    if bool_decide (length xs = capacity_ (this s))
                    then 1 `max` (2 * capacity_ (this s)) else capacity_ (this s)).
  { intros c xs s1 Hown Hfit. destruct c as [x|x]; cbn [do_push pushed].
    - destruct (PushBack_with_ok O CopyCtor x xs s1 Hn Hown Hfit)
        as (s' & ? & ? & ? & ? & ?). eauto.
    - destruct (PushBack_with_ok O MoveCtor x xs s1 Hn Hown Hfit)
        as (s' & ? & ? & ? & ? & ?). eauto. }
  destruct (Vector_default_owns s) as (s0 & E0 & Hown0 & _ & Hthis0).
  destruct (Hstep c1 [] s0 Hown0 eq_refl) as (s1 & E1 & Hown1 & Hc1).
  destruct (Hstep c2 _ s1 Hown1 eq_refl) as (s2 & E2 & Hown2 & Hc2).
  destruct (Hstep c3 _ s2 Hown2 eq_refl) as (s3 & E3 & Hown3 & Hc3).
  exists s0, s1, s2, s3. rewrite Hthis0 in Hc1. cbn in Hc1.
  rewrite Hc1 in Hc2. cbn in Hc2. rewrite Hc2 in Hc3. cbn in Hc3.
  rewrite Hthis0. done.
Qed.

(** C9: [At(i)] throws [std::out_of_range] exactly when [i >= Size()];
    when [i < Size()] it returns the reference to the element at index
    [i]; either way the container and its storage are as before.  So
    [At(10)] throws on a container of three elements. *)
Theorem At_checked (i : nat) (s : State) :
  final (At i s) = s ∧
  (At i s = Throw out_of_range s ↔ size_ (this s) ≤ i) ∧
  (i < size_ (this s) →
   At i s = Ok (ptr_add (vector_ (this s)) i) s ∧
   ∀ xs, owns (mem s) (this s) xs →
         ∃ x, xs !! i = Some x ∧ deref s (ptr_add (vector_ (this s)) i) = Some x) ∧
  (size_ (this s) = 3 → At 10 s = Throw out_of_range s).
Proof.
  unfold At. mrun. split; [|split; [|split]].
  - by case_bool_decide.
  - case_bool_decide; [done|]. split; [done|lia].
  - intros Hi. rewrite bool_decide_eq_false_2 by lia. split; [done|].
    intros xs Hown. destruct (lookup_lt_is_Some_2 xs i) as [x Hx].
    { destruct Hown as (<- & _). lia. }
    exists x. split; [done|]. by eapply owns_element.
  - intros ->. done.
Qed.

(** C10: [Empty()] is true exactly when [Size()] is 0; it is true of a
    default-constructed container, of a container that was moved from, by
    construction or by assignment, and of a container after [Clear()],
    whose capacity [Clear()] leaves as it was. *)
Theorem Empty_iff_Size_zero (s : State) :
  (∃ e n, Empty s = Ok e s ∧ Size s = Ok n s ∧ (e = true ↔ n = 0)) ∧
  (∃ s', (Vector_default;; Empty) s = Ok true s') ∧
  (∀ v, ∃ s', (v' ← Vector_move v; r ← on_object v' Empty; mret r.1) s = Ok true s') ∧
  (∀ v, ∃ s', (o ← assign_move O (Other v);
               match o with
               | Other v' => r ← on_object v' Empty; mret r.1
               | Self => Empty
               end) s = Ok true s') ∧
  (∃ s', (Clear;; Empty) s = Ok true s' ∧ capacity_ (this s') = capacity_ (this s)).
Proof.
  split; [|split; [|split; [|split]]].
  - exists (bool_decide (size_ (this s) = 0)), (size_ (this s)).
    split; [done|]. split; [done|]. apply bool_decide_eq_true.
  - by eexists.
  - intros v. rewrite bind_eq, Vector_move_ok. by eexists.
  - intros v. rewrite bind_eq. unfold assign_move. mrun.
    destruct (DestroyElements_quiet (size_ (this s)) s) as (w1 & -> & _).
    destruct (DeallocateMemory_quiet O (set_mem w1 s)) as (w2 & p & -> & _).
    by eexists.
  - unfold Clear. mrun.
    destruct (DestroyElements_quiet (size_ (this s)) s) as (w1 & -> & _).
    by eexists.
Qed.

(** C8: moving from a container, by construction or by assignment to
    another container, leaves the source with size 0, capacity 0 and null
    storage, and the destination with the source's storage, hence its
    elements in order and its capacity; no allocation and no element
    construction takes place, and the operation does not throw in any
    state. *)
Theorem move_leaves_source_empty (v : Vector) (xs : list T) (s : State) :
  owns (mem s) v xs →
  (∃ s', Vector_move v s =
           Ok {| vector_ := Null; size_ := 0; capacity_ := 0 |} s' ∧
         this s' = v ∧ owns (mem s') (this s') xs ∧ mem s' = mem s) ∧
  (∀ ys, owns (mem s) (this s) ys →
         (∀ b, vector_ (this s) = Ptr b 0 → vector_ v ≠ Ptr b 0) →
         ∃ s', assign_move O (Other v) s =
                 Ok (Other {| vector_ := Null; size_ := 0; capacity_ := 0 |}) s' ∧
               this s' = v ∧ owns (mem s') (this s') xs ∧
               n_alloc (mem s') = n_alloc (mem s) ∧ n_ctor (mem s') = n_ctor (mem s) ∧
               faults (mem s') = faults (mem s)) ∧
  (∀ o s0, ∃ o' s', assign_move O o s0 = Ok o' s' ∧
                    n_alloc (mem s') = n_alloc (mem s0) ∧
                    n_ctor (mem s') = n_ctor (mem s0)).
Proof.
  intros Hown. split; [|split].
  - exists (set_this v s). by rewrite Vector_move_ok.
  - intros ys Hthis Hdis.
    destruct (assign_move_ok O v xs ys s Hthis Hown Hdis)
      as (s' & E & ? & ? & ? & ? & ? & ? & ?).
    exists s'. by rewrite E.
  - intros o s0. apply (assign_move_total O).
Qed.

(** C7: the copy constructor gives a container with the capacity and the
    size of the source and with copies of its elements in index order, in
    a block that is not the source's, and leaves the source as it was; when
    the copy of
    one of the elements throws, the copies built so far are destroyed, the
    new block is released, the exception goes on to the caller and the
    source is as it was. *)
Theorem copy_construction (other : Vector) (xs : list T) (s : State) :
  owns (mem s) other xs →
  (never_throws O →
   ∃ s', Vector_copy O other s = Ok tt s' ∧
         capacity_ (this s') = capacity_ other ∧ size_ (this s') = size_ other ∧
         owns (mem s') (this s') xs ∧ owns (mem s') other xs ∧
         (∀ b off, vector_ (this s') = Ptr b off → vector_ other ≠ Ptr b off) ∧
         faults (mem s') = faults (mem s)) ∧
  (∀ j, j < length xs →
        alloc_throws O (n_alloc (mem s)) = false →
        quiet O (n_ctor (mem s)) j →
        ctor_throws O CopyCtor (n_ctor (mem s) + j) = true →
        ∃ s', Vector_copy O other s = Throw ctor_failure s' ∧
              owns (mem s') other xs ∧
              heap (mem s') = heap (mem s) ++ [None] ∧
              n_dtor (mem s') = j + n_dtor (mem s) ∧
              faults (mem s') = faults (mem s)).
Proof.
  intros Hown. split.
  - intros Hn. destruct (Vector_copy_ok O other xs s Hn Hown)
      as (s' & E & Hsz & Hcap & Hfresh & Hown' & Hother & _ & Hf).
    exists s'. do 5 (split; [done|]). split; [|done].
    intros b off Hb Heq. destruct (Hfresh b off Hb) as [-> ->].
    pose proof (owns_fresh _ _ _ _ Hown Heq). lia.
  - intros j Hj Ha Hq Ht.
    destruct (Vector_copy_throw O other xs j s Hown Hj Ha Hq Ht)
      as (s' & E & ? & ? & ? & ? & ? & ?).
    by exists s'.
Qed.

End Properties.

(** ** The samples, evaluated *)

Example three_sevens_state :
  three_sevens =
  {| this := {| vector_ := Ptr 0 0; size_ := 3; capacity_ := 3 |};
     frame := {| new_vector_end := Wild; local_i := 0 |};
     mem := {| heap := [Some [Live 7; Live 7; Live 7]%Z];
               n_alloc := 1; n_ctor := 3; n_dtor := 0; faults := [] |} |}.
Proof. vm_compute. reflexivity. Qed.

Example two_sevens_cap4_state :
  two_sevens_cap4 =
  {| this := {| vector_ := Ptr 1 0; size_ := 2; capacity_ := 4 |};
     frame := {| new_vector_end := Wild; local_i := 0 |};
     mem := {| heap := [None; Some [Live 7%Z; Live 7%Z; Raw; Raw]];
               n_alloc := 2; n_ctor := 4; n_dtor := 2; faults := [] |} |}.
Proof. vm_compute. reflexivity. Qed.

Example one_seven_cap4_state :
  one_seven_cap4 =
  {| this := {| vector_ := Ptr 1 0; size_ := 1; capacity_ := 4 |};
     frame := {| new_vector_end := Wild; local_i := 0 |};
     mem := {| heap := [None; Some [Live 7%Z; Raw; Raw; Raw]];
               n_alloc := 2; n_ctor := 2; n_dtor := 1; faults := [] |} |}.
Proof. vm_compute. reflexivity. Qed.

Example two_buffers_state :
  two_buffers =
  {| this := {| vector_ := Ptr 0 0; size_ := 2; capacity_ := 2 |};
     frame := {| new_vector_end := Wild; local_i := 0 |};
     mem := {| heap := [Some [Live [1; 2]%Z; Live [1; 2]%Z]];
               n_alloc := 1; n_ctor := 2; n_dtor := 0; faults := [] |} |}.
Proof. vm_compute. reflexivity. Qed.

(** [Vector<int> a; a.PushBack(1); a.PushBack(2); a.PushBack(3);] *)
Example push_1_2_3 :
  (Vector_default;; PushBack never (Object 1%Z);; PushBack_rvalue never (Object 2%Z);;
   PushBack never (Object 3%Z)) boot =
  Ok tt {| this := {| vector_ := Ptr 2 0; size_ := 3; capacity_ := 4 |};
           frame := {| new_vector_end := Wild; local_i := 0 |};
           mem := {| heap := [None; None; Some [Live 1%Z; Live 2%Z; Live 3%Z; Raw]];
                     n_alloc := 3; n_ctor := 6; n_dtor := 3; faults := [] |} |}.
Proof. vm_compute. reflexivity. Qed.

(** [Vector<int> a(3, 7); a.Resize(5, 9); a.Resize(2);] *)
Example resize_5_then_2 :
  (Vector_fill never 3 7%Z;; Resize_fill never 5 (Object 9%Z)) boot =
  Ok tt {| this := {| vector_ := Ptr 1 0; size_ := 5; capacity_ := 5 |};
           frame := {| new_vector_end := Wild; local_i := 0 |};
           mem := {| heap := [None; Some [Live 7; Live 7; Live 7; Live 9; Live 9]%Z];
                     n_alloc := 2; n_ctor := 8; n_dtor := 3; faults := [] |} |} ∧
  (Vector_fill never 3 7%Z;; Resize_fill never 5 (Object 9%Z);; Resize never 2) boot =
  Ok tt {| this := {| vector_ := Ptr 1 0; size_ := 2; capacity_ := 5 |};
           frame := {| new_vector_end := Wild; local_i := 0 |};
           mem := {| heap := [None; Some [Live 7%Z; Live 7%Z; Raw; Raw; Raw]];
                     n_alloc := 2; n_ctor := 8; n_dtor := 6; faults := [] |} |}.
Proof. split; vm_compute; reflexivity. Qed.

(** [PopBack] and a [Reserve] that has nothing to do. *)
Example pop_and_reserve :
  element (final (PopBack three_sevens)) 2 = None ∧
  size_ (this (final (PopBack three_sevens))) = 2 ∧
  capacity_ (this (final (PopBack three_sevens))) = 3 ∧
  Reserve never 2 three_sevens = Ok tt three_sevens.
Proof. repeat split; vm_compute; reflexivity. Qed.

Lemma PushBack_doubles_capacity_witness :
  fits (capacity_ (this three_sevens)) = true ∧
  PushBack_with never CopyCtor (Object 9%Z) three_sevens
  = Ok tt (final (PushBack_with never CopyCtor (Object 9%Z) three_sevens)) ∧
  capacity_ (this (final (PushBack_with never CopyCtor (Object 9%Z) three_sevens))) = 6.
Proof.
  assert (H1 : fits (capacity_ (this three_sevens)) = true)
    by (vm_compute; reflexivity).
  assert (H2 : PushBack_with never CopyCtor (Object 9%Z) three_sevens
               = Ok tt (final (PushBack_with never CopyCtor (Object 9%Z) three_sevens)))
    by (vm_compute; reflexivity).
  split; [exact H1|]. split; [exact H2|].
  rewrite (proj1 (PushBack_doubles_capacity never) CopyCtor (Object 9%Z) three_sevens _ H1 H2).
  vm_compute. reflexivity.
Defined.

Lemma At_checked_witness :
  2 < size_ (this three_sevens) ∧
  owns (mem three_sevens) (this three_sevens) [7; 7; 7]%Z ∧
  size_ (this three_sevens) = 3 ∧
  At 2 three_sevens = Ok (Ptr 0 2) three_sevens ∧
  (∃ x, [7; 7; 7]%Z !! 2 = Some x ∧ deref three_sevens (Ptr 0 2) = Some x) ∧
  At 10 three_sevens = Throw out_of_range three_sevens.
Proof.
  assert (H : owns (mem three_sevens) (this three_sevens) [7; 7; 7]%Z).
  { split; [vm_compute; reflexivity|]. split; [vm_compute; lia|].
    split; vm_compute; reflexivity. }
  assert (H2 : 2 < size_ (this three_sevens)) by (vm_compute; lia).
  assert (H3 : size_ (this three_sevens) = 3) by (vm_compute; reflexivity).
  pose proof (At_checked 2 three_sevens) as (_ & _ & Hin & _).
  pose proof (At_checked 10 three_sevens) as (_ & _ & _ & Hout).
  destruct (Hin H2) as [Hok Hel].
  split; [exact H2|]. split; [exact H|]. split; [exact H3|].
  split; [exact Hok|]. split; [exact (Hel _ H)|exact (Hout H3)].
Defined.

Lemma move_leaves_source_empty_witness :
  owns (mem seven_seven_eight) (this three_sevens) [7; 7; 7]%Z ∧
  owns (mem seven_seven_eight) (this seven_seven_eight) [7; 7; 8]%Z ∧
  (∀ b, vector_ (this seven_seven_eight) = Ptr b 0 →
        vector_ (this three_sevens) ≠ Ptr b 0) ∧
  (∃ s', Vector_move (this three_sevens) seven_seven_eight =
           Ok {| vector_ := Null; size_ := 0; capacity_ := 0 |} s' ∧
         this s' = this three_sevens ∧ owns (mem s') (this s') [7; 7; 7]%Z ∧
         mem s' = mem seven_seven_eight) ∧
  (∃ s', assign_move never (Other (this three_sevens)) seven_seven_eight =
           Ok (Other {| vector_ := Null; size_ := 0; capacity_ := 0 |}) s' ∧
         this s' = this three_sevens ∧ owns (mem s') (this s') [7; 7; 7]%Z ∧
         n_alloc (mem s') = n_alloc (mem seven_seven_eight) ∧
         n_ctor (mem s') = n_ctor (mem seven_seven_eight) ∧
         faults (mem s') = faults (mem seven_seven_eight)).
Proof.
  assert (H : owns (mem seven_seven_eight) (this three_sevens) [7; 7; 7]%Z).
  { split; [vm_compute; reflexivity|]. split; [vm_compute; lia|].
    split; vm_compute; reflexivity. }
  assert (H' : owns (mem seven_seven_eight) (this seven_seven_eight) [7; 7; 8]%Z).
  { split; [vm_compute; reflexivity|]. split; [vm_compute; lia|].
    split; vm_compute; reflexivity. }
  assert (Hd : ∀ b, vector_ (this seven_seven_eight) = Ptr b 0 →
                    vector_ (this three_sevens) ≠ Ptr b 0).
  { intros b Hb. vm_compute in Hb. injection Hb as <-. vm_compute. discriminate. }
  split; [exact H|]. split; [exact H'|]. split; [exact Hd|].
  pose proof (move_leaves_source_empty never (this three_sevens) [7; 7; 7]%Z
                seven_seven_eight H) as (Hc & Ha & _).
  split; [exact Hc|exact (Ha _ H' Hd)].
Defined.

Lemma copy_construction_witness :
  owns (mem two_sevens_cap4) (this two_sevens_cap4) [7; 7]%Z ∧
  (∃ s', Vector_copy never (this two_sevens_cap4) two_sevens_cap4 = Ok tt s' ∧
         capacity_ (this s') = 4 ∧ size_ (this s') = 2 ∧
         owns (mem s') (this s') [7; 7]%Z ∧
         owns (mem s') (this two_sevens_cap4) [7; 7]%Z ∧
         (∀ b off, vector_ (this s') = Ptr b off → Ptr 1 0 ≠ Ptr b off) ∧
         faults (mem s') = []) ∧
  (∃ s', Vector_copy (ctor_fails_at CopyCtor 5) (this two_sevens_cap4) two_sevens_cap4
         = Throw ctor_failure s' ∧
         owns (mem s') (this two_sevens_cap4) [7; 7]%Z ∧
         heap (mem s') = heap (mem two_sevens_cap4) ++ [None] ∧
         n_dtor (mem s') = 1 + n_dtor (mem two_sevens_cap4) ∧
         faults (mem s') = []).
Proof.
  assert (H : owns (mem two_sevens_cap4) (this two_sevens_cap4) [7; 7]%Z).
  { split; [vm_compute; reflexivity|]. split; [vm_compute; lia|].
    split; vm_compute; reflexivity. }
  split; [exact H|]. split.
  - apply (proj1 (copy_construction never (this two_sevens_cap4) [7; 7]%Z
                    two_sevens_cap4 H)).
    by split.
  - apply (proj2 (copy_construction (ctor_fails_at CopyCtor 5) (this two_sevens_cap4)
                    [7; 7]%Z two_sevens_cap4 H) 1).
    + vm_compute. lia.
    + reflexivity.
    + intros k j Hj. assert (j = 0) as -> by lia. by destruct k.
    + reflexivity.
Defined.

(** ** Where the rollback paths go wrong *)

(** C2: a [PushBack] whose construction of the new element throws is meant
    to leave the container as it was and to run no destructor on a slot
    whose construction did not complete.  The code runs one, for every
    element type and every container.  With room left the handler calls
    [std::destroy_at] on slot [size_], the slot whose construction threw.
    With a full container the handler destroys
    [[new_vector, new_vector_end + 1)], one slot beyond the elements moved
    into the new block, and the elements of the container have been moved
    from by then.  The members are as before and the new block is
    released.  At the samples: [{7,7}] of capacity 4 gets slot 2 destroyed,
    [{7,7,7}] of capacity 3 gets slot 3 of the new block destroyed, and
    two buffers [{1,2}] are left empty. *)
Theorem PushBack_failure_destroys_unbuilt_slot :
  (∀ (T : Type) (E : Element T) (O : Oracle) (k : ctor_kind) (x : T) (xs : list T)
     (s : State (T:=T)),
     owns (mem s) (this s) xs →
     (length xs < capacity_ (this s) →
      ctor_throws O k (n_ctor (mem s)) = true →
      ∃ s', PushBack_with O k (Object x) s = Throw ctor_failure s' ∧
            this s' = this s ∧ heap (mem s') = heap (mem s) ∧
            faults (mem s') =
              faults (mem s) ++ [DestroyRaw (ptr_add (vector_ (this s)) (length xs))]) ∧
     (length xs = capacity_ (this s) →
      fits (2 * (length xs + 1)) = true →
      alloc_throws O (n_alloc (mem s)) = false →
      quiet O (n_ctor (mem s)) (length xs) →
      ctor_throws O k (n_ctor (mem s) + length xs) = true →
      ∃ s', PushBack_with O k (Object x) s = Throw ctor_failure s' ∧
            this s' = this s ∧
            owns (mem s') (this s') (moved_from <$> xs) ∧
            heap (mem s') !! length (heap (mem s)) = Some None ∧
            faults (mem s') =
              faults (mem s) ++ [DestroyRaw (Ptr (length (heap (mem s))) (length xs))])) ∧
  (∃ s', PushBack (ctor_fails_at CopyCtor 4) (Object 9%Z) two_sevens_cap4 = Throw ctor_failure s' ∧
         this s' = this two_sevens_cap4 ∧
         heap (mem s') = heap (mem two_sevens_cap4) ∧
         faults (mem two_sevens_cap4) = [] ∧
         faults (mem s') = [DestroyRaw (Ptr 1 2)]) ∧
  (∃ s', PushBack (ctor_fails_at CopyCtor 6) (Object 9%Z) three_sevens = Throw ctor_failure s' ∧
         this s' = this three_sevens ∧
         heap (mem s') = heap (mem three_sevens) ++ [None] ∧
         faults (mem three_sevens) = [] ∧
         faults (mem s') = [DestroyRaw (Ptr 1 3)]) ∧
  (∃ s', PushBack_rvalue (ctor_fails_at MoveCtor 6) (Object 9%Z) three_sevens
         = Throw ctor_failure s' ∧
         faults (mem s') = [DestroyRaw (Ptr 1 3)]) ∧
  (∃ s', PushBack (ctor_fails_at CopyCtor 4) (Object [9]%Z) two_buffers = Throw ctor_failure s' ∧
         this s' = this two_buffers ∧
         element two_buffers 0 = Some [1; 2]%Z ∧ element two_buffers 1 = Some [1; 2]%Z ∧
         element s' 0 = Some [] ∧ element s' 1 = Some []).
Proof.
  split.
  - intros T E O k x xs s Hown. split.
    + intros Hroom Ht.
      destruct (PushBack_with_throw_room O k x xs s Hown Hroom Ht)
        as (s' & ? & ? & ? & ? & ?). by exists s'.
    + intros Hfull Hfit Ha Hq Ht.
      destruct (PushBack_with_throw_full O k x xs s Hown Hfull Hfit Ha Hq Ht)
        as (s' & ? & ? & ? & ? & ? & ? & ?). by exists s'.
  - repeat split; eexists; vm_compute; repeat split; reflexivity.
Qed.

Lemma PushBack_failure_destroys_unbuilt_slot_witness :
  owns (mem two_sevens_cap4) (this two_sevens_cap4) [7; 7]%Z ∧
  length [7; 7]%Z < capacity_ (this two_sevens_cap4) ∧
  ctor_throws (ctor_fails_at CopyCtor 4) CopyCtor (n_ctor (mem two_sevens_cap4)) = true ∧
  ∃ s', PushBack_with (ctor_fails_at CopyCtor 4) CopyCtor (Object 9%Z) two_sevens_cap4
        = Throw ctor_failure s' ∧
        this s' = this two_sevens_cap4 ∧
        heap (mem s') = heap (mem two_sevens_cap4) ∧
        faults (mem s') =
          faults (mem two_sevens_cap4)
          ++ [DestroyRaw (ptr_add (vector_ (this two_sevens_cap4)) (length [7; 7]%Z))].
Proof.
  assert (H : owns (mem two_sevens_cap4) (this two_sevens_cap4) [7; 7]%Z).
  { split; [vm_compute; reflexivity|]. split; [vm_compute; lia|].
    split; vm_compute; reflexivity. }
  assert (H1 : length [7; 7]%Z < capacity_ (this two_sevens_cap4)) by (vm_compute; lia).
  assert (H2 : ctor_throws (ctor_fails_at CopyCtor 4) CopyCtor
                 (n_ctor (mem two_sevens_cap4)) = true) by (vm_compute; reflexivity).
  split; [exact H|]. split; [exact H1|]. split; [exact H2|].
  exact (proj1 (proj1 PushBack_failure_destroys_unbuilt_slot Z _
                  (ctor_fails_at CopyCtor 4) CopyCtor 9%Z [7; 7]%Z two_sevens_cap4 H)
           H1 H2).
Defined.

(** C3: when a construction in the gap [[size, n)] throws, [Resize] is
    meant to destroy the elements it built there, each once, and no
    unconstructed slot.  [std::uninitialized_fill] and
    [std::uninitialized_value_construct_n] have destroyed what they built
    by the time the handler runs, and the handler destroys all of
    [[size, n)] again: every slot of the gap gets a destructor call while
    it holds no object, for every element type and every container.  The
    elements before the gap, the size and the capacity are as before, and
    the exception goes on to the caller.  At the sample, [{7}] of capacity
    4 resized to 4 with the second construction throwing, slot 1 is
    destroyed a second time and slots 2 and 3, never constructed, are
    destroyed as well. *)
Theorem Resize_failure_destroys_gap_twice :
  (∀ (T : Type) (E : Element T) (O : Oracle) (n : nat) (v : T) (xs : list T) (j : nat)
     (s : State (T:=T)),
     owns (mem s) (this s) xs → length xs < n → n ≤ capacity_ (this s) →
     j < n - length xs → quiet O (n_ctor (mem s)) j →
     (ctor_throws O CopyCtor (n_ctor (mem s) + j) = true →
      ∃ s' b, vector_ (this s) = Ptr b 0 ∧
              Resize_fill O n (Object v) s = Throw ctor_failure s' ∧
              this s' = this s ∧ heap (mem s') = heap (mem s) ∧
              n_dtor (mem s') = j + n_dtor (mem s) ∧
              faults (mem s') =
                faults (mem s) ++ raw_destroys b (length xs) (n - length xs)) ∧
     (ctor_throws O DefaultCtor (n_ctor (mem s) + j) = true →
      ∃ s' b, vector_ (this s) = Ptr b 0 ∧
              Resize O n s = Throw ctor_failure s' ∧
              this s' = this s ∧ heap (mem s') = heap (mem s) ∧
              n_dtor (mem s') = j + n_dtor (mem s) ∧
              faults (mem s') =
                faults (mem s) ++ raw_destroys b (length xs) (n - length xs))) ∧
  (∃ s', Resize_fill (ctor_fails_at CopyCtor 3) 4 (Object 9%Z) one_seven_cap4
         = Throw ctor_failure s' ∧
         this s' = this one_seven_cap4 ∧
         heap (mem s') = heap (mem one_seven_cap4) ∧
         n_dtor (mem s') = 1 + n_dtor (mem one_seven_cap4) ∧
         faults (mem one_seven_cap4) = [] ∧
         faults (mem s') = [DestroyRaw (Ptr 1 1); DestroyRaw (Ptr 1 2); DestroyRaw (Ptr 1 3)]) ∧
  (∃ s', Resize (ctor_fails_at DefaultCtor 3) 4 one_seven_cap4
         = Throw ctor_failure s' ∧
         this s' = this one_seven_cap4 ∧
         heap (mem s') = heap (mem one_seven_cap4) ∧
         n_dtor (mem s') = 1 + n_dtor (mem one_seven_cap4) ∧
         faults (mem s') = [DestroyRaw (Ptr 1 1); DestroyRaw (Ptr 1 2); DestroyRaw (Ptr 1 3)]).
Proof.
  split.
  - intros T E O n v xs j s Hown Hgap Hroom Hj Hq. split; intros Ht.
    + destruct (Resize_fill_throw_gap O n v xs j s Hown Hgap Hroom Hj Hq Ht)
        as (s' & b & ? & ? & ? & ? & ? & ? & ?). by exists s', b.
    + destruct (Resize_throw_gap O n xs j s Hown Hgap Hroom Hj Hq Ht)
        as (s' & b & ? & ? & ? & ? & ? & ? & ?). by exists s', b.
  - repeat split; eexists; vm_compute; repeat split; reflexivity.
Qed.

Lemma Resize_failure_destroys_gap_twice_witness :
  owns (mem one_seven_cap4) (this one_seven_cap4) [7]%Z ∧
  length [7]%Z < 4 ∧ 4 ≤ capacity_ (this one_seven_cap4) ∧ 1 < 4 - length [7]%Z ∧
  quiet (ctor_fails_at CopyCtor 3) (n_ctor (mem one_seven_cap4)) 1 ∧
  ctor_throws (ctor_fails_at CopyCtor 3) CopyCtor (n_ctor (mem one_seven_cap4) + 1) = true ∧
  ∃ s' b, vector_ (this one_seven_cap4) = Ptr b 0 ∧
          Resize_fill (ctor_fails_at CopyCtor 3) 4 (Object 9%Z) one_seven_cap4
          = Throw ctor_failure s' ∧
          this s' = this one_seven_cap4 ∧
          heap (mem s') = heap (mem one_seven_cap4) ∧
          n_dtor (mem s') = 1 + n_dtor (mem one_seven_cap4) ∧
          faults (mem s') =
            faults (mem one_seven_cap4) ++ raw_destroys b (length [7]%Z) (4 - length [7]%Z).
Proof.
  assert (H : owns (mem one_seven_cap4) (this one_seven_cap4) [7]%Z).
  { split; [vm_compute; reflexivity|]. split; [vm_compute; lia|].
    split; vm_compute; reflexivity. }
  assert (H1 : length [7]%Z < 4) by (vm_compute; lia).
  assert (H2 : 4 ≤ capacity_ (this one_seven_cap4)) by (vm_compute; lia).
  assert (H3 : 1 < 4 - length [7]%Z) by (vm_compute; lia).
  assert (H4 : quiet (ctor_fails_at CopyCtor 3) (n_ctor (mem one_seven_cap4)) 1).
  { intros k j Hj. assert (j = 0) as -> by lia. destruct k; vm_compute; reflexivity. }
  assert (H5 : ctor_throws (ctor_fails_at CopyCtor 3) CopyCtor
                 (n_ctor (mem one_seven_cap4) + 1) = true) by (vm_compute; reflexivity).
  do 5 (split; [assumption|]). split; [exact H5|].
  exact (proj1 (proj1 Resize_failure_destroys_gap_twice Z _ (ctor_fails_at CopyCtor 3)
                  4 9%Z [7]%Z 1 one_seven_cap4 H H1 H2 H3 H4) H5).
Defined.

(** C6: [vector_ == nullptr] is meant to hold exactly when
    [capacity_ == 0].  Where [allocate(0)] gives a block (libstdc++,
    libc++), [Vector(0, value)], the range constructor on an empty range and
    [ShrinkToFit] on an emptied container of positive capacity all keep
    that block, in every state in which the allocation succeeds: [vector_]
    is not null while [capacity_] is 0.  [Vector(std::size_t)] with count 0
    sets [vector_] to null, and [Data()] answers null in each of these
    states.  Only where [allocate(0)] gives a null pointer do the two
    constructors leave [vector_] null. *)
Theorem zero_capacity_storage_not_null :
  (∀ (T : Type) (E : Element T) (O : Oracle) (s : State (T:=T)),
     alloc_throws O (n_alloc (mem s)) = false → zero_is_null O = false →
     (∀ value, ∃ s', Vector_fill O 0 value s = Ok tt s' ∧
                     this s' = {| vector_ := Ptr (length (heap (mem s))) 0;
                                  size_ := 0; capacity_ := 0 |} ∧
                     Data s' = Ok Null s') ∧
     (∃ s', Vector_range O [] s = Ok tt s' ∧
            this s' = {| vector_ := Ptr (length (heap (mem s))) 0;
                         size_ := 0; capacity_ := 0 |} ∧
            Data s' = Ok Null s') ∧
     (owns (mem s) (this s) [] → 0 < capacity_ (this s) →
      ∃ s', ShrinkToFit O s = Ok tt s' ∧
            this s' = {| vector_ := Ptr (length (heap (mem s))) 0;
                         size_ := 0; capacity_ := 0 |} ∧
            Data s' = Ok Null s')) ∧
  (∀ (T : Type) (E : Element T) (O : Oracle) (s : State (T:=T)),
     alloc_throws O (n_alloc (mem s)) = false → zero_is_null O = true →
     (∀ value, ∃ s', Vector_fill O 0 value s = Ok tt s' ∧
                     this s' = {| vector_ := Null; size_ := 0; capacity_ := 0 |}) ∧
     (∃ s', Vector_range O [] s = Ok tt s' ∧
            this s' = {| vector_ := Null; size_ := 0; capacity_ := 0 |})) ∧
  (∃ s', Vector_fill never 0 7%Z boot = Ok tt s' ∧
         this s' = {| vector_ := Ptr 0 0; size_ := 0; capacity_ := 0 |} ∧
         Data s' = Ok Null s') ∧
  (∃ s', Vector_range never ([] : list Z) boot = Ok tt s' ∧
         this s' = {| vector_ := Ptr 0 0; size_ := 0; capacity_ := 0 |} ∧
         Data s' = Ok Null s') ∧
  (∃ s', (Clear;; ShrinkToFit never) three_sevens = Ok tt s' ∧
         capacity_ (this three_sevens) = 3 ∧
         this s' = {| vector_ := Ptr 1 0; size_ := 0; capacity_ := 0 |} ∧
         Data s' = Ok Null s') ∧
  (∃ s', Vector_sized never 0 (boot (T:=Z)) = Ok tt s' ∧
         this s' = {| vector_ := Null; size_ := 0; capacity_ := 0 |}) ∧
  (∃ s', Vector_fill never_null 0 7%Z boot = Ok tt s' ∧
         this s' = {| vector_ := Null; size_ := 0; capacity_ := 0 |}).
Proof.
  split; [|split].
  - intros T E O s Ha Hz. split; [|split].
    + intros value. by apply Vector_fill_zero.
    + by apply Vector_range_nil.
    + intros Hown Hcap. by apply ShrinkToFit_emptied.
  - intros T E O s Ha Hz. split.
    + intros value. by apply Vector_fill_zero_null.
    + by apply Vector_range_nil_null.
  - repeat split; eexists; vm_compute; repeat split; reflexivity.
Qed.

Lemma zero_capacity_storage_not_null_witness :
  alloc_throws never (n_alloc (mem (boot (T:=Z)))) = false ∧
  zero_is_null never = false ∧
  ∃ s', Vector_fill never 0 7%Z boot = Ok tt s' ∧
        this s' = {| vector_ := Ptr (length (heap (mem (boot (T:=Z))))) 0;
                     size_ := 0; capacity_ := 0 |} ∧
        Data s' = Ok Null s'.
Proof.
  split; [reflexivity|]. split; [reflexivity|].
  exact (proj1 (proj1 zero_capacity_storage_not_null Z _ never boot eq_refl eq_refl) 7%Z).
Defined.

(** * The calls one by one: what each leaves of the heap *)

Section Steps.
Context {T : Type} `{!Element T}.
Implicit Types (s : State (T:=T)) (w : World (T:=T)) (xs : list T).
Implicit Types (h : list (option (list (Slot T)))) (o : option nat).
Variable O : Oracle.

Lemma heap_step_refl h o : heap_step h h o o.
Proof.
  split; [done|]. split; [done|]. split; [|by left].
  intros b Hb [?|?] ?; [lia|done].
Qed.

Lemma heap_step_trans h h' h'' o o' o'' :
  heap_step h h' o o' → heap_step h' h'' o' o'' → heap_step h h'' o o''.
Proof.
  intros (L1 & K1 & F1 & N1) (L2 & K2 & F2 & N2).
  split; [|split; [|split]].
  - lia.
  - intros b Hb Ho. rewrite K2, K1; [done..|lia|].
    intros Ho'. destruct (N1 b Ho'); [done|lia].
  - intros b Hb Hor Ho''.
    destruct (decide (length h' ≤ b)) as [Hge|Hlt]; [apply F2; auto|].
    destruct (decide (o' = Some b)) as [Ho'|Ho']; [apply F2; auto|].
    rewrite K2 by (done || lia). apply F1; [lia|done..].
  - intros b Ho''. destruct (N2 b Ho'') as [Ho'|?]; [|right; lia].
    destruct (N1 b Ho'); auto.
Qed.

Lemma clean_step_refl s xs : owns (mem s) (this s) xs → clean_step s s xs xs.
Proof.
  intros Hown. split; [done|]. do 3 (split; [done|]). apply heap_step_refl.
Qed.

Lemma clean_step_trans s s' s'' xs xs' xs'' :
  clean_step s s' xs xs' → clean_step s' s'' xs' xs'' → clean_step s s'' xs xs''.
Proof.
  intros (_ & Hf1 & Hq1 & Hc1 & Hh1) (Hown & Hf2 & Hq2 & Hc2 & Hh2).
  split; [done|]. split; [congruence|]. split; [congruence|]. split; [lia|].
  by eapply heap_step_trans.
Qed.

Lemma PushBack_with_step k x xs s :
  never_throws O → owns (mem s) (this s) xs → fits (2 * (length xs + 1)) = true →
  ∃ s', PushBack_with O k (Object x) s = Ok tt s' ∧
        clean_step s s' xs (xs ++ [x]) ∧
        capacity_ (this s') =
          (if bool_decide (length xs = capacity_ (this s))
           then 1 `max` (2 * capacity_ (this s)) else capacity_ (this s)) ∧
        n_alloc (mem s') =
          (if bool_decide (length xs = capacity_ (this s)) then 1 else 0)
          + n_alloc (mem s) ∧
        n_ctor (mem s') =
          (if bool_decide (length xs = capacity_ (this s)) then S (length xs) else 1)
          + n_ctor (mem s) ∧
        (length xs < capacity_ (this s) → vector_ (this s') = vector_ (this s)).
Proof.
  intros Hnever (Hsz & Hle & Hfit & Hv) Hbig.
  destruct Hnever as [Ha Hc].
  assert (Hq : ∀ c n, quiet O c n) by (intros c n k' j _; apply Hc).
  destruct s as [[v sz cap] fr w]. cbn [this mem frame vector_ size_ capacity_] in *.
  subst sz. unfold PushBack_with. mrun.
  case_bool_decide as Hfull.
  - (* growth *)
    subst cap. mrun.
    set (nc := if bool_decide (length xs = 0) then 1 else size_mul 2 (length xs)).
    assert (Hnc : nc = 1 `max` (2 * length xs)).
    { unfold nc. case_bool_decide as H0; [rewrite H0; done|].
      rewrite size_mul_2 by (eapply fits_le; [|done]; lia). lia. }
    assert (Hfnc : fits nc = true) by (eapply fits_le; [|done]; lia).
    clearbody nc.
    rewrite allocate_ok by (done || apply Ha || (left; lia)). mrun.
    destruct v as [| |b [|?]]; try done.
    + (* no block yet *)
      assert (xs = []) as -> by (destruct xs; [done|simpl in *; lia]).
      cbn [length] in *. replace nc with 1 in * by lia.
      unfold uninitialized_move. cbn [range_len ptr_add move_n length]. mrun.
      erewrite construct_at_ok; [|apply Hc|apply block_at_fresh|done].
      mrun. unfold DestroyElements, destroy. mrun. cbn [range_len ptr_add destroy_n]. mrun.
      unfold DeallocateMemory. mrun.
      eexists. split; [reflexivity|]. mrun.
      split; [|repeat split; lia].
      unfold clean_step. cbn [this mem frame heap n_ctor n_dtor faults length app].
      split; [|do 2 (split; [done|]); split; [lia|]].
      * unfold owns. cbn [vector_ size_ capacity_].
        rewrite size_add_1 by done. repeat split; try done.
        unfold block_at. cbn [heap]. rewrite list_lookup_insert_eq by len. done.
      * heap_first w.
    + (* relocation *)
      assert (Hb : b < length (heap w)) by by eapply block_at_lt.
      erewrite (uninitialized_move_ok O b (length (heap w)) xs (length xs) nc);
        [|lia|apply Hq|lia| |apply block_at_fresh].
      2:{ cbn [mem]. unfold block_at. cbn [heap]. rewrite lookup_app_l by done.
          by apply block_at_heap in Hv as ->. }
      mrun.
      erewrite construct_at_ok; [|apply Hc| |].
      2:{ cbn [mem]. unfold block_at. cbn [heap].
          rewrite list_lookup_insert_ne, list_lookup_insert_eq by len. done. }
      2:{ unfold block_of. rewrite lookup_app_r by (rewrite length_fmap; lia).
          rewrite length_fmap, Nat.sub_diag. apply lookup_replicate_2. lia. }
      mrun.
      erewrite (DestroyElements_ok b (moved_from <$> xs) (length xs));
        [|done|by rewrite length_fmap|by rewrite length_fmap|].
      2:{ cbn [mem]. unfold block_at. cbn [heap].
          rewrite list_lookup_insert_ne by lia. rewrite list_lookup_insert_eq by len. done. }
      mrun.
      erewrite (DeallocateMemory_ok O b); [|done| |].
      2:{ cbn [mem]. unfold block_at. cbn [heap]. rewrite list_lookup_insert_eq by len. done. }
      2:{ by rewrite length_replicate. }
      mrun. eexists. split; [reflexivity|]. mrun.
      split; [|repeat split; lia].
      unfold clean_step. cbn [this mem frame heap n_ctor n_dtor faults].
      split; [|do 2 (split; [done|]); split; [rewrite length_fmap, length_app; cbn [length]; lia|]].
      * unfold owns. cbn [vector_ size_ capacity_].
        rewrite size_add_1 by (eapply fits_le; [|done]; lia).
        rewrite length_app. cbn [length]. repeat split; try done; try lia.
        unfold block_at. cbn [heap].
        rewrite !(list_lookup_insert_ne _ b) by lia.
        rewrite list_lookup_insert_eq by len. cbn [mjoin option_join].
        by rewrite block_of_snoc by lia.
      * heap_moved w b.
  - (* room left *)
    destruct v as [| |b [|?]]; try done; [lia|].
    mrun. cbn [ptr_add Nat.add].
    erewrite construct_at_ok; [|apply Hc|done|].
    2:{ apply block_of_lookup_raw; lia. }
    mrun. eexists. split; [reflexivity|]. mrun.
    split; [|repeat split; lia || done].
    unfold clean_step. cbn [this mem frame heap n_ctor n_dtor faults].
    split; [|do 2 (split; [done|]); split; [rewrite length_app; cbn [length]; lia|]].
    + unfold owns. cbn [vector_ size_ capacity_].
      rewrite size_add_1 by (eapply fits_le; [|done]; lia).
      rewrite length_app. cbn [length]. repeat split; try done; try lia.
      unfold block_at. cbn [heap].
      rewrite list_lookup_insert_eq by by eapply block_at_lt.
      cbn [mjoin option_join ptr_add plus]. by rewrite block_of_snoc by lia.
    + heap_same b.
Qed.

Lemma Resize_fill_step n v xs s :
  never_throws O → owns (mem s) (this s) xs → fits n = true →
  ∃ s', Resize_fill O n (Object v) s = Ok tt s' ∧
        clean_step s s' xs (take n xs ++ replicate (n - length xs) v) ∧
        capacity_ (this s') = capacity_ (this s) `max` n.
Proof.
  intros Hnever (Hsz & Hle & Hfit & Hv) Hbig.
  destruct Hnever as [Ha Hc].
  assert (Hq : ∀ c n, quiet O c n) by (intros c m k' j _; apply Hc).
  destruct s as [[p sz cap] fr w]. cbn [this mem frame vector_ size_ capacity_] in *.
  subst sz. unfold Resize_fill. mrun.
  case_bool_decide as Hgrow; mrun.
  - (* growth *)
    rewrite take_ge by lia.
    rewrite allocate_ok by (done || apply Ha || (left; lia)). mrun.
    destruct p as [| |b [|?]]; try done.
    + assert (xs = []) as -> by (destruct xs; [done|simpl in *; lia]).
      subst cap. cbn [length] in *.
      unfold uninitialized_move. cbn [range_len ptr_add move_n length Nat.add]. mrun.
      erewrite (uninitialized_fill_ok O (length (heap w)) [] n n);
        [|apply Hq|cbn [length]; lia|lia|rewrite block_of_nil; apply block_at_fresh].
      mrun. unfold DestroyElements, destroy. mrun. cbn [range_len ptr_add destroy_n]. mrun.
      unfold DeallocateMemory. mrun.
      eexists. split; [reflexivity|]. mrun. cbn [length app] in *.
      split; [|lia].
      unfold clean_step. cbn [this mem frame heap n_ctor n_dtor faults length].
      split; [|do 2 (split; [done|]); split; [rewrite length_replicate; lia|]].
      * unfold owns. cbn [vector_ size_ capacity_]. rewrite length_replicate.
        repeat split; try done; try lia.
        unfold block_at. cbn [heap]. rewrite list_lookup_insert_eq by len.
        by rewrite Nat.sub_0_r.
      * heap_first w.
    + assert (Hb : b < length (heap w)) by by eapply block_at_lt.
      erewrite (uninitialized_move_ok O b (length (heap w)) xs cap n);
        [|lia|apply Hq|lia| |apply block_at_fresh].
      2:{ cbn [mem]. unfold block_at. cbn [heap]. rewrite lookup_app_l by done.
          by apply block_at_heap in Hv as ->. }
      mrun. cbn [ptr_add Nat.add].
      erewrite (uninitialized_fill_ok O (length (heap w)) xs n n);
        [|apply Hq|lia|lia|].
      2:{ cbn [mem]. unfold block_at. cbn [heap].
          rewrite list_lookup_insert_ne, list_lookup_insert_eq by len. done. }
      mrun.
      erewrite (DestroyElements_ok b (moved_from <$> xs) cap);
        [|done|by rewrite length_fmap|by rewrite length_fmap|].
      2:{ cbn [mem]. unfold block_at. cbn [heap].
          rewrite list_lookup_insert_ne by lia. rewrite list_lookup_insert_eq by len. done. }
      mrun.
      erewrite (DeallocateMemory_ok O b); [|done| |].
      2:{ cbn [mem]. unfold block_at. cbn [heap]. rewrite list_lookup_insert_eq by len. done. }
      2:{ by rewrite length_replicate. }
      mrun. eexists. split; [reflexivity|]. mrun.
      split; [|lia].
      unfold clean_step. cbn [this mem frame heap n_ctor n_dtor faults].
      split; [|do 2 (split; [done|]); split;
               [rewrite length_fmap, length_app, length_replicate; lia|]].
      * unfold owns. cbn [vector_ size_ capacity_].
        rewrite length_app, length_replicate. repeat split; try done; try lia.
        unfold block_at. cbn [heap].
        rewrite !(list_lookup_insert_ne _ b) by lia.
        rewrite list_lookup_insert_eq by len. done.
      * heap_moved w b.
  - case_bool_decide as Hgap; mrun.
    + (* fill the gap *)
      rewrite take_ge by lia.
      destruct p as [| |b [|?]]; try done; [lia|].
      cbn [ptr_add Nat.add].
      erewrite (uninitialized_fill_ok O b xs cap n); [|apply Hq|lia|lia|done].
      mrun. eexists. split; [reflexivity|]. mrun.
      split; [|lia].
      unfold clean_step. cbn [this mem frame heap n_ctor n_dtor faults].
      split; [|do 2 (split; [done|]); split; [rewrite length_app, length_replicate; lia|]].
      * unfold owns. cbn [vector_ size_ capacity_].
        rewrite length_app, length_replicate. repeat split; try done; try lia.
        unfold block_at. cbn [heap]. rewrite list_lookup_insert_eq by by eapply block_at_lt.
        done.
      * heap_same b.
    + case_bool_decide as Hcut; mrun.
      * (* drop the suffix *)
        replace (n - length xs) with 0 by lia. rewrite app_nil_r.
        destruct p as [| |b [|?]]; try done; [lia|].
        cbn [ptr_add Nat.add].
        erewrite (destroy_suffix_ok b xs cap n); [|lia|lia|done].
        mrun. eexists. split; [reflexivity|]. mrun.
        split; [|lia].
        unfold clean_step. cbn [this mem frame heap n_ctor n_dtor faults].
        split; [|do 2 (split; [done|]); split; [rewrite length_take; lia|]].
        -- unfold owns. cbn [vector_ size_ capacity_].
           rewrite length_take. repeat split; try done; try lia.
           unfold block_at. cbn [heap].
           rewrite list_lookup_insert_eq by by eapply block_at_lt.
           done.
        -- heap_same b.
      * (* nothing to do *)
        assert (n = length xs) as -> by lia.
        rewrite Nat.sub_diag, take_ge, app_nil_r by lia.
        eexists. split; [reflexivity|]. mrun.
        split; [|lia]. by apply clean_step_refl.
Qed.

Lemma Resize_step n xs s :
  never_throws O → owns (mem s) (this s) xs → fits n = true →
  ∃ s', Resize O n s = Ok tt s' ∧
        clean_step s s' xs (take n xs ++ replicate (n - length xs) value_init) ∧
        capacity_ (this s') = capacity_ (this s) `max` n.
Proof.
  intros Hnever (Hsz & Hle & Hfit & Hv) Hbig.
  destruct Hnever as [Ha Hc].
  assert (Hq : ∀ c n, quiet O c n) by (intros c m k' j _; apply Hc).
  destruct s as [[p sz cap] fr w]. cbn [this mem frame vector_ size_ capacity_] in *.
  subst sz. unfold Resize. mrun.
  case_bool_decide as Hgrow; mrun.
  - (* growth *)
    rewrite take_ge by lia.
    rewrite allocate_ok by (done || apply Ha || (left; lia)). mrun.
    destruct p as [| |b [|?]]; try done.
    + assert (xs = []) as -> by (destruct xs; [done|simpl in *; lia]).
      subst cap. cbn [length] in *.
      unfold uninitialized_move. cbn [range_len ptr_add move_n length Nat.add]. mrun.
      rewrite size_sub_le by (done || lia).
      erewrite (uninitialized_value_construct_n_ok O (length (heap w)) [] n n);
        [|apply Hq|cbn [length]; lia|lia|rewrite block_of_nil; apply block_at_fresh].
      mrun. unfold DestroyElements, destroy. mrun. cbn [range_len ptr_add destroy_n]. mrun.
      unfold DeallocateMemory. mrun.
      eexists. split; [reflexivity|]. mrun. cbn [length app] in *.
      split; [|lia].
      unfold clean_step. cbn [this mem frame heap n_ctor n_dtor faults length].
      split; [|do 2 (split; [done|]); split; [rewrite length_replicate; lia|]].
      * unfold owns. cbn [vector_ size_ capacity_]. rewrite length_replicate.
        repeat split; try done; try lia.
        unfold block_at. cbn [heap]. rewrite list_lookup_insert_eq by len.
        by rewrite Nat.sub_0_r.
      * heap_first w.
    + assert (Hb : b < length (heap w)) by by eapply block_at_lt.
      erewrite (uninitialized_move_ok O b (length (heap w)) xs cap n);
        [|lia|apply Hq|lia| |apply block_at_fresh].
      2:{ cbn [mem]. unfold block_at. cbn [heap]. rewrite lookup_app_l by done.
          by apply block_at_heap in Hv as ->. }
      mrun. rewrite size_sub_le by (done || lia).
      erewrite (uninitialized_value_construct_n_ok O (length (heap w)) xs n n);
        [|apply Hq|lia|lia|].
      2:{ cbn [mem]. unfold block_at. cbn [heap].
          rewrite list_lookup_insert_ne, list_lookup_insert_eq by len. done. }
      mrun.
      erewrite (DestroyElements_ok b (moved_from <$> xs) cap);
        [|done|by rewrite length_fmap|by rewrite length_fmap|].
      2:{ cbn [mem]. unfold block_at. cbn [heap].
          rewrite list_lookup_insert_ne by lia. rewrite list_lookup_insert_eq by len. done. }
      mrun.
      erewrite (DeallocateMemory_ok O b); [|done| |].
      2:{ cbn [mem]. unfold block_at. cbn [heap]. rewrite list_lookup_insert_eq by len. done. }
      2:{ by rewrite length_replicate. }
      mrun. eexists. split; [reflexivity|]. mrun.
      split; [|lia].
      unfold clean_step. cbn [this mem frame heap n_ctor n_dtor faults].
      split; [|do 2 (split; [done|]); split;
               [rewrite length_fmap, length_app, length_replicate; lia|]].
      * unfold owns. cbn [vector_ size_ capacity_].
        rewrite length_app, length_replicate. repeat split; try done; try lia.
        unfold block_at. cbn [heap].
        rewrite !(list_lookup_insert_ne _ b) by lia.
        rewrite list_lookup_insert_eq by len. done.
      * heap_moved w b.
  - case_bool_decide as Hgap; mrun.
    + (* construct the gap *)
      rewrite take_ge by lia.
      rewrite size_sub_le by (done || lia).
      destruct p as [| |b [|?]]; try done; [lia|].
      cbn [ptr_add Nat.add].
      erewrite (uninitialized_value_construct_n_ok O b xs cap n); [|apply Hq|lia|lia|done].
      mrun. eexists. split; [reflexivity|]. mrun.
      split; [|lia].
      unfold clean_step. cbn [this mem frame heap n_ctor n_dtor faults].
      split; [|do 2 (split; [done|]); split; [rewrite length_app, length_replicate; lia|]].
      * unfold owns. cbn [vector_ size_ capacity_].
        rewrite length_app, length_replicate. repeat split; try done; try lia.
        unfold block_at. cbn [heap]. rewrite list_lookup_insert_eq by by eapply block_at_lt.
        done.
      * heap_same b.
    + case_bool_decide as Hcut; mrun.
      * (* drop the suffix *)
        replace (n - length xs) with 0 by lia. rewrite app_nil_r.
        destruct p as [| |b [|?]]; try done; [lia|].
        cbn [ptr_add Nat.add].
        erewrite (destroy_suffix_ok b xs cap n); [|lia|lia|done].
        mrun. eexists. split; [reflexivity|]. mrun.
        split; [|lia].
        unfold clean_step. cbn [this mem frame heap n_ctor n_dtor faults].
        split; [|do 2 (split; [done|]); split; [rewrite length_take; lia|]].
        -- unfold owns. cbn [vector_ size_ capacity_].
           rewrite length_take. repeat split; try done; try lia.
           unfold block_at. cbn [heap].
           rewrite list_lookup_insert_eq by by eapply block_at_lt.
           done.
        -- heap_same b.
      * (* nothing to do *)
        assert (n = length xs) as -> by lia.
        rewrite Nat.sub_diag, take_ge, app_nil_r by lia.
        eexists. split; [reflexivity|]. mrun.
        split; [|lia]. by apply clean_step_refl.
Qed.

Lemma Reallocate_step n xs s :
  never_throws O → owns (mem s) (this s) xs → length xs ≤ n → fits n = true →
  ∃ s', Reallocate O n s = Ok tt s' ∧ clean_step s s' xs xs ∧
        capacity_ (this s') = n ∧
        n_alloc (mem s') = 1 + n_alloc (mem s) ∧
        n_ctor (mem s') = length xs + n_ctor (mem s) ∧
        n_dtor (mem s') = length xs + n_dtor (mem s) ∧
        (∀ b, block_index (this s) = Some b → heap (mem s') !! b = Some None).
Proof.
  intros [Ha Hc] (Hsz & Hle & Hfit & Hv) Hn Hfn.
  assert (Hq : ∀ c n, quiet O c n) by (intros c m k' j _; apply Hc).
  destruct s as [[p sz cap] fr w]. cbn [this mem frame vector_ size_ capacity_] in *.
  subst sz. unfold Reallocate.
  destruct (decide (n = 0 ∧ zero_is_null O = true)) as [[-> Hz]|Hnz].
  - (* no block for no elements *)
    assert (xs = []) as -> by (destruct xs; [done|simpl in *; lia]).
    rewrite bind_eq, allocate_zero_null by (done || apply Ha). mrun.
    destruct p as [| |b [|?]]; try done.
    + unfold uninitialized_move. cbn [range_len ptr_add move_n length]. mrun.
      unfold DestroyElements, destroy. mrun. cbn [range_len ptr_add destroy_n]. mrun.
      unfold DeallocateMemory. mrun.
      eexists. split; [reflexivity|]. mrun. split; [|by repeat split].
      unfold clean_step. cbn [this mem frame heap n_ctor n_dtor faults length].
      split; [by repeat split|]. do 2 (split; [done|]). split; [lia|].
      apply heap_step_refl.
    + assert (Hb : b < length (heap w)) by by eapply block_at_lt.
      unfold uninitialized_move. cbn [length ptr_add Nat.add].
      rewrite range_len_At' by done. cbn [Nat.sub move_n]. mrun.
      erewrite (DestroyElements_ok b [] cap); [|done|done|cbn [length]; lia|done].
      mrun.
      erewrite (DeallocateMemory_ok O b); [|done| |].
      2:{ cbn [mem]. unfold block_at. cbn [heap]. rewrite list_lookup_insert_eq by len. done. }
      2:{ by rewrite length_replicate. }
      mrun. eexists. split; [reflexivity|]. mrun.
      split; [|do 4 (split; [done|]); intros b' [= <-]; by rewrite list_lookup_insert_eq by len].
      unfold clean_step. cbn [this mem frame heap n_ctor n_dtor faults length].
      split; [by repeat split|]. do 2 (split; [done|]). split; [lia|].
      unfold heap_step, block_index. cbn [vector_].
      split; [len|]. split; [intros b' ? ?; assert (b' ≠ b) by congruence; by lk|].
      split; [|done].
      intros b' Hb' Hor _. rewrite !length_insert in Hb'.
      assert (b' = b) as -> by (destruct Hor as [?|[= ?]]; [lia|done]).
      by rewrite list_lookup_insert_eq by len.
  - rewrite bind_eq, allocate_ok; [|done|apply Ha|].
    2:{ destruct (zero_is_null O); [left|by right].
        destruct n; [by destruct Hnz|lia]. }
    mrun.
    destruct p as [| |b [|?]]; try done.
    + assert (xs = []) as -> by (destruct xs; [done|simpl in *; lia]).
      unfold uninitialized_move. cbn [range_len ptr_add move_n length]. mrun.
      unfold DestroyElements, destroy. mrun. cbn [range_len ptr_add destroy_n]. mrun.
      unfold DeallocateMemory. mrun.
      eexists. split; [reflexivity|]. mrun. split; [|by repeat split].
      unfold clean_step. cbn [this mem frame heap n_ctor n_dtor faults length].
      split; [|do 2 (split; [done|]); split; [lia|]].
      * unfold owns. cbn [vector_ size_ capacity_ length]. repeat split; try done; try lia.
        unfold block_at. cbn [heap]. rewrite lookup_app_r, Nat.sub_diag by done.
        by rewrite block_of_nil.
      * heap_first w.
    + assert (Hb : b < length (heap w)) by by eapply block_at_lt.
      erewrite (uninitialized_move_ok O b (length (heap w)) xs cap n);
        [|lia|apply Hq|lia| |apply block_at_fresh].
      2:{ cbn [mem]. unfold block_at. cbn [heap]. rewrite lookup_app_l by done.
          by apply block_at_heap in Hv as ->. }
      mrun.
      erewrite (DestroyElements_ok b (moved_from <$> xs) cap);
        [|done|by rewrite length_fmap|by rewrite length_fmap|].
      2:{ cbn [mem]. unfold block_at. cbn [heap]. rewrite list_lookup_insert_eq by len. done. }
      mrun.
      erewrite (DeallocateMemory_ok O b); [|done| |].
      2:{ cbn [mem]. unfold block_at. cbn [heap]. rewrite list_lookup_insert_eq by len. done. }
      2:{ by rewrite length_replicate. }
      mrun. eexists. split; [reflexivity|]. mrun.
      split; [|rewrite length_fmap; do 4 (split; [lia|]); intros b' [= <-];
               by rewrite list_lookup_insert_eq by len].
      unfold clean_step. cbn [this mem frame heap n_ctor n_dtor faults].
      split; [|do 2 (split; [done|]); split; [rewrite length_fmap; lia|]].
      * unfold owns. cbn [vector_ size_ capacity_]. repeat split; try done; try lia.
        unfold block_at. cbn [heap].
        rewrite !(list_lookup_insert_ne _ b) by lia.
        rewrite list_lookup_insert_eq by len. done.
      * heap_moved w b.
Qed.

Lemma Reserve_step n xs s :
  never_throws O → owns (mem s) (this s) xs → fits n = true →
  ∃ s', Reserve O n s = Ok tt s' ∧ clean_step s s' xs xs ∧
        capacity_ (this s') = capacity_ (this s) `max` n ∧
        (n ≤ capacity_ (this s) → s' = s) ∧
        (capacity_ (this s) < n →
         n_alloc (mem s') = 1 + n_alloc (mem s) ∧
         n_ctor (mem s') = length xs + n_ctor (mem s) ∧
         n_dtor (mem s') = length xs + n_dtor (mem s) ∧
         ∀ b, block_index (this s) = Some b → heap (mem s') !! b = Some None).
Proof.
  intros Hn Hown Hfn. unfold Reserve. mrun.
  case_bool_decide as Hgrow.
  - destruct (Reallocate_step n xs s Hn Hown) as (s' & E & Hstep & Hcap & Hrest); [|done|].
    { destruct Hown as (_ & ? & _). lia. }
    exists s'. split; [done|]. split; [done|]. split; [lia|]. split; [lia|done].
  - exists s. split; [done|]. split; [by apply clean_step_refl|]. split; [lia|].
    split; [done|lia].
Qed.

Lemma ShrinkToFit_step xs s :
  never_throws O → owns (mem s) (this s) xs →
  ∃ s', ShrinkToFit O s = Ok tt s' ∧ clean_step s s' xs xs ∧
        capacity_ (this s') = length xs ∧
        (length xs = capacity_ (this s) → s' = s) ∧
        (length xs < capacity_ (this s) →
         n_alloc (mem s') = 1 + n_alloc (mem s) ∧
         n_ctor (mem s') = length xs + n_ctor (mem s) ∧
         n_dtor (mem s') = length xs + n_dtor (mem s) ∧
         ∀ b, block_index (this s) = Some b → heap (mem s') !! b = Some None).
Proof.
  intros Hn Hown. pose proof Hown as (Hsz & Hle & Hfit & _).
  unfold ShrinkToFit. mrun. rewrite Hsz.
  case_bool_decide as Hslack.
  - destruct (Reallocate_step (length xs) xs s Hn Hown) as (s' & E & Hstep & Hcap & Hrest);
      [done|by eapply fits_le|].
    exists s'. mrun. rewrite Hsz. split; [done|]. split; [done|]. split; [done|].
    split; [lia|done].
  - exists s. split; [done|]. split; [by apply clean_step_refl|]. split; [lia|].
    split; [done|lia].
Qed.

Lemma Clear_step xs s :
  owns (mem s) (this s) xs →
  ∃ s', Clear s = Ok tt s' ∧ clean_step s s' xs [] ∧
        capacity_ (this s') = capacity_ (this s) ∧
        vector_ (this s') = vector_ (this s) ∧
        n_alloc (mem s') = n_alloc (mem s) ∧
        n_dtor (mem s') = length xs + n_dtor (mem s) ∧
        n_ctor (mem s') = n_ctor (mem s).
Proof.
  intros (Hsz & Hle & Hfit & Hv).
  destruct s as [[p sz cap] fr w]. cbn [this mem frame vector_ size_ capacity_] in *.
  subst sz. unfold Clear. mrun.
  destruct p as [| |b [|?]]; try done.
  - assert (xs = []) as -> by (destruct xs; [done|simpl in *; lia]).
    unfold DestroyElements, destroy. mrun. cbn [length range_len ptr_add destroy_n]. mrun.
    eexists. split; [reflexivity|]. mrun. split; [|done].
    by apply clean_step_refl.
  - erewrite (DestroyElements_ok b xs cap); [|done..].
    mrun. eexists. split; [reflexivity|]. mrun.
    split; [|repeat split; lia].
    unfold clean_step. cbn [this mem frame heap n_ctor n_dtor faults length].
    split; [|do 2 (split; [done|]); split; [lia|]].
    + unfold owns. cbn [vector_ size_ capacity_ length]. repeat split; try done; try lia.
      unfold block_at. cbn [heap]. rewrite list_lookup_insert_eq by by eapply block_at_lt.
      by rewrite block_of_nil.
    + heap_same b.
Qed.

Lemma destroy_at_range b n s :
  destroy (T:=T) (Ptr b n) (Ptr b (S n)) s = destroy_at (Ptr b n) s.
Proof.
  unfold destroy. rewrite range_len_At' by lia.
  replace (S n - n) with 1 by lia. cbn [destroy_n]. rewrite bind_eq.
  by destruct (destroy_at (Ptr b n) s) as [[] ?|].
Qed.

Lemma PopBack_step xs s :
  owns (mem s) (this s) xs →
  ∃ s', PopBack s = Ok tt s' ∧ clean_step s s' xs (take (length xs - 1) xs) ∧
        capacity_ (this s') = capacity_ (this s) ∧
        vector_ (this s') = vector_ (this s) ∧
        n_alloc (mem s') = n_alloc (mem s) ∧
        n_ctor (mem s') = n_ctor (mem s) ∧
        (xs = [] → s' = s).
Proof.
  intros Hown. pose proof Hown as (Hsz & Hle & Hfit & Hv).
  destruct s as [[p sz cap] fr w]. cbn [this mem frame vector_ size_ capacity_] in *.
  subst sz. unfold PopBack. mrun.
  case_bool_decide as Hne.
  - mrun. rewrite size_sub_le by (lia || by eapply fits_le).
    destruct p as [| |b [|?]]; try done; [lia|].
    cbn [ptr_add Nat.add].
    rewrite <- (destroy_at_range b (length xs - 1)).
    replace (S (length xs - 1)) with (length xs) by lia.
    erewrite (destroy_suffix_ok b xs cap (length xs - 1)); [|lia|lia|done].
    mrun. eexists. split; [reflexivity|]. mrun.
    split; [|repeat split; try done; intros ->; cbn [length] in Hne; lia].
    unfold clean_step. cbn [this mem frame heap n_ctor n_dtor faults].
    split; [|do 2 (split; [done|]); split; [rewrite length_take; lia|]].
    + unfold owns. cbn [vector_ size_ capacity_].
      rewrite length_take. repeat split; try done; try lia.
      unfold block_at. cbn [heap]. rewrite list_lookup_insert_eq by by eapply block_at_lt.
      done.
    + heap_same b.
  - assert (xs = []) as -> by (destruct xs; [done|cbn [length] in Hne; lia]).
    exists {| this := {| vector_ := p; size_ := 0; capacity_ := cap |};
              frame := fr; mem := w |}.
    split; [done|]. split; [by apply clean_step_refl|]. done.
Qed.

(** ** Calls whose argument is an element of the container itself *)

Lemma block_of_alter (f : T → T) xs cap i x :
  xs !! i = Some x →
  <[i := Live (f x)]> (block_of xs cap) = block_of (alter f i xs) cap.
Proof.
  intros Hi. assert (Hlt : i < length xs) by by eapply lookup_lt_Some.
  unfold block_of. rewrite insert_app_l by (by rewrite length_fmap).
  rewrite length_alter. f_equal. apply list_eq. intros j.
  destruct (decide (i = j)) as [<-|Hne].
  - rewrite list_lookup_insert_eq by (by rewrite length_fmap).
    by rewrite list_lookup_fmap, list_lookup_alter_eq, Hi.
  - rewrite list_lookup_insert_ne by done.
    by rewrite !list_lookup_fmap, list_lookup_alter_ne.
Qed.

(** A move within one block. *)
Lemma move_construct_same b i j y s blk :
  i ≠ j → ctor_throws O MoveCtor (n_ctor (mem s)) = false →
  block_at (mem s) b = Some blk → blk !! i = Some (Live y) → blk !! j = Some Raw →
  move_construct O (Ptr b j) (Ptr b i) s =
  Ok tt (set_mem (evolve (<[b := Some (<[i := Live (moved_from y)]> (<[j := Live y]> blk))]>
                            (heap (mem s)))
                         0 1 0 (mem s)) s).
Proof.
  intros Hne Hq Hb Hi Hj. unfold move_construct. rewrite bind_eq. unfold gets.
  cbn [slot_at]. rewrite Hb. cbn [mbind option_bind]. rewrite Hi. rewrite bind_eq.
  erewrite construct_at_ok by done. unfold modify, store. cbn [mem set_mem].
  rewrite block_at_evolve, list_lookup_insert_eq by by eapply block_at_lt.
  cbn [mjoin option_join]. unfold set_block, set_heap, set_mem, evolve.
  cbn [heap n_alloc n_ctor n_dtor faults this frame mem].
  by rewrite list_insert_insert_eq.
Qed.

(** [std::uninitialized_fill] from an object that lies in a slot, of
    another block or of the same one before the range that is filled. *)
Lemma fill_from_ok bs i y first b pre n post s :
  quiet O (n_ctor (mem s)) n →
  block_at (mem s) b = Some (pre ++ replicate n Raw ++ post) →
  slot_at (mem s) (Ptr bs i) = Some (Live y) → (bs = b → i < length pre) →
  construct_n (λ p, copy_construct O p (Ptr bs i)) first (Ptr b (length pre)) n s =
  Ok tt (set_mem (evolve (<[b := Some (pre ++ replicate n (Live y) ++ post)]> (heap (mem s)))
                         0 n 0 (mem s)) s).
Proof.
  revert pre s. induction n as [|n IH]; intros pre s Hq Hb Hsrc Hbefore.
  - cbn [construct_n replicate app]. rewrite list_insert_id by by apply block_at_heap.
    by rewrite evolve_id, set_mem_mem.
  - cbn [construct_n]. rewrite bind_eq. unfold try_catch, copy_construct.
    rewrite bind_eq. unfold gets. rewrite Hsrc.
    erewrite construct_at_ok; [|by eapply quiet_head|done|].
    2:{ rewrite lookup_app_r by lia. by rewrite Nat.sub_diag. }
    cbn [ptr_add].
    replace (Ptr b (length pre + 1)) with (Ptr b (length (pre ++ [Live y])))
      by (rewrite length_app; done).
    assert (Hlt : b < length (heap (mem s))) by by eapply block_at_lt.
    rewrite IH.
    + cbn [mem set_mem heap evolve]. rewrite set_mem_set_mem, list_insert_insert_eq.
      unfold evolve. cbn [heap n_alloc n_ctor n_dtor faults].
      rewrite <- app_assoc. cbn [app replicate]. do 3 f_equal; lia.
    + cbn [mem set_mem evolve n_ctor]. by apply quiet_tail.
    + cbn [mem set_mem]. rewrite block_at_evolve, list_lookup_insert_eq by done.
      cbn [mjoin option_join]. f_equal. rewrite <- (Nat.add_0_r (length pre)) at 1.
      rewrite insert_app_r. cbn [replicate app insert list_insert].
      by rewrite <- app_assoc.
    + cbn [mem set_mem slot_at]. rewrite block_at_evolve.
      cbn [slot_at] in Hsrc. unfold block_at in Hsrc.
      destruct (decide (bs = b)) as [->|Hne].
      * rewrite list_lookup_insert_eq by done. cbn [mjoin option_join mbind option_bind].
        unfold block_at in Hb. rewrite Hb in Hsrc. cbn [mbind option_bind] in Hsrc.
        specialize (Hbefore eq_refl).
        rewrite list_lookup_insert_ne by lia. done.
      * by rewrite list_lookup_insert_ne by done.
    + intros ->. specialize (Hbefore eq_refl). rewrite length_app. cbn [length]. lia.
Qed.

Lemma uninitialized_fill_from_ok bs i y b xs cap n s :
  quiet O (n_ctor (mem s)) (n - length xs) → length xs ≤ n → n ≤ cap →
  block_at (mem s) b = Some (block_of xs cap) →
  slot_at (mem s) (Ptr bs i) = Some (Live y) → (bs = b → i < length xs) →
  uninitialized_fill O (Ptr b (length xs)) (Ptr b n) (Stored (Ptr bs i)) s =
  Ok tt (set_mem (evolve (<[b := Some (block_of (xs ++ replicate (n - length xs) y) cap)]>
                            (heap (mem s)))
                         0 (n - length xs) 0 (mem s)) s).
Proof.
  intros Hq H1 H2 Hb Hsrc Hbefore. unfold uninitialized_fill.
  rewrite range_len_At' by done. cbn [construct_from].
  rewrite <- (length_fmap Live xs) at 1 2.
  rewrite (fill_from_ok bs i y _ b (Live <$> xs) (n - length xs)
             (replicate (cap - n) Raw)); try done.
  - do 5 f_equal. unfold block_of.
    rewrite fmap_app, fmap_replicate, <- app_assoc, length_app, length_replicate.
    do 3 f_equal. lia.
  - by rewrite Hb, (block_of_split xs cap n).
  - by rewrite length_fmap.
Qed.

(** [PushBack(a[i])] and [PushBack(std::move(a[i]))].  With room left the
    new element is built from the element as it is; on a full container
    the elements are moved to the new block first, and the new element is
    built from what the move left behind. *)
Lemma PushBack_own_step k i y xs s :
  k ≠ DefaultCtor →
  never_throws O → owns (mem s) (this s) xs → xs !! i = Some y →
  fits (2 * (length xs + 1)) = true →
  ∃ s', PushBack_with O k (Stored (ptr_add (vector_ (this s)) i)) s = Ok tt s' ∧
        clean_step s s' xs
          (if bool_decide (length xs = capacity_ (this s)) then xs ++ [moved_from y]
           else match k with MoveCtor => alter moved_from i xs | _ => xs end ++ [y]) ∧
        capacity_ (this s') =
          (if bool_decide (length xs = capacity_ (this s))
           then 1 `max` (2 * capacity_ (this s)) else capacity_ (this s)) ∧
        n_alloc (mem s') =
          (if bool_decide (length xs = capacity_ (this s)) then 1 else 0)
          + n_alloc (mem s) ∧
        n_ctor (mem s') =
          (if bool_decide (length xs = capacity_ (this s)) then S (length xs) else 1)
          + n_ctor (mem s) ∧
        (length xs < capacity_ (this s) → vector_ (this s') = vector_ (this s)).
Proof.
  intros Hk Hnever (Hsz & Hle & Hfit & Hv) Hi Hbig.
  destruct Hnever as [Ha Hc].
  assert (Hq : ∀ c n, quiet O c n) by (intros c n k' j _; apply Hc).
  assert (Hlt : i < length xs) by by eapply lookup_lt_Some.
  destruct s as [[v sz cap] fr w]. cbn [this mem frame vector_ size_ capacity_] in *.
  subst sz. destruct v as [| |b [|?]]; try done; [lia|].
  assert (Hb : b < length (heap w)) by by eapply block_at_lt.
  cbn [ptr_add Nat.add]. unfold PushBack_with. mrun.
  case_bool_decide as Hfull.
  - (* growth *)
    subst cap. mrun.
    set (nc := if bool_decide (length xs = 0) then 1 else size_mul 2 (length xs)).
    assert (Hnc : nc = 1 `max` (2 * length xs)).
    { unfold nc. case_bool_decide as H0; [rewrite H0; done|].
      rewrite size_mul_2 by (eapply fits_le; [|done]; lia). lia. }
    assert (Hfnc : fits nc = true) by (eapply fits_le; [|done]; lia).
    clearbody nc.
    rewrite allocate_ok by (done || apply Ha || (left; lia)). mrun.
    erewrite (uninitialized_move_ok O b (length (heap w)) xs (length xs) nc);
      [|lia|apply Hq|lia| |apply block_at_fresh].
    2:{ cbn [mem]. unfold block_at. cbn [heap]. rewrite lookup_app_l by done.
        by apply block_at_heap in Hv as ->. }
    mrun.
    assert (Hold : block_of (moved_from <$> xs) (length xs) !! i
                   = Some (Live (moved_from y))).
    { apply block_of_lookup_live. by rewrite list_lookup_fmap, Hi. }
    assert (Hnew : block_of xs nc !! length xs = Some (Raw (T:=T))).
    { apply block_of_lookup_raw; lia. }
    destruct k; [| |done].
    + (* copy *)
      erewrite (copy_construct_ok O b (length (heap w)) i (length xs)); [|apply Hc| |done| |done].
      2:{ cbn [mem]. unfold block_at. cbn [heap]. rewrite list_lookup_insert_eq by len. done. }
      2:{ cbn [mem]. unfold block_at. cbn [heap].
          rewrite list_lookup_insert_ne, list_lookup_insert_eq by len. done. }
      mrun.
      erewrite (DestroyElements_ok b (moved_from <$> xs) (length xs));
        [|done|by rewrite length_fmap|by rewrite length_fmap|].
      2:{ cbn [mem]. unfold block_at. cbn [heap].
          rewrite list_lookup_insert_ne by lia. rewrite list_lookup_insert_eq by len. done. }
      mrun.
      erewrite (DeallocateMemory_ok O b); [|done| |].
      2:{ cbn [mem]. unfold block_at. cbn [heap]. rewrite list_lookup_insert_eq by len. done. }
      2:{ by rewrite length_replicate. }
      mrun. eexists. split; [reflexivity|]. mrun.
      split; [|repeat split; lia].
      unfold clean_step. cbn [this mem frame heap n_ctor n_dtor faults].
      split; [|do 2 (split; [done|]); split; [rewrite length_fmap, length_app; cbn [length]; lia|]].
      * unfold owns. cbn [vector_ size_ capacity_].
        rewrite size_add_1 by (eapply fits_le; [|done]; lia).
        rewrite length_app. cbn [length]. repeat split; try done; try lia.
        unfold block_at. cbn [heap].
        rewrite !(list_lookup_insert_ne _ b) by lia.
        rewrite list_lookup_insert_eq by len. cbn [mjoin option_join].
        by rewrite block_of_snoc by lia.
      * heap_moved w b.
    + (* move *)
      erewrite (move_construct_ok O b (length (heap w)) i (length xs)); [|lia|apply Hc| |done| |done].
      2:{ cbn [mem]. unfold block_at. cbn [heap]. rewrite list_lookup_insert_eq by len. done. }
      2:{ cbn [mem]. unfold block_at. cbn [heap].
          rewrite list_lookup_insert_ne, list_lookup_insert_eq by len. done. }
      rewrite (block_of_alter moved_from (moved_from <$> xs) (length xs) i (moved_from y))
        by (by rewrite list_lookup_fmap, Hi).
      mrun.
      erewrite (DestroyElements_ok b (alter moved_from i (moved_from <$> xs)) (length xs));
        [|done|by rewrite length_alter, length_fmap
         |by rewrite length_alter, length_fmap|].
      2:{ cbn [mem]. unfold block_at. cbn [heap]. rewrite list_lookup_insert_eq by len. done. }
      mrun.
      erewrite (DeallocateMemory_ok O b); [|done| |].
      2:{ cbn [mem]. unfold block_at. cbn [heap]. rewrite list_lookup_insert_eq by len. done. }
      2:{ by rewrite length_replicate. }
      mrun. eexists. split; [reflexivity|]. mrun.
      split; [|repeat split; lia].
      unfold clean_step. cbn [this mem frame heap n_ctor n_dtor faults].
      split; [|do 2 (split; [done|]);
               split; [rewrite length_alter, length_fmap, length_app; cbn [length]; lia|]].
      * unfold owns. cbn [vector_ size_ capacity_].
        rewrite size_add_1 by (eapply fits_le; [|done]; lia).
        rewrite length_app. cbn [length]. repeat split; try done; try lia.
        unfold block_at. cbn [heap].
        rewrite !(list_lookup_insert_ne _ b) by lia.
        rewrite list_lookup_insert_eq by len. cbn [mjoin option_join].
        by rewrite block_of_snoc by lia.
      * heap_moved w b.
  - (* room left *)
    assert (Hsrc : block_of xs cap !! i = Some (Live y)) by by apply block_of_lookup_live.
    assert (Hdst : block_of xs cap !! length xs = Some (Raw (T:=T)))
      by (apply block_of_lookup_raw; lia).
    destruct k; [| |done]; mrun.
    + erewrite (copy_construct_ok O b b i (length xs)); [|apply Hc|done|done|done|done].
      mrun. eexists. split; [reflexivity|]. mrun.
      split; [|repeat split; lia || done].
      unfold clean_step. cbn [this mem frame heap n_ctor n_dtor faults].
      split; [|do 2 (split; [done|]); split; [rewrite length_app; cbn [length]; lia|]].
      * unfold owns. cbn [vector_ size_ capacity_].
        rewrite size_add_1 by (eapply fits_le; [|done]; lia).
        rewrite length_app. cbn [length]. repeat split; try done; try lia.
        unfold block_at. cbn [heap].
        rewrite list_lookup_insert_eq by done.
        cbn [mjoin option_join ptr_add plus]. by rewrite block_of_snoc by lia.
      * heap_same b.
    + erewrite (move_construct_same b i (length xs)); [|lia|apply Hc|done|done|done].
      rewrite block_of_snoc by lia.
      rewrite (block_of_alter moved_from (xs ++ [y]) cap i y)
        by (by rewrite lookup_app_l).
      rewrite alter_app_l by done.
      mrun. eexists. split; [reflexivity|]. mrun.
      split; [|repeat split; lia || done].
      unfold clean_step. cbn [this mem frame heap n_ctor n_dtor faults].
      split; [|do 2 (split; [done|]);
               split; [rewrite length_app, length_alter; cbn [length]; lia|]].
      * unfold owns. cbn [vector_ size_ capacity_].
        rewrite size_add_1 by (eapply fits_le; [|done]; lia).
        rewrite length_app, length_alter. cbn [length]. repeat split; try done; try lia.
        unfold block_at. cbn [heap].
        by rewrite list_lookup_insert_eq by done.
      * heap_same b.
Qed.

(** [Resize(n, a[i])]: the new slots are filled from the element where it
    lies when they are filled, after the move when the container grows. *)
Lemma Resize_fill_own_step n i y xs s :
  never_throws O → owns (mem s) (this s) xs → xs !! i = Some y → fits n = true →
  ∃ s', Resize_fill O n (Stored (ptr_add (vector_ (this s)) i)) s = Ok tt s' ∧
        clean_step s s' xs
          (take n xs ++ replicate (n - length xs)
                          (if bool_decide (capacity_ (this s) < n) then moved_from y
                           else y)) ∧
        capacity_ (this s') = capacity_ (this s) `max` n ∧
        (n ≤ capacity_ (this s) → vector_ (this s') = vector_ (this s)) ∧
        n_alloc (mem s') = (if bool_decide (capacity_ (this s) < n) then 1 else 0)
                           + n_alloc (mem s) ∧
        n_ctor (mem s') = (if bool_decide (capacity_ (this s) < n) then n
                           else n - length xs) + n_ctor (mem s) ∧
        n_dtor (mem s') = (if bool_decide (capacity_ (this s) < n) then length xs
                           else length xs - n) + n_dtor (mem s).
Proof.
  intros Hnever (Hsz & Hle & Hfit & Hv) Hi Hbig.
  destruct Hnever as [Ha Hc].
  assert (Hq : ∀ c n, quiet O c n) by (intros c m k' j _; apply Hc).
  assert (Hlt : i < length xs) by by eapply lookup_lt_Some.
  destruct s as [[p sz cap] fr w]. cbn [this mem frame vector_ size_ capacity_] in *.
  subst sz. destruct p as [| |b [|?]]; try done; [lia|].
  assert (Hb : b < length (heap w)) by by eapply block_at_lt.
  cbn [ptr_add Nat.add]. unfold Resize_fill. mrun.
  case_bool_decide as Hgrow; mrun.
  - (* growth *)
    rewrite take_ge by lia.
    rewrite allocate_ok by (done || apply Ha || (left; lia)). mrun.
    erewrite (uninitialized_move_ok O b (length (heap w)) xs cap n);
      [|lia|apply Hq|lia| |apply block_at_fresh].
    2:{ cbn [mem]. unfold block_at. cbn [heap]. rewrite lookup_app_l by done.
        by apply block_at_heap in Hv as ->. }
    mrun. cbn [ptr_add Nat.add].
    erewrite (uninitialized_fill_from_ok b i (moved_from y) (length (heap w)) xs n n);
      [|apply Hq|lia|lia| | |intros; lia].
    2:{ cbn [mem]. unfold block_at. cbn [heap].
        rewrite list_lookup_insert_ne, list_lookup_insert_eq by len. done. }
    2:{ cbn [mem slot_at]. unfold block_at. cbn [heap].
        rewrite list_lookup_insert_eq by len. cbn [mjoin option_join mbind option_bind].
        apply block_of_lookup_live. by rewrite list_lookup_fmap, Hi. }
    mrun.
    erewrite (DestroyElements_ok b (moved_from <$> xs) cap);
      [|done|by rewrite length_fmap|by rewrite length_fmap|].
    2:{ cbn [mem]. unfold block_at. cbn [heap].
        rewrite list_lookup_insert_ne by lia. rewrite list_lookup_insert_eq by len. done. }
    mrun.
    erewrite (DeallocateMemory_ok O b); [|done| |].
    2:{ cbn [mem]. unfold block_at. cbn [heap]. rewrite list_lookup_insert_eq by len. done. }
    2:{ by rewrite length_replicate. }
    mrun. eexists. split; [reflexivity|]. mrun.
    split; [|rewrite length_fmap; repeat split; lia].
    unfold clean_step. cbn [this mem frame heap n_ctor n_dtor faults].
    split; [|do 2 (split; [done|]);
             split; [rewrite length_fmap, length_app, length_replicate; lia|]].
    + unfold owns. cbn [vector_ size_ capacity_].
      rewrite length_app, length_replicate. repeat split; try done; try lia.
      unfold block_at. cbn [heap].
      rewrite !(list_lookup_insert_ne _ b) by lia.
      rewrite list_lookup_insert_eq by len. done.
    + heap_moved w b.
  - case_bool_decide as Hgap; mrun.
    + (* fill the gap *)
      rewrite take_ge by lia.
      cbn [ptr_add Nat.add].
      erewrite (uninitialized_fill_from_ok b i y b xs cap n);
        [|apply Hq|lia|lia|done| |done].
      2:{ cbn [mem slot_at]. rewrite Hv. cbn [mbind option_bind].
          by apply block_of_lookup_live. }
      mrun. eexists. split; [reflexivity|]. mrun.
      split; [|repeat split; lia || done].
      unfold clean_step. cbn [this mem frame heap n_ctor n_dtor faults].
      split; [|do 2 (split; [done|]); split; [rewrite length_app, length_replicate; lia|]].
      * unfold owns. cbn [vector_ size_ capacity_].
        rewrite length_app, length_replicate. repeat split; try done; try lia.
        unfold block_at. cbn [heap]. rewrite list_lookup_insert_eq by done.
        done.
      * heap_same b.
    + case_bool_decide as Hcut; mrun.
      * (* drop the suffix *)
        replace (n - length xs) with 0 by lia. cbn [replicate]. rewrite app_nil_r.
        cbn [ptr_add Nat.add].
        erewrite (destroy_suffix_ok b xs cap n); [|lia|lia|done].
        mrun. eexists. split; [reflexivity|]. mrun.
        split; [|repeat split; lia || done].
        unfold clean_step. cbn [this mem frame heap n_ctor n_dtor faults].
        split; [|do 2 (split; [done|]); split; [rewrite length_take; lia|]].
        -- unfold owns. cbn [vector_ size_ capacity_].
           rewrite length_take. repeat split; try done; try lia.
           unfold block_at. cbn [heap].
           rewrite list_lookup_insert_eq by done.
           done.
        -- heap_same b.
      * (* nothing to do *)
        assert (n = length xs) as -> by lia.
        rewrite Nat.sub_diag, take_ge by lia. cbn [replicate]. rewrite app_nil_r.
        eexists. split; [reflexivity|]. mrun.
        split; [by apply clean_step_refl|]. repeat split; lia || done.
Qed.


(** A call with an object of the caller's for argument, and one with
    [a[i]]. *)
Lemma perform_Value (f : Reference T → M (T:=T) unit) (x : T) s :
  (value ← bind_arg (Value x); f value) s = f (Object x) s.
Proof. reflexivity. Qed.

Lemma perform_Own (f : Reference T → M (T:=T) unit) (i : nat) s :
  (value ← bind_arg (Own i); f value) s = f (Stored (ptr_add (vector_ (this s)) i)) s.
Proof. reflexivity. Qed.

Lemma perform_step (c : Call T) xs s :
  never_throws O → owns (mem s) (this s) xs →
  fits (request c xs) = true → names_object c xs = true →
  ∃ s', perform O c s = Ok tt s' ∧
        clean_step s s' xs (list_after c xs (capacity_ (this s))) ∧
        capacity_ (this s') = capacity_after c xs (capacity_ (this s)).
Proof.
  intros Hn Hown Hfit Hnames.
  destruct c as [a|a| |n|n a|n| |];
    cbn [perform list_after capacity_after request names_object] in *.
  - destruct a as [x|i]; cbn [arg_value after_move] in *.
    + rewrite perform_Value.
      destruct (PushBack_with_step CopyCtor x xs s Hn Hown Hfit) as (s' & ? & ? & ? & _).
      exists s'. split; [done|]. split; [by case_bool_decide|done].
    + rewrite perform_Own.
      apply bool_decide_eq_true in Hnames as [y Hi]. rewrite Hi.
      destruct (PushBack_own_step CopyCtor i y xs s) as (s' & ? & ? & ? & _); try done.
      exists s'. split; [done|]. split; [by case_bool_decide|done].
  - destruct a as [x|i]; cbn [arg_value after_move taken] in *.
    + rewrite perform_Value.
      destruct (PushBack_with_step MoveCtor x xs s Hn Hown Hfit) as (s' & ? & ? & ? & _).
      exists s'. split; [done|]. split; [by case_bool_decide|done].
    + rewrite perform_Own.
      apply bool_decide_eq_true in Hnames as [y Hi]. rewrite Hi.
      destruct (PushBack_own_step MoveCtor i y xs s) as (s' & ? & ? & ? & _); try done.
      exists s'. split; [done|]. split; [by case_bool_decide|done].
  - destruct (PopBack_step xs s Hown) as (s' & ? & ? & ? & _). eauto.
  - destruct (Resize_step n xs s Hn Hown Hfit) as (s' & ? & ? & ?). eauto.
  - destruct a as [x|i]; cbn [arg_value after_move] in *.
    + rewrite perform_Value.
      destruct (Resize_fill_step n x xs s Hn Hown Hfit) as (s' & ? & ? & ?).
      exists s'. split; [done|]. split; [|done].
      by destruct (bool_decide (capacity_ (this s) < n)).
    + rewrite perform_Own.
      apply bool_decide_eq_true in Hnames as [y Hi]. rewrite Hi.
      destruct (Resize_fill_own_step n i y xs s Hn Hown Hi Hfit) as (s' & ? & ? & ? & _).
      eauto.
  - destruct (Reserve_step n xs s Hn Hown Hfit) as (s' & ? & ? & ? & _). eauto.
  - destruct (ShrinkToFit_step xs s Hn Hown) as (s' & ? & ? & ? & _). eauto.
  - destruct (Clear_step xs s Hown) as (s' & ? & ? & ? & _). eauto.
Qed.

Lemma perform_all_step (cs : list (Call T)) xs s :
  never_throws O → owns (mem s) (this s) xs →
  well_posed cs xs (capacity_ (this s)) = true →
  ∃ s', perform_all O cs s = Ok tt s' ∧
        clean_step s s' xs (list_after_all cs xs (capacity_ (this s))) ∧
        capacity_ (this s') = capacity_after_all cs xs (capacity_ (this s)).
Proof.
  intros Hn. revert xs s. induction cs as [|c cs IH]; intros xs s Hown Hfit.
  - exists s. split; [done|]. split; [by apply clean_step_refl|done].
  - cbn [perform_all list_after_all capacity_after_all well_posed] in *.
    apply andb_prop in Hfit as [Hfit1 Hfit2].
    apply andb_prop in Hfit1 as [Hfit1 Hnames].
    destruct (perform_step c xs s Hn Hown Hfit1 Hnames) as (s1 & E1 & Hstep1 & Hcap1).
    destruct (IH (list_after c xs (capacity_ (this s))) s1) as (s' & E & Hstep & Hcap);
      [by destruct Hstep1|by rewrite Hcap1|].
    exists s'. rewrite bind_eq, E1. split; [done|].
    split; [eapply clean_step_trans; [done|by rewrite <- Hcap1]|].
    by rewrite Hcap, Hcap1.
Qed.

Lemma Vector_destroy_ok xs s :
  owns (mem s) (this s) xs →
  ∃ s', Vector_destroy O s = Ok tt s' ∧
        vector_ (this s') = Null ∧
        frame s' = frame s ∧ faults (mem s') = faults (mem s) ∧
        n_alloc (mem s') = n_alloc (mem s) ∧ n_ctor (mem s') = n_ctor (mem s) ∧
        n_dtor (mem s') = length xs + n_dtor (mem s) ∧
        length (heap (mem s')) = length (heap (mem s)) ∧
        (∀ b, block_index (this s) ≠ Some b → heap (mem s') !! b = heap (mem s) !! b) ∧
        (∀ b, block_index (this s) = Some b → heap (mem s') !! b = Some None).
Proof.
  intros (Hsz & Hle & Hfit & Hv).
  destruct s as [[p sz cap] fr w]. cbn [this mem frame vector_ size_ capacity_] in *.
  subst sz. unfold Vector_destroy. mrun.
  destruct p as [| |b [|?]]; try done.
  - assert (xs = []) as -> by (destruct xs; [done|simpl in *; lia]).
    unfold DestroyElements, destroy. mrun. cbn [length range_len ptr_add destroy_n]. mrun.
    unfold DeallocateMemory. mrun.
    eexists. split; [reflexivity|]. mrun. by repeat split.
  - assert (Hb : b < length (heap w)) by by eapply block_at_lt.
    erewrite (DestroyElements_ok b xs cap); [|done..].
    mrun.
    erewrite (DeallocateMemory_ok O b); [|done| |].
    2:{ cbn [mem]. unfold block_at. cbn [heap]. rewrite list_lookup_insert_eq by len. done. }
    2:{ by rewrite length_replicate. }
    mrun. eexists. split; [reflexivity|]. mrun. cbn [block_index vector_].
    repeat split; try done; try lia.
    + len.
    + intros b' ?. assert (b' ≠ b) by congruence. by lk.
    + intros b' [= <-]. by rewrite list_lookup_insert_eq by len.
Qed.

End Steps.

(** * Constructors and copy assignment *)

Section Construction.
Context {T : Type} `{!Element T}.
Implicit Types (s : State (T:=T)) (w : World (T:=T)) (xs : list T).
Variable O : Oracle.

(** The loops of the constructors that copy their elements one by one:
    round [i] constructs [f i] in slot [i] and counts [i] up. *)
Lemma rounds_ok (body : M unit) (f : nat → T) bd dcap n :
  (∀ s, vector_ (this s) = Ptr bd 0 → local_i (frame s) < n →
        body s = (construct_at O (Ptr bd (local_i (frame s))) CopyCtor
                    (f (local_i (frame s)));;
                  set_i (size_add (local_i (frame s)) 1)) s) →
  n ≤ dcap → fits dcap = true →
  ∀ k i vec nve w,
    vector_ vec = Ptr bd 0 → i + k ≤ n →
    quiet O (n_ctor w) k →
    block_at w bd = Some (block_of (f <$> seq 0 i) dcap) →
    repeat_n k body
      {| this := vec; frame := {| new_vector_end := nve; local_i := i |}; mem := w |} =
    Ok tt {| this := vec; frame := {| new_vector_end := nve; local_i := i + k |};
             mem := evolve (<[bd := Some (block_of (f <$> seq 0 (i + k)) dcap)]> (heap w))
                           0 k 0 w |}.
Proof.
  intros Hbody Hn Hfit k. induction k as [|k IH]; intros i vec nve w Hv Hik Hq Hb.
  - cbn [repeat_n]. rewrite Nat.add_0_r. unfold mret, M_ret. do 2 f_equal.
    rewrite list_insert_id by by apply block_at_heap. by rewrite evolve_id.
  - cbn [repeat_n]. rewrite bind_eq, Hbody by (cbn [this frame local_i]; done || lia).
    cbn [frame local_i]. rewrite bind_eq.
    erewrite construct_at_ok; [|by eapply quiet_head|done|].
    2:{ apply block_of_lookup_raw; [rewrite length_fmap, length_seq|]; lia. }
    mrun. rewrite size_add_1 by (eapply fits_le; [|done]; lia).
    assert (Hbd : bd < length (heap w)) by by eapply block_at_lt.
    rewrite IH.
    + replace (i + 1 + k) with (i + S k) by lia. do 2 f_equal.
      unfold evolve. cbn [heap n_alloc n_ctor n_dtor faults].
      rewrite list_insert_insert_eq. f_equal; lia.
    + done.
    + lia.
    + cbn [n_ctor]. by eapply quiet_tail.
    + unfold block_at. cbn [heap]. rewrite list_lookup_insert_eq by done.
      cbn [mjoin option_join]. f_equal.
      replace (i + 1) with (S i) by lia. rewrite seq_S, fmap_app. cbn [fmap list_fmap Nat.add].
      rewrite <- block_of_snoc by (rewrite length_fmap, length_seq; lia).
      by rewrite length_fmap, length_seq.
Qed.

Lemma rounds_throw (body : M unit) (f : nat → T) bd dcap n j vec nve w :
  (∀ s, vector_ (this s) = Ptr bd 0 → local_i (frame s) < n →
        body s = (construct_at O (Ptr bd (local_i (frame s))) CopyCtor
                    (f (local_i (frame s)));;
                  set_i (size_add (local_i (frame s)) 1)) s) →
  n ≤ dcap → fits dcap = true →
  vector_ vec = Ptr bd 0 → j < n →
  quiet O (n_ctor w) j → ctor_throws O CopyCtor (n_ctor w + j) = true →
  block_at w bd = Some (replicate dcap Raw) →
  repeat_n n body
    {| this := vec; frame := {| new_vector_end := nve; local_i := 0 |}; mem := w |} =
  Throw ctor_failure
    {| this := vec; frame := {| new_vector_end := nve; local_i := j |};
       mem := evolve (<[bd := Some (block_of (f <$> seq 0 j) dcap)]> (heap w))
                     0 (S j) 0 w |}.
Proof.
  intros Hbody Hn Hfit Hv Hj Hq Ht Hb.
  replace n with (j + S (n - S j)) by lia. rewrite repeat_n_split.
  erewrite (rounds_ok body f bd dcap n Hbody Hn Hfit j 0); [|done|lia|done|].
  2:{ cbn [seq fmap list_fmap]. by rewrite block_of_nil. }
  cbn [Nat.add repeat_n]. rewrite bind_eq, Hbody by (cbn [this frame local_i]; done || lia).
  cbn [frame local_i]. rewrite bind_eq.
  rewrite construct_at_throw by (cbn [mem evolve n_ctor]; by rewrite Nat.add_comm).
  unfold set_mem, evolve. cbn [mem heap n_alloc n_ctor n_dtor faults this frame].
  done.
Qed.

Lemma fmap_seq_lookup (d : T) (src : list T) :
  (λ i, default d (src !! i)) <$> seq 0 (length src) = src.
Proof.
  apply list_eq. intros i. rewrite list_lookup_fmap.
  destruct (decide (i < length src)) as [Hi|Hi].
  - rewrite lookup_seq_lt by done. cbn [fmap option_fmap option_map Nat.add].
    destruct (lookup_lt_is_Some_2 src i Hi) as [x Hx]. by rewrite Hx.
  - rewrite lookup_seq_ge by lia. symmetry. apply lookup_ge_None. lia.
Qed.

Lemma fmap_seq_const (v : T) n : (λ _, v) <$> seq 0 n = replicate n v.
Proof.
  transitivity (replicate (length (seq 0 n)) v);
    [by apply const_fmap|by rewrite length_seq].
Qed.

(** *** [Vector(size, value)] *)

Lemma Vector_fill_ok n value s :
  fits n = true → alloc_throws O (n_alloc (mem s)) = false →
  quiet O (n_ctor (mem s)) n →
  ∃ s', Vector_fill O n value s = Ok tt s' ∧
        owns (mem s') (this s') (replicate n value) ∧ capacity_ (this s') = n ∧
        frame s' = frame s ∧ faults (mem s') = faults (mem s) ∧
        n_alloc (mem s') = 1 + n_alloc (mem s) ∧
        n_ctor (mem s') = n + n_ctor (mem s) ∧ n_dtor (mem s') = n_dtor (mem s) ∧
        heap_step (heap (mem s)) (heap (mem s')) None (block_index (this s')).
Proof.
  intros Hfit Ha Hq. destruct s as [v0 fr w]. cbn [this mem frame] in *.
  unfold Vector_fill, new_object, AllocateMemory. mrun.
  destruct (decide (n = 0 ∧ zero_is_null O = true)) as [[-> Hz]|Hnz].
  - rewrite allocate_zero_null by done. mrun. cbn [Nat.sub repeat_n]. mrun.
    eexists. split; [reflexivity|]. mrun. cbn [replicate block_index vector_].
    repeat split; try done. apply heap_step_refl.
  - rewrite allocate_ok; [|done|done|].
    2:{ destruct (zero_is_null O); [left|by right].
        destruct n; [by destruct Hnz|lia]. }
    mrun. rewrite Nat.sub_0_r.
    erewrite (rounds_ok _ (λ _, value) (length (heap w)) n n _ _ _ n 0);
      [|done|lia|done|cbn [seq fmap list_fmap]; rewrite block_of_nil; apply block_at_fresh].
    mrun. eexists. split; [reflexivity|]. mrun. cbn [Nat.add block_index vector_].
    rewrite fmap_seq_const.
    split; [|do 6 (split; [done|])].
    + unfold owns. cbn [vector_ size_ capacity_]. rewrite length_replicate.
      repeat split; try done.
      unfold block_at. cbn [heap]. by rewrite list_lookup_insert_eq by len.
    + heap_first w.
  Unshelve.
  all: try done.
  intros s Hv Hi. mrun. rewrite Hv. done.
Qed.

Lemma destroy_built_ok b xs cap n s :
  n = length xs → length xs ≤ cap →
  block_at (mem s) b = Some (block_of xs cap) →
  destroy (Ptr b 0) (Ptr b n) s =
  Ok tt (set_mem (evolve (<[b := Some (replicate cap Raw)]> (heap (mem s))) 0 0 n (mem s)) s).
Proof.
  intros -> Hle Hb. rewrite (destroy_suffix_ok b xs cap 0) by (done || lia).
  rewrite take_0. by rewrite block_of_nil, Nat.sub_0_r.
Qed.

Lemma Vector_fill_throw n value j s :
  fits n = true → alloc_throws O (n_alloc (mem s)) = false →
  j < n → quiet O (n_ctor (mem s)) j →
  ctor_throws O CopyCtor (n_ctor (mem s) + j) = true →
  ∃ s', Vector_fill O n value s = Throw ctor_failure s' ∧
        vector_ (this s') = Null ∧
        heap (mem s') = heap (mem s) ++ [None] ∧
        n_ctor (mem s') = S j + n_ctor (mem s) ∧
        n_dtor (mem s') = j + n_dtor (mem s) ∧
        frame s' = frame s ∧ faults (mem s') = faults (mem s).
Proof.
  intros Hfit Ha Hj Hq Ht. destruct s as [v0 fr w]. cbn [this mem frame] in *.
  unfold Vector_fill, new_object, AllocateMemory. mrun.
  rewrite allocate_ok by (done || (left; lia)). mrun. rewrite Nat.sub_0_r.
  erewrite (rounds_throw _ (λ _, value) (length (heap w)) n n j);
    [|shelve|lia|done|done|done|done|done|apply block_at_fresh].
  mrun. rewrite fmap_seq_const. cbn [ptr_add Nat.add].
  erewrite (destroy_built_ok (length (heap w)) (replicate j value) n j);
    [|by rewrite length_replicate|rewrite length_replicate; lia|].
  2:{ cbn [mem]. unfold block_at. cbn [heap]. by rewrite list_lookup_insert_eq by len. }
  mrun.
  erewrite (DeallocateMemory_ok O (length (heap w))); [|done| |].
  2:{ cbn [mem]. unfold block_at. cbn [heap]. by rewrite list_lookup_insert_eq by len. }
  2:{ by rewrite length_replicate. }
  mrun. eexists. split; [reflexivity|]. mrun.
  rewrite !list_insert_insert_eq.
  repeat split; try done; try lia.
  rewrite <- (Nat.add_0_r (length (heap w))). by rewrite insert_app_r.
  Unshelve.
  intros s Hv Hi. mrun. rewrite Hv. done.
Qed.

(** On the handler's way out of a constructor whose allocation threw,
    [vector_] has not been given a value. *)
Lemma allocate_throw n s :
  fits n = false ∨ alloc_throws O (n_alloc (mem s)) = true →
  allocate O n s = Throw bad_alloc (set_mem (evolve (heap (mem s)) 1 0 0 (mem s)) s).
Proof.
  intros Hor. unfold allocate.
  assert (negb (fits n) || alloc_throws O (n_alloc (mem s)) = true) as ->.
  { destruct Hor as [-> | ->]; [done|by rewrite orb_true_r]. }
  done.
Qed.

Lemma Vector_fill_bad_alloc n value s :
  fits n = false ∨ alloc_throws O (n_alloc (mem s)) = true →
  faults (mem (final (Vector_fill O n value s))) =
  faults (mem s) ++ [BadRange Wild Wild; BadTest]
    ++ (if unset_is_null O then [] else [BadFree Wild]).
Proof.
  intros Hor. destruct s as [v0 fr w]. cbn [this mem frame] in *.
  unfold Vector_fill, new_object, AllocateMemory. mrun.
  rewrite allocate_throw by done. mrun.
  cbn [ptr_add]. unfold destroy. cbn [range_len]. unfold fault. mrun.
  unfold DeallocateMemory. mrun. unfold fault. mrun.
  destruct (unset_is_null O); cbn [negb]; mrun;
    [|unfold deallocate, fault; mrun];
    cbn [final mem heap faults add_fault]; by rewrite <- !app_assoc.
Qed.

(** *** [Vector(first, last)] and [Vector(std::initializer_list)] *)

Lemma Vector_range_ok (src : list T) s :
  fits (length src) = true → alloc_throws O (n_alloc (mem s)) = false →
  quiet O (n_ctor (mem s)) (length src) →
  ∃ s', Vector_range O src s = Ok tt s' ∧
        owns (mem s') (this s') src ∧ capacity_ (this s') = length src ∧
        frame s' = frame s ∧ faults (mem s') = faults (mem s) ∧
        n_alloc (mem s') = 1 + n_alloc (mem s) ∧
        n_ctor (mem s') = length src + n_ctor (mem s) ∧ n_dtor (mem s') = n_dtor (mem s) ∧
        heap_step (heap (mem s)) (heap (mem s')) None (block_index (this s')).
Proof.
  intros Hfit Ha Hq. destruct s as [v0 fr w]. cbn [this mem frame] in *.
  unfold Vector_range, new_object, AllocateMemory. mrun.
  destruct (decide (length src = 0 ∧ zero_is_null O = true)) as [[Hl Hz]|Hnz].
  - assert (src = []) as -> by by destruct src.
    cbn [length]. rewrite allocate_zero_null by done. mrun. cbn [Nat.sub repeat_n]. mrun.
    eexists. split; [reflexivity|]. mrun. cbn [length block_index vector_].
    repeat split; try done. apply heap_step_refl.
  - rewrite allocate_ok; [|done|done|].
    2:{ destruct (zero_is_null O); [left|by right].
        destruct (length src); [by destruct Hnz|lia]. }
    mrun. rewrite Nat.sub_0_r.
    erewrite (rounds_ok _ (λ i, default value_init (src !! i)) (length (heap w))
                (length src) (length src) _ _ _ (length src) 0);
      [|done|lia|done|cbn [seq fmap list_fmap]; rewrite block_of_nil; apply block_at_fresh].
    mrun. eexists. split; [reflexivity|]. mrun. cbn [Nat.add block_index vector_].
    rewrite fmap_seq_lookup.
    split; [|do 6 (split; [done|])].
    + unfold owns. cbn [vector_ size_ capacity_].
      repeat split; try done.
      unfold block_at. cbn [heap]. by rewrite list_lookup_insert_eq by len.
    + heap_first w.
  Unshelve.
  all: try done.
  intros s Hv Hi. mrun. rewrite Hv.
  destruct (lookup_lt_is_Some_2 src _ Hi) as [x Hx]. by rewrite Hx.
Qed.

Lemma Vector_range_throw (src : list T) j s :
  fits (length src) = true → alloc_throws O (n_alloc (mem s)) = false →
  j < length src → quiet O (n_ctor (mem s)) j →
  ctor_throws O CopyCtor (n_ctor (mem s) + j) = true →
  ∃ s', Vector_range O src s = Throw ctor_failure s' ∧
        vector_ (this s') = Null ∧
        heap (mem s') = heap (mem s) ++ [None] ∧
        n_ctor (mem s') = S j + n_ctor (mem s) ∧
        n_dtor (mem s') = j + n_dtor (mem s) ∧
        frame s' = frame s ∧ faults (mem s') = faults (mem s).
Proof.
  intros Hfit Ha Hj Hq Ht. destruct s as [v0 fr w]. cbn [this mem frame] in *.
  unfold Vector_range, new_object, AllocateMemory. mrun.
  rewrite allocate_ok by (done || (left; lia)). mrun. rewrite Nat.sub_0_r.
  erewrite (rounds_throw _ (λ i, default value_init (src !! i)) (length (heap w))
              (length src) (length src) j);
    [|shelve|lia|done|done|done|done|done|apply block_at_fresh].
  mrun. cbn [ptr_add Nat.add].
  erewrite (destroy_built_ok (length (heap w))
              ((λ i, default value_init (src !! i)) <$> seq 0 j) (length src) j);
    [|by rewrite length_fmap, length_seq|rewrite length_fmap, length_seq; lia|].
  2:{ cbn [mem]. unfold block_at. cbn [heap]. by rewrite list_lookup_insert_eq by len. }
  mrun.
  erewrite (DeallocateMemory_ok O (length (heap w))); [|done| |].
  2:{ cbn [mem]. unfold block_at. cbn [heap]. by rewrite list_lookup_insert_eq by len. }
  2:{ by rewrite length_replicate. }
  mrun. eexists. split; [reflexivity|]. mrun.
  rewrite !list_insert_insert_eq.
  repeat split; try done; try lia.
  rewrite <- (Nat.add_0_r (length (heap w))). by rewrite insert_app_r.
  Unshelve.
  intros s Hv Hi. mrun. rewrite Hv.
  destruct (lookup_lt_is_Some_2 src _ Hi) as [x Hx]. by rewrite Hx.
Qed.

Lemma Vector_range_bad_alloc (src : list T) s :
  fits (length src) = false ∨ alloc_throws O (n_alloc (mem s)) = true →
  faults (mem (final (Vector_range O src s))) =
  faults (mem s) ++ [BadRange Wild Wild; BadTest]
    ++ (if unset_is_null O then [] else [BadFree Wild]).
Proof.
  intros Hor. destruct s as [v0 fr w]. cbn [this mem frame] in *.
  unfold Vector_range, new_object, AllocateMemory. mrun.
  rewrite allocate_throw by done. mrun.
  cbn [ptr_add]. unfold destroy. cbn [range_len]. unfold fault. mrun.
  unfold DeallocateMemory. mrun. unfold fault. mrun.
  destruct (unset_is_null O); cbn [negb]; mrun;
    [|unfold deallocate, fault; mrun];
    cbn [final mem heap faults add_fault]; by rewrite <- !app_assoc.
Qed.

(** *** [Vector(std::size_t)] *)

Lemma block_of_replicate (x : T) n : block_of (replicate n x) n = replicate n (Live x).
Proof.
  unfold block_of. rewrite length_replicate, Nat.sub_diag, fmap_replicate.
  apply app_nil_r.
Qed.

Lemma default_inits_length c n : length (default_inits (T:=T) O c n) = n.
Proof. unfold default_inits. by rewrite length_fmap, length_seq. Qed.

Lemma default_inits_S c n :
  default_inits (T:=T) O c (S n)
  = default_init (storage_bits O c) :: default_inits O (S c) n.
Proof.
  unfold default_inits. cbn [seq fmap list_fmap]. rewrite Nat.add_0_r. f_equal.
  rewrite <- fmap_S_seq, <- list_fmap_compose. apply list_fmap_ext.
  intros ? i _. cbn. do 2 f_equal. lia.
Qed.

(** [std::uninitialized_default_construct_n] over raw slots. *)
Lemma default_construct_n_ok first b pre n post s :
  quiet O (n_ctor (mem s)) n →
  block_at (mem s) b = Some (pre ++ replicate n Raw ++ post) →
  construct_n (default_construct_at O) first (Ptr b (length pre)) n s =
  Ok tt (set_mem (evolve (<[b := Some (pre ++ (Live <$> default_inits O (n_ctor (mem s)) n)
                                           ++ post)]> (heap (mem s)))
                         0 n 0 (mem s)) s).
Proof.
  revert pre s. induction n as [|n IH]; intros pre s Hq Hb.
  - cbn [construct_n default_inits seq fmap list_fmap app].
    rewrite list_insert_id by by apply block_at_heap.
    by rewrite evolve_id, set_mem_mem.
  - cbn [construct_n]. rewrite bind_eq. unfold try_catch, default_construct_at.
    rewrite bind_eq. unfold gets.
    erewrite construct_at_ok; [|by eapply quiet_head|done|].
    2:{ rewrite lookup_app_r by lia. by rewrite Nat.sub_diag. }
    cbn [ptr_add].
    replace (Ptr b (length pre + 1))
      with (Ptr b (length (pre ++ [Live (default_init (storage_bits O (n_ctor (mem s))))])))
      by (rewrite length_app; done).
    rewrite IH.
    + cbn [mem set_mem heap evolve n_ctor].
      rewrite set_mem_set_mem, list_insert_insert_eq.
      rewrite default_inits_S. cbn [fmap list_fmap].
      rewrite <- app_assoc. cbn [app].
      unfold evolve. cbn [heap n_alloc n_ctor n_dtor faults].
      do 3 f_equal; lia.
    + cbn [mem set_mem evolve n_ctor]. by apply quiet_tail.
    + cbn [mem set_mem]. rewrite block_at_evolve, list_lookup_insert_eq by by eapply block_at_lt.
      cbn [mjoin option_join]. f_equal. rewrite <- (Nat.add_0_r (length pre)) at 1.
      rewrite insert_app_r. cbn [replicate app insert list_insert].
      by rewrite <- app_assoc.
Qed.

(** The same when the [j]-th default-initialisation throws: the storage is
    handed back as it was found. *)
Lemma default_construct_n_throw b pre ys n j post s :
  j < n → quiet O (n_ctor (mem s)) j →
  ctor_throws O DefaultCtor (n_ctor (mem s) + j) = true →
  block_at (mem s) b = Some (pre ++ (Live <$> ys) ++ replicate n Raw ++ post) →
  construct_n (default_construct_at O) (Ptr b (length pre))
    (Ptr b (length pre + length ys)) n s =
  Throw ctor_failure
    (set_mem (evolve (<[b := Some (pre ++ replicate (length ys + n) Raw ++ post)]>
                        (heap (mem s)))
                     0 (S j) (length ys + j) (mem s)) s).
Proof.
  revert ys n s. induction j as [|j IH]; intros ys n s Hj Hq Ht Hb;
    (destruct n as [|n]; [lia|]); cbn [construct_n]; rewrite bind_eq;
    unfold try_catch, default_construct_at; rewrite bind_eq; unfold gets.
  - rewrite Nat.add_0_r in Ht. rewrite construct_at_throw by done.
    unfold destroy. rewrite range_len_At' by lia.
    replace (length pre + length ys - length pre) with (length ys) by lia.
    erewrite (destroy_n_ok b pre ys (replicate (S n) Raw ++ post)).
    2:{ cbn [mem set_mem]. rewrite block_at_evolve.
        apply block_at_heap in Hb. by rewrite Hb. }
    cbn [mem set_mem heap evolve]. rewrite set_mem_set_mem.
    do 2 f_equal. unfold evolve. cbn [heap n_alloc n_ctor n_dtor faults].
    rewrite (app_assoc (replicate (length ys) Raw)), <- replicate_add. f_equal; lia.
  - erewrite construct_at_ok; [|by eapply quiet_head|done|].
    2:{ rewrite lookup_app_r by lia. rewrite lookup_app_r by (rewrite length_fmap; lia).
        rewrite length_fmap.
        replace (length pre + length ys - length pre - length ys) with 0 by lia.
        done. }
    cbn [ptr_add].
    set (x := default_init (storage_bits O (n_ctor (mem s)))).
    replace (length pre + length ys + 1) with (length pre + length (ys ++ [x]))
      by (rewrite length_app; cbn [length]; lia).
    assert (Hlt : b < length (heap (mem s))) by by eapply block_at_lt.
    rewrite (IH (ys ++ [x]) n).
    + cbn [mem set_mem heap evolve]. rewrite set_mem_set_mem.
      do 2 f_equal. unfold evolve. cbn [heap n_alloc n_ctor n_dtor faults].
      rewrite list_insert_insert_eq, length_app. cbn [length].
      replace (length ys + 1 + n) with (length ys + S n) by lia. f_equal; lia.
    + lia.
    + cbn [mem set_mem evolve n_ctor]. by apply quiet_tail.
    + cbn [mem set_mem evolve n_ctor].
      replace (1 + n_ctor (mem s) + j) with (n_ctor (mem s) + S j) by lia. done.
    + cbn [mem set_mem]. rewrite block_at_evolve, list_lookup_insert_eq by done.
      cbn [mjoin option_join]. f_equal.
      rewrite app_assoc.
      replace (length pre + length ys) with (length (pre ++ (Live <$> ys)) + 0)
        by (rewrite length_app, length_fmap; lia).
      rewrite insert_app_r. cbn [replicate app insert list_insert].
      rewrite fmap_app. cbn [fmap list_fmap]. by rewrite <- !app_assoc.
Qed.

Lemma Vector_sized_ok n s :
  fits n = true → alloc_throws O (n_alloc (mem s)) = false →
  quiet O (n_ctor (mem s)) n →
  ∃ s', Vector_sized O n s = Ok tt s' ∧
        owns (mem s') (this s') (default_inits O (n_ctor (mem s)) n) ∧
        capacity_ (this s') = n ∧
        frame s' = frame s ∧ faults (mem s') = faults (mem s) ∧
        n_alloc (mem s') = (if bool_decide (0 < n) then 1 else 0) + n_alloc (mem s) ∧
        n_ctor (mem s') = n + n_ctor (mem s) ∧ n_dtor (mem s') = n_dtor (mem s) ∧
        (n = 0 → vector_ (this s') = Null) ∧
        heap_step (heap (mem s)) (heap (mem s')) None (block_index (this s')).
Proof.
  intros Hfit Ha Hq. destruct s as [v0 fr w]. cbn [this mem frame] in *.
  unfold Vector_sized, new_object, AllocateMemory. mrun.
  case_bool_decide as Hpos; mrun.
  - rewrite allocate_ok by (done || (left; lia)). mrun.
    unfold uninitialized_default_construct_n.
    erewrite (default_construct_n_ok _ (length (heap w)) [] n []); [|done|].
    2:{ cbn [app mem]. rewrite app_nil_r. apply block_at_fresh. }
    mrun. eexists. split; [reflexivity|]. cbn [app block_index vector_ this mem frame
      heap n_alloc n_ctor n_dtor faults capacity_].
    rewrite app_nil_r, Nat.add_0_l.
    split; [|do 6 (split; [done || lia|]); split; [lia|]].
    + unfold owns. cbn [vector_ size_ capacity_]. rewrite default_inits_length.
      repeat split; try done.
      unfold block_at. cbn [heap]. rewrite list_lookup_insert_eq by len.
      unfold block_of. rewrite default_inits_length, Nat.sub_diag. cbn [replicate].
      by rewrite app_nil_r.
    + heap_first w.
  - assert (n = 0) as -> by lia.
    eexists. split; [reflexivity|]. mrun. cbn [replicate block_index vector_].
    repeat split; try done. apply heap_step_refl.
Qed.

Lemma Vector_sized_throw n j s :
  fits n = true → alloc_throws O (n_alloc (mem s)) = false →
  j < n → quiet O (n_ctor (mem s)) j →
  ctor_throws O DefaultCtor (n_ctor (mem s) + j) = true →
  ∃ s', Vector_sized O n s = Throw ctor_failure s' ∧
        vector_ (this s') = Null ∧
        heap (mem s') = heap (mem s) ++ [None] ∧
        n_ctor (mem s') = S j + n_ctor (mem s) ∧
        n_dtor (mem s') = j + n_dtor (mem s) ∧
        frame s' = frame s ∧ faults (mem s') = faults (mem s).
Proof.
  intros Hfit Ha Hj Hq Ht. destruct s as [v0 fr w]. cbn [this mem frame] in *.
  unfold Vector_sized, new_object, AllocateMemory. mrun.
  rewrite bool_decide_eq_true_2 by lia. mrun.
  rewrite allocate_ok by (done || (left; lia)). mrun.
  unfold uninitialized_default_construct_n.
  pose proof (default_construct_n_throw (length (heap w)) [] [] n j []) as H.
  cbn [length app fmap list_fmap Nat.add] in H. erewrite H; [|done|done|done|].
  2:{ cbn [mem]. rewrite app_nil_r. apply block_at_fresh. }
  mrun. rewrite app_nil_r.
  erewrite (DeallocateMemory_ok O (length (heap w))); [|done| |].
  2:{ cbn [mem]. unfold block_at. cbn [heap]. by rewrite list_lookup_insert_eq by len. }
  2:{ by rewrite length_replicate. }
  mrun. eexists. split; [reflexivity|]. mrun.
  rewrite !list_insert_insert_eq.
  repeat split; try done; try lia.
  rewrite <- (Nat.add_0_r (length (heap w))). by rewrite insert_app_r.
Qed.

Lemma Vector_sized_bad_alloc n s :
  0 < n → fits n = false ∨ alloc_throws O (n_alloc (mem s)) = true →
  faults (mem (final (Vector_sized O n s))) =
  faults (mem s) ++ [BadTest] ++ (if unset_is_null O then [] else [BadFree Wild]).
Proof.
  intros Hpos Hor. destruct s as [v0 fr w]. cbn [this mem frame] in *.
  unfold Vector_sized, new_object, AllocateMemory. mrun.
  rewrite bool_decide_eq_true_2 by lia. mrun.
  rewrite allocate_throw by done. mrun.
  unfold DeallocateMemory. mrun. unfold fault. mrun.
  destruct (unset_is_null O); cbn [negb]; mrun;
    [|unfold deallocate, fault; mrun];
    cbn [final mem heap faults add_fault]; by rewrite <- ?app_assoc.
Qed.

Lemma Vector_copy_bad_alloc other s :
  fits (capacity_ other) = false ∨ alloc_throws O (n_alloc (mem s)) = true →
  faults (mem (final (Vector_copy O other s))) =
  faults (mem s) ++ [BadRange Wild Wild; BadFree Wild].
Proof.
  intros Hor. destruct s as [v0 fr w]. cbn [this mem frame] in *.
  unfold Vector_copy, new_object, AllocateMemory. mrun.
  rewrite allocate_throw by done. mrun.
  cbn [ptr_add]. unfold destroy. cbn [range_len]. unfold fault. mrun.
  unfold deallocate, fault. mrun.
  cbn [final mem heap faults add_fault]. by rewrite <- !app_assoc.
Qed.

(** *** Copy assignment *)

Lemma Vector_copy_built other xs s :
  never_throws O → owns (mem s) other xs →
  ∃ s', Vector_copy O other s = Ok tt s' ∧
        owns (mem s') (this s') xs ∧ capacity_ (this s') = capacity_ other ∧
        frame s' = frame s ∧ faults (mem s') = faults (mem s) ∧
        n_alloc (mem s') = 1 + n_alloc (mem s) ∧
        n_ctor (mem s') = length xs + n_ctor (mem s) ∧ n_dtor (mem s') = n_dtor (mem s) ∧
        heap_step (heap (mem s)) (heap (mem s')) None (block_index (this s')).
Proof.
  intros [Ha Hc] (Hsz & Hle & Hfit & Hv).
  assert (Hq : ∀ c n, quiet O c n) by (intros c m k' j _; apply Hc).
  destruct s as [v0 fr w]. destruct other as [p sz cap].
  cbn [this mem frame vector_ size_ capacity_] in *. subst sz.
  unfold Vector_copy, new_object, AllocateMemory. mrun.
  destruct (decide (cap = 0)) as [-> | Hcap].
  - assert (xs = []) as -> by (destruct xs; [done|simpl in *; lia]).
    destruct (zero_is_null O) eqn:Hz.
    + rewrite allocate_zero_null by (done || apply Ha). mrun.
      cbn [length Nat.sub repeat_n]. mrun.
      eexists. split; [reflexivity|]. mrun. cbn [block_index vector_].
      repeat split; try done. apply heap_step_refl.
    + rewrite allocate_ok by (done || apply Ha || by right). mrun.
      cbn [length Nat.sub repeat_n]. mrun.
      eexists. split; [reflexivity|]. mrun. cbn [block_index vector_].
      split; [|do 6 (split; [done|])].
      * repeat split; try done.
        unfold block_at. cbn [heap vector_]. by rewrite lookup_app_r, Nat.sub_diag.
      * heap_first w.
  - rewrite allocate_ok by (done || apply Ha || (left; lia)). mrun.
    rewrite Nat.sub_0_r.
    destruct p as [| |bs [|?]]; try done.
    assert (Hbs : bs < length (heap w)) by by eapply block_at_lt.
    erewrite (copy_rounds_ok O _ bs (length (heap w)) cap cap [] xs []);
      [|done|lia|apply Hq| | |done|done].
    2:{ unfold block_at. cbn [heap]. rewrite lookup_app_l by done.
        apply block_at_heap in Hv. rewrite Hv. by rewrite app_nil_r. }
    2:{ rewrite block_of_nil. apply block_at_fresh. }
    mrun. eexists. split; [reflexivity|]. mrun. cbn [app block_index vector_].
    split; [|do 6 (split; [done|])].
    + repeat split; try done.
      unfold block_at. cbn [heap vector_]. by rewrite list_lookup_insert_eq by len.
    + heap_first w.
Qed.

(** A container keeps what it owns through a change of the heap that
    leaves its block alone. *)
Lemma owns_kept w w' v xs :
  owns w v xs →
  (∀ b, block_index v = Some b → heap w' !! b = heap w !! b) →
  owns w' v xs.
Proof.
  intros (Hsz & Hle & Hfit & Hv) Hk. repeat split; try done.
  unfold block_index in Hk.
  destruct (vector_ v) as [| |b [|?]]; try done.
  unfold block_at in *. by rewrite Hk.
Qed.

Lemma assign_copy_ok other xs ys s :
  never_throws O → owns (mem s) (this s) ys → owns (mem s) other xs →
  (∀ b, block_index (this s) = Some b → block_index other ≠ Some b) →
  ∃ s', assign_copy O (Other other) s = Ok tt s' ∧
        owns (mem s') (this s') xs ∧ owns (mem s') other xs ∧
        capacity_ (this s') = capacity_ other ∧
        frame s' = frame s ∧ faults (mem s') = faults (mem s) ∧
        n_alloc (mem s') = 1 + n_alloc (mem s) ∧
        n_ctor (mem s') = length xs + n_ctor (mem s) ∧
        n_dtor (mem s') = length ys + n_dtor (mem s) ∧
        (∀ b, block_index (this s) = Some b → heap (mem s') !! b = Some None).
Proof.
  intros Hn Hthis Hother Hdis. unfold assign_copy. rewrite bind_eq. unfold on_object.
  destruct (Vector_copy_built other xs (set_this moved_out s) Hn Hother)
    as (s1 & E1 & Hown1 & Hcap1 & Hfr1 & Hf1 & Ha1 & Hc1 & Hd1 & Hh1).
  rewrite E1. cbn [mem set_this frame] in *.
  destruct Hh1 as (L1 & K1 & F1 & N1).
  assert (Hthis1 : owns (mem s1) (this s) ys).
  { eapply owns_kept; [done|]. intros b Hb. apply K1; [|done].
    unfold block_index in Hb. destruct Hthis as (_ & _ & _ & Hv).
    destruct (vector_ (this s)) as [| |b' [|?]]; try done.
    injection Hb as <-. by eapply block_at_lt. }
  assert (Hother1 : owns (mem s1) other xs).
  { eapply owns_kept; [done|]. intros b Hb. apply K1; [|done].
    unfold block_index in Hb. destruct Hother as (_ & _ & _ & Hv).
    destruct (vector_ other) as [| |b' [|?]]; try done.
    injection Hb as <-. by eapply block_at_lt. }
  unfold Swap. mrun.
  destruct (Vector_destroy_ok O ys
              {| this := this s; frame := frame s1; mem := mem s1 |} Hthis1)
    as (s2 & E2 & Hv2 & Hfr2 & Hf2 & Ha2 & Hc2 & Hd2 & Hl2 & Hk2 & Hfree2).
  cbn [this frame mem] in *.
  rewrite E2. mrun. eexists. split; [reflexivity|]. cbn [this frame mem].
  assert (Hnew : ∀ b, block_index (this s1) = Some b → block_index (this s) ≠ Some b).
  { intros b Hb Hb'. destruct (N1 b Hb) as [?|Hge]; [done|].
    unfold block_index in Hb'. destruct Hthis as (_ & _ & _ & Hv).
    destruct (vector_ (this s)) as [| |b' [|?]]; try done.
    injection Hb' as <-. apply block_at_lt in Hv. lia. }
  split; [eapply owns_kept; [done|]; intros b Hb; apply Hk2; by apply Hnew|].
  split; [eapply owns_kept; [done|]; intros b Hb; apply Hk2; intros Hb'; by eapply Hdis|].
  repeat split; try done; try congruence; try lia.
Qed.

Lemma assign_copy_throw other xs ys j s :
  owns (mem s) (this s) ys → owns (mem s) other xs → j < length xs →
  alloc_throws O (n_alloc (mem s)) = false →
  quiet O (n_ctor (mem s)) j →
  ctor_throws O CopyCtor (n_ctor (mem s) + j) = true →
  ∃ s', assign_copy O (Other other) s = Throw ctor_failure s' ∧
        this s' = this s ∧ owns (mem s') (this s') ys ∧ owns (mem s') other xs ∧
        heap (mem s') = heap (mem s) ++ [None] ∧
        n_dtor (mem s') = j + n_dtor (mem s) ∧
        frame s' = frame s ∧ faults (mem s') = faults (mem s).
Proof.
  intros Hthis Hother Hj Ha Hq Ht. unfold assign_copy. rewrite bind_eq. unfold on_object.
  destruct (Vector_copy_throw O other xs j (set_this moved_out s) Hother Hj Ha Hq Ht)
    as (s1 & E1 & Hown1 & Hh1 & Hc1 & Hd1 & Hfr1 & Hf1).
  rewrite E1. cbn [mem set_this frame this] in *.
  eexists. split; [reflexivity|]. cbn [set_this this mem frame].
  split; [done|]. split; [|done].
  eapply owns_kept; [done|]. intros b Hb. rewrite Hh1. apply lookup_app_l.
  unfold block_index in Hb. destruct Hthis as (_ & _ & _ & Hv).
  destruct (vector_ (this s)) as [| |b' [|?]]; try done.
  injection Hb as <-. by eapply block_at_lt.
Qed.

End Construction.

(** * Allocations and moves that fail *)

Section Failures.
Context {T : Type} `{!Element T}.
Implicit Types (s : State (T:=T)) (w : World (T:=T)) (xs : list T).
Variable O : Oracle.

(** *** An allocation that fails *)






(** *** A move constructor that throws while the elements are relocated *)

Lemma move_construct_throw bs i x p s sblk :
  ctor_throws O MoveCtor (n_ctor (mem s)) = true →
  block_at (mem s) bs = Some sblk → sblk !! i = Some (Live x) →
  move_construct O p (Ptr bs i) s =
  Throw ctor_failure (set_mem (evolve (heap (mem s)) 0 1 0 (mem s)) s).
Proof.
  intros Ht Hs Hi. unfold move_construct. rewrite bind_eq. unfold gets.
  cbn [slot_at]. rewrite Hs. cbn [mbind option_bind]. rewrite Hi, bind_eq.
  by rewrite construct_at_throw.
Qed.

(** [std::uninitialized_move] whose [j]-th move throws: the elements before
    it stay moved-from, and what was built in the destination is destroyed
    again. *)
Lemma move_n_throw bs bd spre built todo j spost dpost s :
  bs ≠ bd → j < length todo →
  quiet O (n_ctor (mem s)) j →
  ctor_throws O MoveCtor (n_ctor (mem s) + j) = true →
  block_at (mem s) bs = Some (spre ++ (Live <$> todo) ++ spost) →
  block_at (mem s) bd = Some ((Live <$> built) ++ replicate (length todo) Raw ++ dpost) →
  move_n O (Ptr bs (length spre)) (Ptr bd 0) (Ptr bd (length built)) (length todo) s =
  Throw ctor_failure
    (set_mem (evolve
       (<[bs := Some (spre ++ (Live <$> (moved_from <$> take j todo))
                        ++ (Live <$> drop j todo) ++ spost)]>
          (<[bd := Some (replicate (length built + length todo) Raw ++ dpost)]>
             (heap (mem s))))
       0 (S j) (length built + j) (mem s)) s).
Proof.
  intros Hne. revert spre built todo s.
  induction j as [|j IH]; intros spre built todo s Hj Hq Ht Hs Hd;
    (destruct todo as [|y rest]; [cbn [length] in Hj; lia|]);
    cbn [move_n length]; rewrite bind_eq; unfold try_catch.
  - rewrite Nat.add_0_r in Ht.
    erewrite move_construct_throw; [|done|done|].
    2:{ rewrite lookup_app_r by lia. by rewrite Nat.sub_diag. }
    unfold destroy. rewrite range_len_At' by lia. rewrite Nat.sub_0_r.
    erewrite (destroy_n_ok bd [] built (replicate (S (length rest)) Raw ++ dpost)).
    2:{ cbn [mem set_mem app]. rewrite block_at_evolve.
        apply block_at_heap in Hd. by rewrite Hd. }
    cbn [mem set_mem heap evolve app take drop fmap list_fmap].
    rewrite set_mem_set_mem. do 2 f_equal. unfold evolve.
    cbn [heap n_alloc n_ctor n_dtor faults].
    rewrite (list_insert_id (<[bd:=_]> _) bs).
    2:{ rewrite list_lookup_insert_ne by done. by apply block_at_heap. }
    rewrite app_assoc, <- replicate_add. cbn [length]. f_equal; lia.
  - assert (Hbs : bs < length (heap (mem s))) by by eapply block_at_lt.
    assert (Hbd : bd < length (heap (mem s))) by by eapply block_at_lt.
    erewrite move_construct_ok; [|done|by eapply quiet_head|done| |done|].
    2:{ rewrite lookup_app_r by lia. by rewrite Nat.sub_diag. }
    2:{ rewrite lookup_app_r by (rewrite length_fmap; lia).
        by rewrite length_fmap, Nat.sub_diag. }
    cbn [ptr_add].
    replace (length spre + 1) with (length (spre ++ [Live (moved_from y)]))
      by (rewrite length_app; done).
    replace (length built + 1) with (length (built ++ [y]))
      by (rewrite length_app; done).
    rewrite (IH (spre ++ [Live (moved_from y)]) (built ++ [y]) rest).
    + cbn [mem set_mem heap evolve]. rewrite set_mem_set_mem.
      do 2 f_equal. unfold evolve. cbn [heap n_alloc n_ctor n_dtor faults].
      rewrite insert_collapse2 by done.
      rewrite <- !app_assoc, length_app. cbn [length app take drop fmap list_fmap].
      replace (length built + 1 + length rest) with (length built + S (length rest)) by lia.
      f_equal; lia.
    + cbn [length] in Hj. lia.
    + cbn [mem set_mem evolve n_ctor]. by apply quiet_tail.
    + cbn [mem set_mem evolve n_ctor].
      replace (1 + n_ctor (mem s) + j) with (n_ctor (mem s) + S j) by lia. done.
    + cbn [mem set_mem]. rewrite block_at_evolve, list_lookup_insert_eq.
      2:{ by rewrite length_insert. }
      cbn [mjoin option_join]. f_equal. rewrite <- (Nat.add_0_r (length spre)) at 1.
      rewrite insert_app_r. cbn [fmap list_fmap app insert list_insert].
      by rewrite <- app_assoc.
    + cbn [mem set_mem]. rewrite block_at_evolve, list_lookup_insert_ne,
        list_lookup_insert_eq by done.
      cbn [mjoin option_join]. f_equal.
      rewrite <- (length_fmap Live built) at 1.
      rewrite <- (Nat.add_0_r (length (Live <$> built))).
      rewrite insert_app_r, fmap_app. cbn [replicate fmap list_fmap app insert list_insert].
      by rewrite <- app_assoc.
Qed.

Lemma Reallocate_move_throw n xs j s :
  owns (mem s) (this s) xs → length xs ≤ n → fits n = true →
  alloc_throws O (n_alloc (mem s)) = false →
  j < length xs → quiet O (n_ctor (mem s)) j →
  ctor_throws O MoveCtor (n_ctor (mem s) + j) = true →
  ∃ s', Reallocate O n s = Throw ctor_failure s' ∧
        this s' = this s ∧ frame s' = frame s ∧
        owns (mem s') (this s') ((moved_from <$> take j xs) ++ drop j xs) ∧
        length (heap (mem s')) = S (length (heap (mem s))) ∧
        heap (mem s') !! length (heap (mem s)) = Some None ∧
        n_ctor (mem s') = S j + n_ctor (mem s) ∧
        n_dtor (mem s') = j + n_dtor (mem s) ∧
        faults (mem s') =
          faults (mem s) ++ raw_destroys (length (heap (mem s))) 0 (length xs).
Proof.
  intros (Hsz & Hle & Hfit & Hv) Hn Hfn Ha Hj Hq Ht.
  destruct s as [[p sz cap] fr w]. cbn [this mem frame vector_ size_ capacity_] in *.
  subst sz. unfold Reallocate.
  rewrite bind_eq, allocate_ok by (done || (left; lia)). mrun.
  destruct p as [| |b [|?]]; try done; [lia|].
  assert (Hb : b < length (heap w)) by by eapply block_at_lt.
  unfold uninitialized_move. rewrite range_len_At.
  pose proof (move_n_throw b (length (heap w)) [] [] xs j
                (replicate (cap - length xs) Raw) (replicate (n - length xs) Raw)) as H.
  cbn [length app fmap list_fmap Nat.add] in H. erewrite H; [|lia|done|done|done| |].
  2:{ cbn [mem]. unfold block_at. cbn [heap]. rewrite lookup_app_l by done.
      by apply block_at_heap in Hv as ->. }
  2:{ cbn [mem]. rewrite <- replicate_add.
      replace (length xs + (n - length xs)) with n by lia. apply block_at_fresh. }
  mrun. cbn [ptr_add Nat.add]. unfold destroy. rewrite range_len_At' by lia.
  rewrite Nat.sub_0_r.
  erewrite (destroy_n_raw (length (heap w)) 0 (length xs)).
  2:{ cbn [mem]. unfold block_at. cbn [heap].
      rewrite list_lookup_insert_ne, list_lookup_insert_eq by len. done. }
  2:{ intros k' Hk. rewrite lookup_app_l by (rewrite length_replicate; lia).
      apply lookup_replicate_2. lia. }
  mrun.
  erewrite deallocate_ok; [| |].
  2:{ cbn [mem add_faults]. unfold block_at. cbn [heap].
      rewrite list_lookup_insert_ne, list_lookup_insert_eq by len. done. }
  2:{ rewrite length_app, !length_replicate. lia. }
  mrun. eexists. split; [reflexivity|]. mrun. cbn [add_faults heap faults].
  split; [done|]. split; [done|]. split.
  { unfold owns. cbn [vector_ size_ capacity_].
    rewrite length_app, length_fmap, length_take, length_drop.
    repeat split; try done; try lia.
    unfold block_at. cbn [heap].
    rewrite list_lookup_insert_ne by lia. rewrite list_lookup_insert_eq by len.
    cbn [mjoin option_join]. f_equal. unfold block_of.
    rewrite fmap_app, <- app_assoc, length_app, length_fmap, length_take, length_drop.
    do 3 f_equal. lia. }
  repeat split; try done; try lia.
  - len.
  - by rewrite list_lookup_insert_eq by len.
Qed.

End Failures.

(** * Reading and comparing *)

Section Access.
Context {T : Type}.
Implicit Types (s : State (T:=T)) (w : World (T:=T)) (xs : list T).

Lemma block_of_live xs cap i x :
  xs !! i = Some x → block_of xs cap !! i = Some (Live x).
Proof.
  intros Hi. unfold block_of. rewrite lookup_app_l.
  - by rewrite list_lookup_fmap, Hi.
  - rewrite length_fmap. by eapply lookup_lt_Some.
Qed.

(** What the slot at [vector_ + i] holds. *)
Lemma owns_deref xs s i :
  owns (mem s) (this s) xs → deref s (ptr_add (vector_ (this s)) i) = xs !! i.
Proof.
  intros (Hsz & Hle & _ & Hv). unfold deref.
  destruct (vector_ (this s)) as [| |b [|?]]; try done.
  - assert (xs = []) as -> by (destruct xs; [done|simpl in *; lia]).
    by destruct i.
  - cbn [ptr_add Nat.add slot_at]. rewrite Hv. cbn [mbind option_bind].
    unfold block_of. destruct (decide (i < length xs)) as [Hi|Hi].
    + rewrite lookup_app_l by by rewrite length_fmap.
      rewrite list_lookup_fmap. by destruct (xs !! i).
    + rewrite lookup_app_r by (rewrite length_fmap; lia).
      rewrite (lookup_ge_None_2 xs) by lia.
      destruct (replicate _ _ !! _) as [sl|] eqn:E; [|done].
      apply lookup_replicate in E as [-> _]. done.
Qed.

Lemma size_sub_0_1 : (N.of_nat (size_sub 0 1) = 2 ^ 64 - 1)%N.
Proof.
  unfold size_sub, size_t_mod. rewrite N2Nat.id.
  change (N.of_nat 0) with 0%N. change (N.of_nat 1) with 1%N.
  rewrite (N.mod_small 1) by lia. rewrite N.mod_small by lia. lia.
Qed.

Lemma visit_ok b blk xs s :
  block_at (mem s) b = Some blk →
  ∀ fuel i, length xs ≤ fuel →
    (∀ k x, xs !! k = Some x → blk !! (i + k) = Some (Live x)) →
    visit s fuel (Ptr b i) (Ptr b (i + length xs)) = Some xs.
Proof.
  intros Hb fuel. revert xs. induction fuel as [|fuel IH]; intros xs i Hfuel Hxs.
  - destruct xs; [|cbn [length] in Hfuel; lia].
    cbn [visit length]. by rewrite Nat.add_0_r, bool_decide_eq_true_2.
  - destruct xs as [|x xs].
    + cbn [visit length]. by rewrite Nat.add_0_r, bool_decide_eq_true_2.
    + cbn [visit length].
      rewrite bool_decide_eq_false_2 by (intros [= ?]; lia).
      unfold deref at 1. cbn [slot_at]. rewrite Hb. cbn [mbind option_bind].
      rewrite <- (Nat.add_0_r i) at 1. rewrite (Hxs 0 x) by done.
      cbn [ptr_add].
      replace (i + S (length xs)) with (i + 1 + length xs) by lia.
      rewrite IH; [done|cbn [length] in Hfuel; lia|].
      intros k y Hk. replace (i + 1 + k) with (i + S k) by lia. by apply Hxs.
Qed.

Lemma rvisit_ok b blk s :
  block_at (mem s) b = Some blk →
  ∀ fuel xs, length xs ≤ fuel →
    (∀ k x, xs !! k = Some x → blk !! k = Some (Live x)) →
    rvisit s fuel {| base := Ptr b (length xs) |} {| base := Ptr b 0 |}
    = Some (reverse xs).
Proof.
  intros Hb fuel. induction fuel as [|fuel IH]; intros xs Hfuel Hxs.
  - destruct xs; [|cbn [length] in Hfuel; lia].
    cbn [rvisit base length]. by rewrite bool_decide_eq_true_2.
  - destruct xs as [|x xs _] using rev_ind.
    { cbn [rvisit base length]. by rewrite bool_decide_eq_true_2. }
    rewrite length_app in *. cbn [length] in *.
    cbn [rvisit base]. rewrite bool_decide_eq_false_2 by (intros [= ?]; lia).
    unfold rderef, rnext. cbn [base ptr_sub].
    rewrite bool_decide_eq_true_2 by lia.
    replace (length xs + 1 - 1) with (length xs) by lia.
    unfold deref at 1. cbn [slot_at]. rewrite Hb. cbn [mbind option_bind].
    rewrite (Hxs (length xs) x) by by rewrite lookup_app_r, Nat.sub_diag.
    rewrite IH; [|lia|].
    + by rewrite reverse_app.
    + intros k y Hk. apply Hxs. rewrite lookup_app_l; [done|]. by eapply lookup_lt_Some.
Qed.

End Access.

Section Compare.
Context {T : Type} `{!Comparable T}.
Implicit Types (s : State (T:=T)) (xs ys : list T).

Lemma bind_run {A B} (m : M (T:=T) A) (k : A → M B) s :
  (m ≫= k) s = match m s with Ok a s' => k a s' | Throw e s' => Throw e s' end.
Proof. reflexivity. Qed.

Lemma read_deref p x s : deref s p = Some x → read p s = Ok (Some x) s.
Proof.
  unfold deref, read. by destruct (slot_at (mem s) p) as [[|?]|]; intros [= ->].
Qed.

Lemma ptr_add_S p k : ptr_add (ptr_add p 1) k = ptr_add p (S k).
Proof.
  destruct p as [| |b i]; cbn [ptr_add]; [done..|]. f_equal. lia.
Qed.

Lemma ptr_add_0 p : ptr_add p 0 = p.
Proof. destruct p as [| |b i]; cbn [ptr_add]; [done..|]. f_equal. lia. Qed.

Lemma holds_cons s p x xs :
  holds s p (x :: xs) → deref s p = Some x ∧ holds s (ptr_add p 1) xs.
Proof.
  intros H. split.
  - rewrite <- (ptr_add_0 p). by apply (H 0).
  - intros k y Hk. rewrite ptr_add_S. by apply (H (S k)).
Qed.

Lemma equal_n_run p q xs ys s :
  length xs ≤ length ys → holds s p xs → holds s q ys →
  equal_n p q (length xs) s = Ok (seq_equal xs ys) s.
Proof.
  revert p q ys. induction xs as [|x xs IH]; intros p q ys Hlen Hp Hq; [done|].
  destruct ys as [|y ys]; [cbn [length] in Hlen; lia|].
  apply holds_cons in Hp as [Hx Hp]. apply holds_cons in Hq as [Hy Hq].
  cbn [equal_n length seq_equal]. rewrite bind_run, (read_deref p x) by done.
  rewrite bind_run, (read_deref q y) by done.
  destruct (elem_eq x y); [|done]. cbn [andb].
  apply IH; [cbn [length] in Hlen; lia|done..].
Qed.

Lemma lexicographical_compare_n_run p q xs ys s :
  holds s p xs → holds s q ys →
  lexicographical_compare_n p q (length xs) (length ys) s = Ok (seq_less xs ys) s.
Proof.
  revert p q ys. induction xs as [|x xs IH]; intros p q ys Hp Hq.
  { by destruct ys. }
  destruct ys as [|y ys]; [done|].
  apply holds_cons in Hp as [Hx Hp]. apply holds_cons in Hq as [Hy Hq].
  cbn [lexicographical_compare_n length seq_less].
  rewrite bind_run, (read_deref p x) by done.
  rewrite bind_run, (read_deref q y) by done.
  destruct (elem_lt x y); [done|]. destruct (elem_lt y x); [done|].
  by apply IH.
Qed.

Lemma seq_equal_eq xs ys :
  (∀ x y, elem_eq x y = true ↔ x = y) → length xs = length ys →
  seq_equal xs ys = true ↔ xs = ys.
Proof.
  intros Heq. revert ys. induction xs as [|x xs IH]; intros [|y ys] Hlen; try done.
  cbn [seq_equal]. rewrite andb_true_iff, Heq, IH by (cbn [length] in Hlen; lia).
  split; [by intros [-> ->]|by intros [= -> ->]].
Qed.

Lemma seq_less_before xs ys :
  (∀ x, elem_lt x x = false) →
  (∀ x y, elem_lt x y = false → elem_lt y x = false → x = y) →
  seq_less xs ys = true ↔ lex_before xs ys.
Proof.
  intros Hirr Hcon. revert ys. induction xs as [|x xs IH]; intros [|y ys].
  - split; [done|]. intros [(y & r & E)|(p & x & y & r1 & r2 & E & _)]; [done|].
    by destruct p.
  - split; [|done]. intros _. left. by exists y, ys.
  - split; [done|]. intros [(y & r & E)|(p & x' & y & r1 & r2 & _ & E & _)]; [done|].
    by destruct p.
  - cbn [seq_less]. destruct (elem_lt x y) eqn:Hxy.
    { split; [|done]. intros _. right. by exists [], x, y, xs, ys. }
    destruct (elem_lt y x) eqn:Hyx.
    { split; [done|].
      intros [(y' & r & [= -> E])|(p & x' & y' & r1 & r2 & E1 & E2 & Hlt)].
      - by rewrite Hirr in Hyx.
      - destruct p as [|a p]; cbn [app] in *.
        + injection E1 as -> _. injection E2 as -> _. congruence.
        + injection E1 as -> _. injection E2 as -> _. by rewrite Hirr in Hyx. }
    assert (x = y) as -> by by apply Hcon.
    rewrite IH. split.
    + intros [(y' & r & ->)|(p & x' & y' & r1 & r2 & -> & -> & Hlt)].
      * left. by exists y', r.
      * right. by exists (y :: p), x', y', r1, r2.
    + intros [(y' & r & [= E])|(p & x' & y' & r1 & r2 & E1 & E2 & Hlt)].
      * left. by exists y', r.
      * destruct p as [|a p]; cbn [app] in *.
        -- injection E1 as -> _. injection E2 as -> _. congruence.
        -- injection E1 as _ ->. injection E2 as _ ->.
           right. by exists p, x', y', r1, r2.
Qed.

Lemma seq_less_irrefl xs : (∀ x, elem_lt x x = false) → seq_less xs xs = false.
Proof. intros Hirr. induction xs as [|x xs IH]; [done|]. cbn. by rewrite Hirr. Qed.

Lemma seq_less_asym xs ys :
  (∀ x y, elem_lt x y = true → elem_lt y x = false) →
  seq_less xs ys = true → seq_less ys xs = false.
Proof.
  intros Hasym. revert ys. induction xs as [|x xs IH]; intros [|y ys]; try done.
  cbn [seq_less]. destruct (elem_lt x y) eqn:Hxy.
  - intros _. by rewrite (Hasym x y).
  - destruct (elem_lt y x); [done|]. apply IH.
Qed.

Lemma seq_less_total xs ys :
  (∀ x y, elem_lt x y = false → elem_lt y x = false → x = y) →
  seq_less xs ys = true ∨ xs = ys ∨ seq_less ys xs = true.
Proof.
  intros Hcon. revert ys. induction xs as [|x xs IH]; intros [|y ys]; auto.
  cbn [seq_less]. destruct (elem_lt x y) eqn:Hxy; [auto|].
  destruct (elem_lt y x) eqn:Hyx; [auto|].
  assert (x = y) as -> by by apply Hcon.
  destruct (IH ys) as [?|[->|?]]; auto.
Qed.

Lemma owns_holds xs s :
  owns (mem s) (this s) xs → holds s (vector_ (this s)) xs.
Proof. intros Hown k x Hk. by rewrite (owns_deref xs s k Hown). Qed.

Lemma holds_other (v : Vector) xs s :
  owns (mem s) v xs → holds s (vector_ v) xs.
Proof.
  intros Hown. apply (owns_holds xs (set_this v s)). done.
Qed.

Lemma owns_range (v : Vector) xs w :
  owns w v xs → range_len (vector_ v) (ptr_add (vector_ v) (size_ v)) = Some (length xs).
Proof.
  intros (Hsz & Hle & _ & Hv). rewrite Hsz.
  destruct (vector_ v) as [| |b [|?]]; try done.
  - assert (xs = []) as -> by (destruct xs; [done|simpl in *; lia]). done.
  - apply range_len_At.
Qed.

Lemma operator_eq_run (other : Vector) xs ys s :
  owns (mem s) (this s) xs → owns (mem s) other ys →
  operator_eq other s =
  Ok (bool_decide (length xs = length ys) && seq_equal xs ys) s.
Proof.
  intros Hthis Hother. pose proof (owns_range _ _ _ Hthis) as Hr.
  pose proof Hthis as (Hsz & _). pose proof Hother as (Hsz' & _).
  unfold operator_eq, begin, end_. mrun. rewrite Hsz, Hsz'.
  case_bool_decide as Hlen; [|done]. mrun. cbn [andb].
  unfold equal. rewrite Hr.
  apply equal_n_run; [lia|by apply owns_holds|by apply holds_other].
Qed.

Lemma operator_lt_run (other : Vector) xs ys s :
  owns (mem s) (this s) xs → owns (mem s) other ys →
  operator_lt other s = Ok (seq_less xs ys) s.
Proof.
  intros Hthis Hother. pose proof (owns_range _ _ _ Hthis) as Hr.
  pose proof (owns_range _ _ _ Hother) as Hr'.
  unfold operator_lt, begin, end_. mrun.
  unfold lexicographical_compare. rewrite Hr, Hr'.
  apply lexicographical_compare_n_run; [by apply owns_holds|by apply holds_other].
Qed.

Lemma operator_gt_run (other : Vector) xs ys s :
  owns (mem s) (this s) xs → owns (mem s) other ys →
  operator_gt other s = Ok (seq_less ys xs) s.
Proof.
  intros Hthis Hother. unfold operator_gt. rewrite bind_run. unfold gets.
  rewrite bind_run. unfold on_object.
  rewrite (operator_lt_run (this s) ys xs (set_this other s)) by done.
  cbn [fst]. by destruct s.
Qed.

End Compare.

(** * Sequences of calls *)

Section Sequences.
Context {T : Type} `{!Element T}.
Implicit Types (s : State (T:=T)) (w : World (T:=T)) (xs : list T).
Variable O : Oracle.

Lemma perform_all_app (cs cs' : list (Call T)) s :
  perform_all O (cs ++ cs') s =
  match perform_all O cs s with
  | Ok _ s1 => perform_all O cs' s1
  | Throw e s1 => Throw e s1
  end.
Proof.
  revert s. induction cs as [|c cs IH]; intros s; [done|].
  cbn [app perform_all]. rewrite !bind_eq.
  destruct (perform O c s) as [[] s1|e s1]; [apply IH|done].
Qed.

Lemma list_after_all_app (cs cs' : list (Call T)) xs cap :
  list_after_all (cs ++ cs') xs cap
  = list_after_all cs' (list_after_all cs xs cap) (capacity_after_all cs xs cap).
Proof. revert xs cap. induction cs as [|c cs IH]; intros xs cap; [done|]. apply IH. Qed.

(** A [PushBack] into a container with room left. *)
Lemma PushBack_with_room k x xs s :
  owns (mem s) (this s) xs → length xs < capacity_ (this s) →
  ctor_throws O k (n_ctor (mem s)) = false →
  ∃ s', PushBack_with O k (Object x) s = Ok tt s' ∧
        clean_step s s' xs (xs ++ [x]) ∧
        vector_ (this s') = vector_ (this s) ∧
        capacity_ (this s') = capacity_ (this s) ∧
        n_alloc (mem s') = n_alloc (mem s) ∧
        n_ctor (mem s') = 1 + n_ctor (mem s).
Proof.
  intros (Hsz & Hle & Hfit & Hv) Hroom Hc.
  destruct s as [[v sz cap] fr w]. cbn [this mem frame vector_ size_ capacity_] in *.
  subst sz. unfold PushBack_with. mrun.
  rewrite bool_decide_eq_false_2 by lia.
  destruct v as [| |b [|?]]; try done; [lia|].
  mrun. cbn [ptr_add Nat.add].
  erewrite construct_at_ok; [|done|done|].
  2:{ apply block_of_lookup_raw; lia. }
  mrun. eexists. split; [reflexivity|]. mrun.
  split; [|done].
  unfold clean_step. cbn [this mem frame heap n_ctor n_dtor faults].
  split; [|do 2 (split; [done|]); split; [rewrite length_app; cbn [length]; lia|]].
  - unfold owns. cbn [vector_ size_ capacity_].
    rewrite size_add_1 by (eapply fits_le; [|done]; lia).
    rewrite length_app. cbn [length]. repeat split; try done; try lia.
    unfold block_at. cbn [heap].
    rewrite list_lookup_insert_eq by by eapply block_at_lt.
    cbn [mjoin option_join ptr_add plus]. by rewrite block_of_snoc by lia.
  - heap_same b.
Qed.

(** A [PushBack] of an object of the caller's appends it, whatever the
    capacity. *)
Lemma is_PushBack_inv (c : Call T) xs cap :
  is_PushBack c = true →
  ∃ k x, perform O c = PushBack_with O k (Object x) ∧ list_after c xs cap = xs ++ [x].
Proof.
  destruct c as [[x|?]|[x|?]| | | | | |]; try done; intros _;
    [exists CopyCtor, x|exists MoveCtor, x];
    (split; [done|]); cbn [list_after arg_value after_move taken];
    by destruct (bool_decide _).
Qed.

Lemma list_after_PushBack (c : Call T) xs cap :
  is_PushBack c = true → length (list_after c xs cap) = S (length xs).
Proof.
  destruct c as [[x|?]|[x|?]| | | | | |]; try done; intros _;
    cbn [list_after arg_value after_move taken];
    destruct (bool_decide _); rewrite length_app; cbn [length]; lia.
Qed.

Lemma pushes_room (cs : list (Call T)) xs s :
  owns (mem s) (this s) xs → forallb is_PushBack cs = true →
  length xs + length cs ≤ capacity_ (this s) →
  quiet O (n_ctor (mem s)) (length cs) →
  ∃ s', perform_all O cs s = Ok tt s' ∧
        clean_step s s' xs (list_after_all cs xs (capacity_ (this s))) ∧
        vector_ (this s') = vector_ (this s) ∧
        capacity_ (this s') = capacity_ (this s) ∧
        n_alloc (mem s') = n_alloc (mem s) ∧
        n_ctor (mem s') = length cs + n_ctor (mem s).
Proof.
  revert xs s. induction cs as [|c cs IH]; intros xs s Hown Hall Hroom Hq.
  - exists s. split; [done|]. split; [by apply clean_step_refl|done].
  - cbn [forallb length perform_all list_after_all] in *.
    apply andb_prop in Hall as [Hc Hall].
    destruct (is_PushBack_inv c xs (capacity_ (this s)) Hc) as (k & x & Ec & El).
    destruct (PushBack_with_room k x xs s Hown) as (s1 & E1 & Hstep1 & Hv1 & Hcap1 & Ha1 & Hc1);
      [lia|by eapply quiet_head|].
    assert (Hcap : capacity_after c xs (capacity_ (this s)) = capacity_ (this s1)).
    { rewrite Hcap1. destruct c as [?|?| | | | | |]; try done;
        cbn [capacity_after]; rewrite bool_decide_eq_false_2; lia || done. }
    rewrite Hcap, El.
    destruct (IH (xs ++ [x]) s1) as (s' & E & Hstep & Hv & Hcap' & Ha & Hc');
      [by destruct Hstep1|done| |rewrite Hc1; by apply quiet_tail|].
    { rewrite length_app, Hcap1. cbn [length]. lia. }
    exists s'. rewrite bind_eq, Ec, E1. split; [done|].
    split; [by eapply clean_step_trans|].
    repeat split; try congruence. lia.
Qed.

Lemma length_after_pushes (cs : list (Call T)) xs cap :
  forallb is_PushBack cs = true →
  length (list_after_all cs xs cap) = length xs + length cs.
Proof.
  revert xs cap. induction cs as [|c cs IH]; intros xs cap Hall; [cbn; lia|].
  cbn [forallb list_after_all length] in *. apply andb_prop in Hall as [Hc Hall].
  rewrite IH, list_after_PushBack by done. lia.
Qed.

(** [PushBack]s into a container that starts without storage: the capacity
    doubles from 1, so after [N] of them it is the power of two between
    [N] and [2N]. *)
Lemma pushes_geometric (cs : list (Call T)) s :
  never_throws O → owns (mem s) (this s) [] → capacity_ (this s) = 0 →
  forallb is_PushBack cs = true → fits (2 * length cs) = true →
  ∃ s', perform_all O cs s = Ok tt s' ∧
        clean_step s s' [] (list_after_all cs [] 0) ∧
        (cs = [] ∨
         ∃ e, capacity_ (this s') = 2 ^ e ∧
              length cs ≤ 2 ^ e ∧ 2 ^ e < 2 * length cs ∧
              n_alloc (mem s') = S e + n_alloc (mem s) ∧
              n_ctor (mem s') + 1 = length cs + 2 ^ e + n_ctor (mem s)).
Proof.
  intros Hn Hown Hcap0. induction cs as [|c cs IH] using rev_ind; intros Hall Hfit.
  - exists s. split; [done|]. split; [by apply clean_step_refl|by left].
  - rewrite forallb_app in Hall. apply andb_prop in Hall as [Hall Hc].
    cbn [forallb] in Hc. rewrite andb_true_r in Hc.
    rewrite length_app in Hfit. cbn [length] in Hfit.
    destruct IH as (s1 & E1 & Hstep1 & Hshape); [done|eapply fits_le; [|done]; lia|].
    pose proof (length_after_pushes cs [] 0 Hall) as Hlen. cbn [length Nat.add] in Hlen.
    destruct (is_PushBack_inv c (list_after_all cs [] 0) (capacity_after_all cs [] 0) Hc)
      as (k & x & Ec & El).
    destruct (PushBack_with_step O k x (list_after_all cs [] 0) s1 Hn)
      as (s' & E & Hstep & Hcap & Ha & Hc' & _);
      [by destruct Hstep1|rewrite Hlen; eapply fits_le; [|done]; lia|].
    exists s'. rewrite perform_all_app, E1. cbn [perform_all]. rewrite bind_eq, Ec, E.
    split; [done|]. rewrite list_after_all_app. cbn [list_after_all].
    split; [eapply clean_step_trans; [done|]; by rewrite El|].
    right. rewrite length_app. cbn [length]. rewrite Hlen in *.
    destruct Hshape as [->|(e & Hcap1 & Hlo & Hhi & Ha1 & Hc1)].
    + assert (s1 = s) as -> by (cbn [perform_all] in E1; by injection E1).
      cbn [length] in *. rewrite Hcap0 in *.
      rewrite bool_decide_eq_true_2 in Hcap, Ha, Hc' by done.
      exists 0. cbn [Nat.pow]. repeat split; lia.
    + rewrite Hcap1 in *. case_bool_decide as Hfull.
      * exists (S e). rewrite Nat.pow_succ_r'. repeat split; lia.
      * exists e. repeat split; lia.
Qed.

End Sequences.

Section Prefix.
Context {T : Type} `{!Element T}.

Lemma pushes_append (cs : list (Call T)) (xs : list T) cap :
  forallb is_PushBack cs = true → ∃ ys, list_after_all cs xs cap = xs ++ ys.
Proof.
  revert xs cap. induction cs as [|c cs IH]; intros xs cap Hall.
  - exists []. by rewrite app_nil_r.
  - cbn [forallb list_after_all] in *. apply andb_prop in Hall as [Hc Hall].
    destruct (IH (list_after c xs cap) (capacity_after c xs cap) Hall) as (ys & ->).
    destruct c as [[x|?]|[x|?]| | | | | |]; try done;
      cbn [list_after arg_value after_move taken];
      destruct (bool_decide _); rewrite <- app_assoc; eauto.
Qed.

(** Where no argument is an element of the container, or a move leaves
    its source as it was, the calls are the plain list operations. *)
Lemma list_after_plain (c : Call T) (xs : list T) cap :
  by_value c = true ∨ (∀ x : T, moved_from x = x) →
  list_after c xs cap = plain_list_after c xs.
Proof.
  intros Hor.
  assert (Ham : ∀ a y, (by_value (CallPushBack a) = true ∨ (∀ x : T, moved_from x = x)) →
                       after_move a y = y ∧ taken a xs = xs).
  { intros [x|i] y [Hv|Hid]; cbn [after_move taken]; try done.
    split; [apply Hid|by apply list_alter_id]. }
  destruct c as [a|a| |n|n a|n| |]; cbn [list_after plain_list_after]; try done.
  - destruct (arg_value a xs) as [y|]; [|done].
    destruct (Ham a y) as [-> _]; [destruct a; auto|]. by destruct (bool_decide _).
  - destruct (arg_value a xs) as [y|]; [|done].
    destruct (Ham a y) as [-> ->]; [destruct a; auto|]. by destruct (bool_decide _).
  - destruct (arg_value a xs) as [y|]; [|done].
    destruct (Ham a y) as [-> _]; [destruct a; auto|]. by destruct (bool_decide _).
Qed.

Lemma list_after_all_plain (cs : list (Call T)) (xs : list T) cap :
  forallb by_value cs = true ∨ (∀ x : T, moved_from x = x) →
  list_after_all cs xs cap = plain_list_after_all cs xs.
Proof.
  revert xs cap. induction cs as [|c cs IH]; intros xs cap Hor; [done|].
  cbn [list_after_all plain_list_after_all].
  rewrite list_after_plain, IH; [done| |].
  - destruct Hor as [Hall|?]; [|by right]. left.
    cbn [forallb] in Hall. by apply andb_prop in Hall as [_ ?].
  - destruct Hor as [Hall|?]; [|by right]. left.
    cbn [forallb] in Hall. by apply andb_prop in Hall as [? _].
Qed.

End Prefix.

(** * Arguments that are elements of the container *)

Section Aliasing.
Context {T : Type} `{!Element T}.
Implicit Types (s : State (T:=T)) (xs : list T).
Variable O : Oracle.

Lemma bind_arg_names (a : Arg T) (y : T) xs s :
  owns (mem s) (this s) xs → arg_value a xs = Some y →
  ∃ value, bind_arg a s = Ok value s ∧
           match value with
           | Object x => x = y
           | Stored p => deref s p = Some y
           end.
Proof.
  intros Hown Ha. destruct a as [x|i]; cbn [arg_value] in Ha.
  - exists (Object x). split; [done|congruence].
  - exists (Stored (ptr_add (vector_ (this s)) i)). split; [done|].
    by rewrite (owns_deref xs s i Hown).
Qed.

Lemma PushBack_own_ok k i y xs s :
  k ≠ DefaultCtor →
  never_throws O → owns (mem s) (this s) xs → xs !! i = Some y →
  fits (2 * (length xs + 1)) = true →
  ∃ p s',
    index i s = Ok p s ∧ deref s p = Some y ∧
    PushBack_with O k (Stored p) s = Ok tt s' ∧
    Size s' = Ok (S (length xs)) s' ∧
    (length xs = capacity_ (this s) →
       owns (mem s') (this s') (xs ++ [moved_from y])) ∧
    (length xs < capacity_ (this s) →
       owns (mem s') (this s')
         (match k with MoveCtor => alter moved_from i xs | _ => xs end ++ [y])) ∧
    faults (mem s') = faults (mem s).
Proof.
  intros Hk Hn Hown Hi Hfit.
  destruct (PushBack_own_step O k i y xs s Hk Hn Hown Hi Hfit)
    as (s' & E & (Hown' & _ & Hf & _) & _).
  exists (ptr_add (vector_ (this s)) i), s'. split; [done|].
  split; [by rewrite (owns_deref xs s i Hown)|]. split; [done|].
  split; [|split; [|split; [|done]]].
  - unfold Size, get_size_, gets. destruct Hown' as (-> & _). do 2 f_equal.
    case_bool_decide; rewrite length_app; cbn [length]; [lia|].
    destruct k; rewrite ?length_alter; lia.
  - intros Hfull. by rewrite bool_decide_eq_true_2 in Hown' by done.
  - intros Hroom. by rewrite bool_decide_eq_false_2 in Hown' by lia.
Qed.


End Aliasing.

(** C1: a sequence of N [PushBack] calls, by const reference or by rvalue,
    on a default-constructed container leaves [Size()] at N and, where the
    pushed values are objects of the caller's, the [i]-th pushed value at
    each index [i < N] (no allocation and no construction throwing, and
    the requests within what the allocator can give).  [PushBack] takes
    its argument by reference, though, and where the argument is an
    element [a[i]] of the container itself the two paths differ: with
    room left the new element is built from [a[i]] as it is, but on a full
    container the elements are moved to the new block first and the new
    element is built from what the move left in the old slot, so that the
    element added is the moved-from value and not the pushed one.
    [Vector<buffer> a; a.PushBack({1,2}); a.PushBack(a[0]);] ends with
    size 2 and an empty buffer at index 1. *)
Theorem PushBack_sequence_and_own_element :
  (∀ (T : Type) (E : Element T) (O : Oracle) (cs : list (push T)) (s : State (T:=T)),
     never_throws O → fits (2 * length cs) = true →
     ∃ s', (Vector_default;; push_all O cs) s = Ok tt s' ∧
           Size s' = Ok (length cs) s' ∧
           (∀ i c, cs !! i = Some c → element s' i = Some (pushed c)) ∧
           faults (mem s') = faults (mem s)) ∧
  (∀ (T : Type) (E : Element T) (O : Oracle) (k : ctor_kind) (i : nat) (y : T)
     (xs : list T) (s : State (T:=T)),
     k ≠ DefaultCtor →
     never_throws O → owns (mem s) (this s) xs → xs !! i = Some y →
     fits (2 * (length xs + 1)) = true →
     ∃ p s',
       index i s = Ok p s ∧ deref s p = Some y ∧
       PushBack_with O k (Stored p) s = Ok tt s' ∧
       Size s' = Ok (S (length xs)) s' ∧
       (length xs = capacity_ (this s) →
          owns (mem s') (this s') (xs ++ [moved_from y])) ∧
       (length xs < capacity_ (this s) →
          owns (mem s') (this s')
            (match k with MoveCtor => alter moved_from i xs | _ => xs end ++ [y])) ∧
       faults (mem s') = faults (mem s)) ∧
  (∃ s1 p s2,
     (Vector_default;; PushBack never (Object [1; 2]%Z)) boot = Ok tt s1 ∧
     index 0 s1 = Ok p s1 ∧ deref s1 p = Some [1; 2]%Z ∧
     PushBack never (Stored p) s1 = Ok tt s2 ∧
     Size s2 = Ok 2 s2 ∧
     element s2 0 = Some [1; 2]%Z ∧ element s2 1 = Some []%Z ∧
     faults (mem s2) = []).
Proof.
  split; [|split].
  - intros T E O cs s Hn Hfit. rewrite bind_eq.
    destruct (Vector_default_owns s) as (s0 & -> & Hown0 & Hmem & _).
    destruct (push_all_ok O cs [] s0 Hn Hown0 Hfit) as (s' & E' & Hown & Hf).
    exists s'. split; [done|]. cbn [app] in Hown. repeat split.
    + unfold Size, get_size_, gets. destruct Hown as (-> & _). by rewrite length_fmap.
    + intros i c Hi. eapply owns_element; [done|]. by rewrite list_lookup_fmap, Hi.
    + by rewrite Hf, Hmem.
  - intros. by apply PushBack_own_ok.
  - do 3 eexists. split; [vm_compute; reflexivity|].
    split; [vm_compute; reflexivity|].
    repeat (split; [vm_compute; reflexivity|]). vm_compute; reflexivity.
Qed.

Lemma PushBack_sequence_and_own_element_witness :
  never_throws never ∧ fits (2 * 3) = true ∧
  CopyCtor ≠ DefaultCtor ∧
  owns (mem two_buffers) (this two_buffers) [[1; 2]; [1; 2]]%Z ∧
  [[1; 2]; [1; 2]]%Z !! 0 = Some [1; 2]%Z ∧
  length [[1; 2]; [1; 2]]%Z = capacity_ (this two_buffers) ∧
  (∃ s', (Vector_default;;
          push_all never [ByConstRef 1%Z; ByRvalue 2%Z; ByConstRef 3%Z]) boot = Ok tt s' ∧
         Size s' = Ok 3 s' ∧
         (∀ i c, [ByConstRef 1%Z; ByRvalue 2%Z; ByConstRef 3%Z] !! i = Some c →
                 element s' i = Some (pushed c)) ∧
         faults (mem s') = faults (mem (boot (T:=Z)))) ∧
  (∃ p s',
     index 0 two_buffers = Ok p two_buffers ∧ deref two_buffers p = Some [1; 2]%Z ∧
     PushBack never (Stored p) two_buffers = Ok tt s' ∧
     Size s' = Ok 3 s' ∧
     owns (mem s') (this s') [[1; 2]; [1; 2]; []]%Z).
Proof.
  assert (H : owns (mem two_buffers) (this two_buffers) [[1; 2]; [1; 2]]%Z).
  { split; [vm_compute; reflexivity|]. split; [vm_compute; lia|].
    split; vm_compute; reflexivity. }
  split; [by split|]. split; [reflexivity|]. split; [discriminate|].
  split; [exact H|]. split; [reflexivity|]. split; [reflexivity|]. split.
  - apply (proj1 PushBack_sequence_and_own_element Z _ never
             [ByConstRef 1%Z; ByRvalue 2%Z; ByConstRef 3%Z] boot); [by split|reflexivity].
  - destruct (proj1 (proj2 PushBack_sequence_and_own_element) (list Z) _ never CopyCtor 0
                [1; 2]%Z [[1; 2]; [1; 2]]%Z two_buffers)
      as (p & s' & E1 & E2 & E3 & E4 & Hfull & _); [discriminate|by split|exact H| | |].
    + reflexivity.
    + reflexivity.
    + exists p, s'. do 4 (split; [done|]). apply Hfull. reflexivity.
Defined.



(** [Resize(4, a[0])] on two buffers at capacity 2: the container grows,
    and the new slots hold empty buffers, copies of the moved-from
    [a[0]]. *)
Example Resize_with_own_element :
  (λ s', (this s', block_at (mem s') 1, faults (mem s')))
    (final ((value ← bind_arg (Own 0); Resize_fill never 4 value) two_buffers)) =
  ({| vector_ := Ptr 1 0; size_ := 4; capacity_ := 4 |},
   Some [Live [1; 2]; Live [1; 2]; Live []; Live []]%Z,
   []).
Proof. vm_compute. reflexivity. Qed.

(** * Properties of the rest of the interface *)

(** * Element access and iteration *)

Section Reading.
Context {T : Type}.
Implicit Types (s : State (T:=T)) (xs : list T).

(** X1: [operator[]] never throws and changes nothing; for an index below
    the size the reference it gives refers to the element at that index,
    and for any other index it refers to no element at all. *)
Theorem index_reads_element (i : nat) xs s :
  owns (mem s) (this s) xs →
  ∃ p, index i s = Ok p s ∧ deref s p = xs !! i.
Proof.
  intros Hown. unfold index. mrun. eexists. split; [reflexivity|].
  by apply owns_deref.
Qed.

(** X2: [Front()] refers to the first element and [Back()] to the last one;
    on an empty container neither refers to an element ([Back()] then
    takes the slot at index [size_ - 1], which wraps around in
    [std::size_t]).  Neither throws or changes anything. *)
Theorem Front_Back_first_last xs s :
  owns (mem s) (this s) xs →
  (∃ p, Front s = Ok p s ∧ deref s p = head xs) ∧
  (∃ p, Back s = Ok p s ∧ deref s p = last xs).
Proof.
  intros Hown. split.
  - unfold Front. mrun. eexists. split; [reflexivity|].
    rewrite (owns_deref xs s 0 Hown). by destruct xs.
  - unfold Back. mrun. eexists. split; [reflexivity|].
    rewrite (owns_deref xs s _ Hown). destruct Hown as (Hsz & Hle & Hfit & _).
    rewrite Hsz. destruct (decide (xs = [])) as [->|Hne]; [done|].
    assert (0 < length xs) by (destruct xs; [done|cbn [length]; lia]).
    rewrite size_sub_le by (lia || by eapply fits_le).
    rewrite last_lookup. f_equal. lia.
Qed.

(** X3: [Data()] is null for a container of capacity 0 and the address of
    the storage otherwise; counting from it, slot [i] holds the element at
    index [i] for [i] below the size and no element beyond. *)
Theorem Data_addresses_elements xs s :
  owns (mem s) (this s) xs →
  ∃ p, Data s = Ok p s ∧
       (capacity_ (this s) = 0 → p = Null) ∧
       (0 < capacity_ (this s) → p = vector_ (this s)) ∧
       ∀ i, deref s (ptr_add p i) = xs !! i.
Proof.
  intros Hown. unfold Data. mrun. case_bool_decide as Hcap.
  - exists Null. split; [done|]. split; [done|]. split; [lia|].
    destruct Hown as (_ & Hle & _). rewrite Hcap in Hle.
    assert (xs = []) as -> by (destruct xs; [done|cbn [length] in Hle; lia]).
    by intros [|i].
  - eexists. split; [reflexivity|]. split; [done|]. split; [done|].
    intros i. by apply owns_deref.
Qed.

(** X4: the range from [begin()] to [end()] has as many slots as the
    container has elements, and a loop over it visits the elements in index
    order; a loop from [rbegin()] to [rend()] visits them in the opposite
    order.  [cbegin()], [cend()], [crbegin()] and [crend()] give the same
    iterators. *)
Theorem iterators_visit_elements xs s :
  owns (mem s) (this s) xs →
  ∃ b e, begin s = Ok b s ∧ end_ s = Ok e s ∧
         cbegin s = Ok b s ∧ cend s = Ok e s ∧
         rbegin s = Ok {| base := e |} s ∧ rend s = Ok {| base := b |} s ∧
         crbegin s = Ok {| base := e |} s ∧ crend s = Ok {| base := b |} s ∧
         range_len b e = Some (length xs) ∧
         (∀ fuel, length xs ≤ fuel → visit s fuel b e = Some xs) ∧
         (∀ fuel, length xs ≤ fuel →
                  rvisit s fuel {| base := e |} {| base := b |} = Some (reverse xs)).
Proof.
  intros (Hsz & Hle & Hfit & Hv).
  exists (vector_ (this s)), (ptr_add (vector_ (this s)) (size_ (this s))).
  do 8 (split; [done|]). rewrite Hsz.
  destruct (vector_ (this s)) as [| |b [|?]]; try done.
  - assert (xs = []) as -> by (destruct xs; [done|simpl in *; lia]).
    cbn [length ptr_add]. split; [done|].
    split; intros [|fuel] _; cbn [visit rvisit base]; by rewrite bool_decide_eq_true_2.
  - split; [apply range_len_At|]. cbn [ptr_add Nat.add]. split.
    + intros fuel Hfuel. apply (visit_ok b (block_of xs (capacity_ (this s))) xs s Hv fuel 0 Hfuel).
      intros k x Hk. by apply block_of_live.
    + intros fuel Hfuel. apply (rvisit_ok b (block_of xs (capacity_ (this s))) s Hv fuel xs Hfuel).
      intros k x Hk. by apply block_of_live.
Qed.

End Reading.

Lemma three_sevens_owns : owns (mem three_sevens) (this three_sevens) [7; 7; 7]%Z.
Proof.
  split; [vm_compute; reflexivity|]. split; [vm_compute; lia|].
  split; vm_compute; reflexivity.
Qed.

Lemma index_reads_element_witness :
  owns (mem three_sevens) (this three_sevens) [7; 7; 7]%Z ∧
  ∃ p, index 5 three_sevens = Ok p three_sevens ∧
       deref three_sevens p = [7; 7; 7]%Z !! 5.
Proof.
  split; [exact three_sevens_owns|].
  exact (index_reads_element 5 [7; 7; 7]%Z three_sevens three_sevens_owns).
Defined.

Lemma Front_Back_first_last_witness :
  owns (mem three_sevens) (this three_sevens) [7; 7; 7]%Z ∧
  (∃ p, Front three_sevens = Ok p three_sevens ∧
        deref three_sevens p = head [7; 7; 7]%Z) ∧
  (∃ p, Back three_sevens = Ok p three_sevens ∧
        deref three_sevens p = last [7; 7; 7]%Z).
Proof.
  split; [exact three_sevens_owns|].
  exact (Front_Back_first_last [7; 7; 7]%Z three_sevens three_sevens_owns).
Defined.

Lemma Data_addresses_elements_witness :
  owns (mem three_sevens) (this three_sevens) [7; 7; 7]%Z ∧
  ∃ p, Data three_sevens = Ok p three_sevens ∧
       (capacity_ (this three_sevens) = 0 → p = Null) ∧
       (0 < capacity_ (this three_sevens) → p = vector_ (this three_sevens)) ∧
       ∀ i, deref three_sevens (ptr_add p i) = [7; 7; 7]%Z !! i.
Proof.
  split; [exact three_sevens_owns|].
  exact (Data_addresses_elements [7; 7; 7]%Z three_sevens three_sevens_owns).
Defined.

Lemma iterators_visit_elements_witness :
  owns (mem three_sevens) (this three_sevens) [7; 7; 7]%Z ∧
  ∃ b e, begin three_sevens = Ok b three_sevens ∧ end_ three_sevens = Ok e three_sevens ∧
         cbegin three_sevens = Ok b three_sevens ∧ cend three_sevens = Ok e three_sevens ∧
         rbegin three_sevens = Ok {| base := e |} three_sevens ∧
         rend three_sevens = Ok {| base := b |} three_sevens ∧
         crbegin three_sevens = Ok {| base := e |} three_sevens ∧
         crend three_sevens = Ok {| base := b |} three_sevens ∧
         range_len b e = Some (length [7; 7; 7]%Z) ∧
         (∀ fuel, length [7; 7; 7]%Z ≤ fuel →
                  visit three_sevens fuel b e = Some [7; 7; 7]%Z) ∧
         (∀ fuel, length [7; 7; 7]%Z ≤ fuel →
                  rvisit three_sevens fuel {| base := e |} {| base := b |}
                  = Some (reverse [7; 7; 7]%Z)).
Proof.
  split; [exact three_sevens_owns|].
  exact (iterators_visit_elements [7; 7; 7]%Z three_sevens three_sevens_owns).
Defined.

(** * Comparison *)

Section Comparing.
Context {T : Type} `{!Comparable T}.
Implicit Types (s : State (T:=T)) (xs ys : list T).

(** X5: for an element type whose [operator==] is equality, [a == b] is
    true exactly when the two containers hold the same elements in the
    same order, whatever their capacities; [a != b] is its negation.
    Neither changes anything. *)
Theorem operator_eq_same_elements (other : Vector) xs ys s :
  (∀ x y, elem_eq x y = true ↔ x = y) →
  owns (mem s) (this s) xs → owns (mem s) other ys →
  ∃ r, operator_eq other s = Ok r s ∧
       operator_ne other s = Ok (negb r) s ∧
       (r = true ↔ xs = ys).
Proof.
  intros Heq Hthis Hother.
  exists (bool_decide (length xs = length ys) && seq_equal xs ys).
  split; [by apply operator_eq_run|]. split.
  - unfold operator_ne. rewrite bind_run. by rewrite (operator_eq_run other xs ys).
  - rewrite andb_true_iff, bool_decide_eq_true. split.
    + intros [Hlen Hs]. by apply seq_equal_eq.
    + intros ->. split; [done|]. by apply seq_equal_eq.
Qed.

(** X6: for an element type whose [operator<] is irreflexive and relates
    any two different elements one way or the other, [a < b] is true
    exactly when [a] comes before [b] in lexicographic order: [a] is a
    proper prefix of [b], or at the first index where they differ the
    element of [a] is the lesser.  [a >= b] is its negation. *)
Theorem operator_lt_lexicographic (other : Vector) xs ys s :
  (∀ x, elem_lt x x = false) →
  (∀ x y, elem_lt x y = false → elem_lt y x = false → x = y) →
  owns (mem s) (this s) xs → owns (mem s) other ys →
  ∃ r, operator_lt other s = Ok r s ∧
       operator_ge other s = Ok (negb r) s ∧
       (r = true ↔ lex_before xs ys).
Proof.
  intros Hirr Hcon Hthis Hother. exists (seq_less xs ys).
  split; [by apply operator_lt_run|]. split.
  - unfold operator_ge. rewrite bind_run. by rewrite (operator_lt_run other xs ys).
  - by apply seq_less_before.
Qed.

(** X7: for an element type with equality and a strict total order, of
    [a < b], [a == b] and [a > b] exactly one is true, [a <= b] is
    [a < b || a == b], [a >= b] is [a > b || a == b] and [a != b] is
    [a < b || a > b]. *)
Theorem comparisons_agree (other : Vector) xs ys s :
  (∀ x y, elem_eq x y = true ↔ x = y) →
  (∀ x y, elem_lt x y = true → elem_lt y x = false) →
  (∀ x y, elem_lt x y = false → elem_lt y x = false → x = y) →
  owns (mem s) (this s) xs → owns (mem s) other ys →
  ∃ lt eq gt,
    operator_lt other s = Ok lt s ∧ operator_eq other s = Ok eq s ∧
    operator_gt other s = Ok gt s ∧
    operator_le other s = Ok (lt || eq) s ∧
    operator_ge other s = Ok (gt || eq) s ∧
    operator_ne other s = Ok (lt || gt) s ∧
    lt || eq || gt = true ∧
    lt && eq = false ∧ lt && gt = false ∧ eq && gt = false.
Proof.
  intros Heq Hasym Hcon Hthis Hother.
  assert (Hirr : ∀ x, elem_lt x x = false).
  { intros x. destruct (elem_lt x x) eqn:E; [|done]. by rewrite (Hasym x x E) in E. }
  set (lt := seq_less xs ys). set (gt := seq_less ys xs).
  set (eq := bool_decide (length xs = length ys) && seq_equal xs ys).
  assert (Heq' : eq = true ↔ xs = ys).
  { unfold eq. rewrite andb_true_iff, bool_decide_eq_true. split.
    - intros [Hlen Hs]. by apply seq_equal_eq.
    - intros ->. split; [done|]. by apply seq_equal_eq. }
  assert (Hone : lt || eq || gt = true ∧
                 lt && eq = false ∧ lt && gt = false ∧ eq && gt = false).
  { pose proof (seq_less_total xs ys Hcon) as Htot.
    pose proof (seq_less_asym xs ys Hasym) as H1.
    pose proof (seq_less_asym ys xs Hasym) as H2.
    fold lt gt in Htot, H1, H2.
    assert (eq = true → lt = false ∧ gt = false) as H3.
    { intros E. apply Heq' in E. unfold lt, gt. rewrite E.
      by rewrite seq_less_irrefl. }
    assert (xs = ys → eq = true) as H4 by apply Heq'.
    destruct lt, eq, gt; intuition congruence. }
  exists lt, eq, gt.
  split; [by apply operator_lt_run|]. split; [by apply operator_eq_run|].
  split; [by apply operator_gt_run|].
  split; [|split; [|split; [|done]]].
  - unfold operator_le. rewrite bind_run, (operator_gt_run other xs ys) by done.
    fold gt. unfold mret, M_ret. f_equal.
    destruct Hone as (? & ? & ? & ?). by destruct lt, eq, gt.
  - unfold operator_ge. rewrite bind_run, (operator_lt_run other xs ys) by done.
    fold lt. unfold mret, M_ret. f_equal.
    destruct Hone as (? & ? & ? & ?). by destruct lt, eq, gt.
  - unfold operator_ne. rewrite bind_run, (operator_eq_run other xs ys) by done.
    fold eq. unfold mret, M_ret. f_equal.
    destruct Hone as (? & ? & ? & ?). by destruct lt, eq, gt.
Qed.

End Comparing.

Lemma seven_seven_eight_owns :
  owns (mem seven_seven_eight) (this seven_seven_eight) [7; 7; 8]%Z ∧
  owns (mem seven_seven_eight) (this three_sevens) [7; 7; 7]%Z.
Proof.
  split; (split; [vm_compute; reflexivity|]; split; [vm_compute; lia|];
          split; vm_compute; reflexivity).
Qed.

Lemma operator_eq_same_elements_witness :
  (∀ x y : Z, elem_eq x y = true ↔ x = y) ∧
  owns (mem seven_seven_eight) (this seven_seven_eight) [7; 7; 8]%Z ∧
  owns (mem seven_seven_eight) (this three_sevens) [7; 7; 7]%Z ∧
  ∃ r, operator_eq (this three_sevens) seven_seven_eight = Ok r seven_seven_eight ∧
       operator_ne (this three_sevens) seven_seven_eight = Ok (negb r) seven_seven_eight ∧
       (r = true ↔ [7; 7; 8]%Z = [7; 7; 7]%Z).
Proof.
  split; [exact Z.eqb_eq|]. split; [exact (proj1 seven_seven_eight_owns)|].
  split; [exact (proj2 seven_seven_eight_owns)|].
  exact (operator_eq_same_elements (this three_sevens) [7; 7; 8]%Z [7; 7; 7]%Z
           seven_seven_eight Z.eqb_eq (proj1 seven_seven_eight_owns)
           (proj2 seven_seven_eight_owns)).
Defined.

Lemma int_lt_connected (x y : Z) : elem_lt x y = false → elem_lt y x = false → x = y.
Proof. cbn. rewrite !Z.ltb_ge. lia. Qed.

Lemma int_lt_asym (x y : Z) : elem_lt x y = true → elem_lt y x = false.
Proof. cbn. rewrite Z.ltb_lt, Z.ltb_ge. lia. Qed.

Lemma operator_lt_lexicographic_witness :
  (∀ x : Z, elem_lt x x = false) ∧
  (∀ x y : Z, elem_lt x y = false → elem_lt y x = false → x = y) ∧
  owns (mem seven_seven_eight) (this seven_seven_eight) [7; 7; 8]%Z ∧
  owns (mem seven_seven_eight) (this three_sevens) [7; 7; 7]%Z ∧
  ∃ r, operator_lt (this three_sevens) seven_seven_eight = Ok r seven_seven_eight ∧
       operator_ge (this three_sevens) seven_seven_eight = Ok (negb r) seven_seven_eight ∧
       (r = true ↔ lex_before [7; 7; 8]%Z [7; 7; 7]%Z).
Proof.
  split; [exact Z.ltb_irrefl|]. split; [exact int_lt_connected|].
  split; [exact (proj1 seven_seven_eight_owns)|].
  split; [exact (proj2 seven_seven_eight_owns)|].
  exact (operator_lt_lexicographic (this three_sevens) [7; 7; 8]%Z [7; 7; 7]%Z
           seven_seven_eight Z.ltb_irrefl int_lt_connected
           (proj1 seven_seven_eight_owns) (proj2 seven_seven_eight_owns)).
Defined.

Lemma comparisons_agree_witness :
  (∀ x y : Z, elem_eq x y = true ↔ x = y) ∧
  (∀ x y : Z, elem_lt x y = true → elem_lt y x = false) ∧
  (∀ x y : Z, elem_lt x y = false → elem_lt y x = false → x = y) ∧
  owns (mem seven_seven_eight) (this seven_seven_eight) [7; 7; 8]%Z ∧
  owns (mem seven_seven_eight) (this three_sevens) [7; 7; 7]%Z ∧
  ∃ lt eq gt,
    operator_lt (this three_sevens) seven_seven_eight = Ok lt seven_seven_eight ∧
    operator_eq (this three_sevens) seven_seven_eight = Ok eq seven_seven_eight ∧
    operator_gt (this three_sevens) seven_seven_eight = Ok gt seven_seven_eight ∧
    operator_le (this three_sevens) seven_seven_eight = Ok (lt || eq) seven_seven_eight ∧
    operator_ge (this three_sevens) seven_seven_eight = Ok (gt || eq) seven_seven_eight ∧
    operator_ne (this three_sevens) seven_seven_eight = Ok (lt || gt) seven_seven_eight ∧
    lt || eq || gt = true ∧
    lt && eq = false ∧ lt && gt = false ∧ eq && gt = false.
Proof.
  split; [exact Z.eqb_eq|]. split; [exact int_lt_asym|]. split; [exact int_lt_connected|].
  split; [exact (proj1 seven_seven_eight_owns)|].
  split; [exact (proj2 seven_seven_eight_owns)|].
  exact (comparisons_agree (this three_sevens) [7; 7; 8]%Z [7; 7; 7]%Z
           seven_seven_eight Z.eqb_eq int_lt_asym int_lt_connected
           (proj1 seven_seven_eight_owns) (proj2 seven_seven_eight_owns)).
Defined.

(** The comparisons of the two samples, evaluated. *)
Example compare_778_with_777 :
  operator_lt (this three_sevens) seven_seven_eight = Ok false seven_seven_eight ∧
  operator_gt (this three_sevens) seven_seven_eight = Ok true seven_seven_eight ∧
  operator_eq (this three_sevens) seven_seven_eight = Ok false seven_seven_eight ∧
  operator_le (this three_sevens) seven_seven_eight = Ok false seven_seven_eight.
Proof. split; [|split; [|split]]; vm_compute; reflexivity. Qed.

(** * Construction, destruction and copy assignment *)

Section Building.
Context {T : Type} `{!Element T}.
Implicit Types (s : State (T:=T)) (xs ys : list T).
Variable O : Oracle.

(** X8: [Vector(n)] builds [n] default-initialised elements in a block of
    exactly [n] slots, and for [n = 0] allocates nothing and leaves the
    storage null.  Each element is what default-initialisation makes of
    the storage it is given: [n] times the same value where the default
    constructor of [T] decides the value, and whatever the storage held
    for a type such as [int], for which nothing is written.  When the
    construction of an element throws, the elements built before it are
    destroyed, the block is released and the exception goes on to the
    caller. *)
Theorem Vector_sized_builds (n : nat) s :
  fits n = true → alloc_throws O (n_alloc (mem s)) = false →
  (quiet O (n_ctor (mem s)) n →
   ∃ s', Vector_sized O n s = Ok tt s' ∧
         owns (mem s') (this s') (default_inits O (n_ctor (mem s)) n) ∧
         (∀ d : T, (∀ g, default_init g = d) →
                   owns (mem s') (this s') (replicate n d)) ∧
         capacity_ (this s') = n ∧
         (n = 0 → vector_ (this s') = Null ∧ n_alloc (mem s') = n_alloc (mem s)) ∧
         n_ctor (mem s') = n + n_ctor (mem s) ∧
         faults (mem s') = faults (mem s) ∧
         (∀ b, b < length (heap (mem s)) → heap (mem s') !! b = heap (mem s) !! b)) ∧
  (∀ j, j < n → quiet O (n_ctor (mem s)) j →
        ctor_throws O DefaultCtor (n_ctor (mem s) + j) = true →
        ∃ s', Vector_sized O n s = Throw ctor_failure s' ∧
              heap (mem s') = heap (mem s) ++ [None] ∧
              n_dtor (mem s') = j + n_dtor (mem s) ∧
              faults (mem s') = faults (mem s)).
Proof.
  intros Hfit Ha. split.
  - intros Hq.
    destruct (Vector_sized_ok O n s Hfit Ha Hq)
      as (s' & E & Hown & Hcap & _ & Hf & Hal & Hc & _ & Hnull & Hh).
    exists s'. do 2 (split; [done|]). split.
    { intros d Hd. replace (replicate n d) with (default_inits O (n_ctor (mem s)) n);
        [done|].
      unfold default_inits. erewrite list_fmap_ext; [|intros ? i _; apply Hd].
      apply fmap_seq_const. }
    split; [done|]. split.
    { intros ->. split; [by apply Hnull|]. by rewrite Hal. }
    do 2 (split; [done|]). intros b Hb. by apply Hh.
  - intros j Hj Hq Ht.
    destruct (Vector_sized_throw O n j s Hfit Ha Hj Hq Ht)
      as (s' & E & _ & Hh & _ & Hd & _ & Hf).
    by exists s'.
Qed.

(** X9: [Vector(n, value)] builds [n] copies of [value] in a block of
    exactly [n] slots.  When the copy of an element throws, the copies
    built before it are destroyed, each once, the block is released and
    the exception goes on to the caller. *)
Theorem Vector_fill_builds (n : nat) (value : T) s :
  fits n = true → alloc_throws O (n_alloc (mem s)) = false →
  (quiet O (n_ctor (mem s)) n →
   ∃ s', Vector_fill O n value s = Ok tt s' ∧
         owns (mem s') (this s') (replicate n value) ∧
         capacity_ (this s') = n ∧
         n_ctor (mem s') = n + n_ctor (mem s) ∧
         faults (mem s') = faults (mem s) ∧
         (∀ b, b < length (heap (mem s)) → heap (mem s') !! b = heap (mem s) !! b)) ∧
  (∀ j, j < n → quiet O (n_ctor (mem s)) j →
        ctor_throws O CopyCtor (n_ctor (mem s) + j) = true →
        ∃ s', Vector_fill O n value s = Throw ctor_failure s' ∧
              heap (mem s') = heap (mem s) ++ [None] ∧
              n_dtor (mem s') = j + n_dtor (mem s) ∧
              faults (mem s') = faults (mem s)).
Proof.
  intros Hfit Ha. split.
  - intros Hq.
    destruct (Vector_fill_ok O n value s Hfit Ha Hq)
      as (s' & E & Hown & Hcap & _ & Hf & _ & Hc & _ & Hh).
    exists s'. do 5 (split; [done|]). intros b Hb. by apply Hh.
  - intros j Hj Hq Ht.
    destruct (Vector_fill_throw O n value j s Hfit Ha Hj Hq Ht)
      as (s' & E & _ & Hh & _ & Hd & _ & Hf).
    by exists s'.
Qed.

(** X10: the constructor from a range, and with it the constructor from an
    initializer list, builds copies of the elements of the range, in
    order, in a block of exactly as many slots.  When the copy of an
    element throws, the copies built before it are destroyed, each once,
    the block is released and the exception goes on to the caller. *)
Theorem Vector_range_builds (src : list T) s :
  fits (length src) = true → alloc_throws O (n_alloc (mem s)) = false →
  (quiet O (n_ctor (mem s)) (length src) →
   ∃ s', Vector_range O src s = Ok tt s' ∧ Vector_list O src s = Ok tt s' ∧
         owns (mem s') (this s') src ∧
         capacity_ (this s') = length src ∧
         n_ctor (mem s') = length src + n_ctor (mem s) ∧
         faults (mem s') = faults (mem s) ∧
         (∀ b, b < length (heap (mem s)) → heap (mem s') !! b = heap (mem s) !! b)) ∧
  (∀ j, j < length src → quiet O (n_ctor (mem s)) j →
        ctor_throws O CopyCtor (n_ctor (mem s) + j) = true →
        ∃ s', Vector_range O src s = Throw ctor_failure s' ∧
              heap (mem s') = heap (mem s) ++ [None] ∧
              n_dtor (mem s') = j + n_dtor (mem s) ∧
              faults (mem s') = faults (mem s)).
Proof.
  intros Hfit Ha. split.
  - intros Hq.
    destruct (Vector_range_ok O src s Hfit Ha Hq)
      as (s' & E & Hown & Hcap & _ & Hf & _ & Hc & _ & Hh).
    exists s'. do 6 (split; [done|]). intros b Hb. by apply Hh.
  - intros j Hj Hq Ht.
    destruct (Vector_range_throw O src j s Hfit Ha Hj Hq Ht)
      as (s' & E & _ & Hh & _ & Hd & _ & Hf).
    by exists s'.
Qed.

(** X11: when the allocation throws in [Vector(n)] with [n > 0], in
    [Vector(n, value)], in the constructor from a range or in the copy
    constructor, the first thing the handler does is to use [vector_], to
    which nothing has been assigned yet: [DeallocateMemory] tests it, or
    [std::destroy] takes a range from it.  That step has no meaning, and
    nothing is said of what follows it, the exception included: [fs] is
    whatever the run records after it. *)
Theorem constructors_use_unset_pointer (n : nat) (value : T) (src : list T)
    (other : Vector) s :
  alloc_throws O (n_alloc (mem s)) = true →
  (0 < n →
   ∃ fs, faults (mem (final (Vector_sized O n s))) = faults (mem s) ++ BadTest :: fs) ∧
  (∃ fs, faults (mem (final (Vector_fill O n value s)))
         = faults (mem s) ++ BadRange Wild Wild :: fs) ∧
  (∃ fs, faults (mem (final (Vector_range O src s)))
         = faults (mem s) ++ BadRange Wild Wild :: fs) ∧
  (∃ fs, faults (mem (final (Vector_copy O other s)))
         = faults (mem s) ++ BadRange Wild Wild :: fs).
Proof.
  intros Ha. split; [|split; [|split]].
  - intros Hn. eexists. rewrite Vector_sized_bad_alloc by (done || by right).
    reflexivity.
  - eexists. rewrite Vector_fill_bad_alloc by by right. reflexivity.
  - eexists. rewrite Vector_range_bad_alloc by by right. reflexivity.
  - eexists. rewrite Vector_copy_bad_alloc by by right. reflexivity.
Qed.

(** X12: the destructor destroys each element once and gives the block
    back to the allocator; it allocates and constructs nothing, touches no
    other block and does not throw.  On a container without storage, as a
    default-constructed or a moved-from one, it does nothing. *)
Theorem destructor_releases xs s :
  owns (mem s) (this s) xs →
  ∃ s', Vector_destroy O s = Ok tt s' ∧
        n_dtor (mem s') = length xs + n_dtor (mem s) ∧
        n_ctor (mem s') = n_ctor (mem s) ∧ n_alloc (mem s') = n_alloc (mem s) ∧
        faults (mem s') = faults (mem s) ∧
        (∀ b, block_index (this s) = Some b → heap (mem s') !! b = Some None) ∧
        (∀ b, block_index (this s) ≠ Some b → heap (mem s') !! b = heap (mem s) !! b) ∧
        (vector_ (this s) = Null → s' = s).
Proof.
  intros Hown.
  destruct (Vector_destroy_ok O xs s Hown)
    as (s' & E & _ & _ & Hf & Ha & Hc & Hd & _ & Hk & Hfree).
  exists s'. do 7 (split; [done|]).
  intros Hnull. destruct Hown as (Hsz & Hle & _ & Hv).
  destruct s as [[p sz cap] fr w]. cbn [this mem vector_ size_ capacity_] in *. subst p.
  assert (xs = []) as -> by (destruct xs; [done|cbn [length] in *; lia]).
  subst sz. revert E. unfold Vector_destroy, DestroyElements, destroy, DeallocateMemory.
  mrun. cbn [length range_len ptr_add destroy_n]. mrun. by intros [= <-].
Qed.

(** X13: copy assignment from another container leaves the destination
    with copies of the source's elements in a block of the source's
    capacity, destroys the destination's old elements, each once, and
    releases its old block; the source is as it was.  When the copy of an
    element throws, the destination and the source are as they were and
    the block of the copy has been released.  Assigning a container to
    itself does nothing. *)
Theorem copy_assignment (other : Vector) xs ys s :
  owns (mem s) (this s) ys → owns (mem s) other xs →
  (never_throws O →
   (∀ b, block_index (this s) = Some b → block_index other ≠ Some b) →
   ∃ s', assign_copy O (Other other) s = Ok tt s' ∧
         owns (mem s') (this s') xs ∧ owns (mem s') other xs ∧
         capacity_ (this s') = capacity_ other ∧
         n_ctor (mem s') = length xs + n_ctor (mem s) ∧
         n_dtor (mem s') = length ys + n_dtor (mem s) ∧
         (∀ b, block_index (this s) = Some b → heap (mem s') !! b = Some None) ∧
         faults (mem s') = faults (mem s)) ∧
  (∀ j, j < length xs → alloc_throws O (n_alloc (mem s)) = false →
        quiet O (n_ctor (mem s)) j →
        ctor_throws O CopyCtor (n_ctor (mem s) + j) = true →
        ∃ s', assign_copy O (Other other) s = Throw ctor_failure s' ∧
              this s' = this s ∧
              owns (mem s') (this s') ys ∧ owns (mem s') other xs ∧
              heap (mem s') = heap (mem s) ++ [None] ∧
              faults (mem s') = faults (mem s)) ∧
  assign_copy O Self s = Ok tt s.
Proof.
  intros Hthis Hother. split; [|split; [|done]].
  - intros Hn Hdis.
    destruct (assign_copy_ok O other xs ys s Hn Hthis Hother Hdis)
      as (s' & E & ? & ? & ? & _ & ? & _ & ? & ? & ?).
    by exists s'.
  - intros j Hj Ha Hq Ht.
    destruct (assign_copy_throw O other xs ys j s Hthis Hother Hj Ha Hq Ht)
      as (s' & E & ? & ? & ? & ? & _ & _ & ?).
    by exists s'.
Qed.

End Building.

Lemma Vector_sized_builds_witness :
  fits 2 = true ∧ alloc_throws never (n_alloc (mem (boot (T:=Z)))) = false ∧
  (∃ s', Vector_sized never 2 (boot (T:=Z)) = Ok tt s' ∧
         owns (mem s') (this s') (default_inits never (n_ctor (mem (boot (T:=Z)))) 2) ∧
         (∀ d : Z, (∀ g, default_init g = d) →
                   owns (mem s') (this s') (replicate 2 d)) ∧
         capacity_ (this s') = 2 ∧
         (2 = 0 → vector_ (this s') = Null ∧ n_alloc (mem s') = n_alloc (mem (boot (T:=Z)))) ∧
         n_ctor (mem s') = 2 + n_ctor (mem (boot (T:=Z))) ∧
         faults (mem s') = faults (mem (boot (T:=Z))) ∧
         (∀ b, b < length (heap (mem (boot (T:=Z)))) →
               heap (mem s') !! b = heap (mem (boot (T:=Z))) !! b)) ∧
  (∃ s', Vector_sized (ctor_fails_at DefaultCtor 1) 2 (boot (T:=Z)) = Throw ctor_failure s' ∧
         heap (mem s') = heap (mem (boot (T:=Z))) ++ [None] ∧
         n_dtor (mem s') = 1 + n_dtor (mem (boot (T:=Z))) ∧
         faults (mem s') = faults (mem (boot (T:=Z)))).
Proof.
  split; [reflexivity|]. split; [reflexivity|]. split.
  - apply (proj1 (Vector_sized_builds never 2 boot eq_refl eq_refl)).
    intros k j Hj. reflexivity.
  - apply (proj2 (Vector_sized_builds (ctor_fails_at DefaultCtor 1) 2 boot eq_refl eq_refl) 1).
    + lia.
    + intros k j Hj. assert (j = 0) as -> by lia. by destruct k.
    + reflexivity.
Defined.

Lemma Vector_fill_builds_witness :
  fits 3 = true ∧ alloc_throws never (n_alloc (mem (boot (T:=Z)))) = false ∧
  (∃ s', Vector_fill never 3 7%Z boot = Ok tt s' ∧
         owns (mem s') (this s') (replicate 3 7%Z) ∧
         capacity_ (this s') = 3 ∧
         n_ctor (mem s') = 3 + n_ctor (mem (boot (T:=Z))) ∧
         faults (mem s') = faults (mem (boot (T:=Z))) ∧
         (∀ b, b < length (heap (mem (boot (T:=Z)))) →
               heap (mem s') !! b = heap (mem (boot (T:=Z))) !! b)) ∧
  (∃ s', Vector_fill (ctor_fails_at CopyCtor 2) 3 7%Z boot = Throw ctor_failure s' ∧
         heap (mem s') = heap (mem (boot (T:=Z))) ++ [None] ∧
         n_dtor (mem s') = 2 + n_dtor (mem (boot (T:=Z))) ∧
         faults (mem s') = faults (mem (boot (T:=Z)))).
Proof.
  split; [reflexivity|]. split; [reflexivity|]. split.
  - apply (proj1 (Vector_fill_builds never 3 7%Z boot eq_refl eq_refl)).
    intros k j Hj. reflexivity.
  - apply (proj2 (Vector_fill_builds (ctor_fails_at CopyCtor 2) 3 7%Z boot eq_refl eq_refl) 2).
    + lia.
    + intros k j Hj. destruct k; destruct j as [|[|j]]; (reflexivity || lia).
    + reflexivity.
Defined.

Lemma Vector_range_builds_witness :
  fits (length [1; 2; 3]%Z) = true ∧
  alloc_throws never (n_alloc (mem (boot (T:=Z)))) = false ∧
  (∃ s', Vector_range never [1; 2; 3]%Z boot = Ok tt s' ∧
         Vector_list never [1; 2; 3]%Z boot = Ok tt s' ∧
         owns (mem s') (this s') [1; 2; 3]%Z ∧
         capacity_ (this s') = length [1; 2; 3]%Z ∧
         n_ctor (mem s') = length [1; 2; 3]%Z + n_ctor (mem (boot (T:=Z))) ∧
         faults (mem s') = faults (mem (boot (T:=Z))) ∧
         (∀ b, b < length (heap (mem (boot (T:=Z)))) →
               heap (mem s') !! b = heap (mem (boot (T:=Z))) !! b)) ∧
  (∃ s', Vector_range (ctor_fails_at CopyCtor 2) [1; 2; 3]%Z boot = Throw ctor_failure s' ∧
         heap (mem s') = heap (mem (boot (T:=Z))) ++ [None] ∧
         n_dtor (mem s') = 2 + n_dtor (mem (boot (T:=Z))) ∧
         faults (mem s') = faults (mem (boot (T:=Z)))).
Proof.
  split; [reflexivity|]. split; [reflexivity|]. split.
  - apply (proj1 (Vector_range_builds never [1; 2; 3]%Z boot eq_refl eq_refl)).
    intros k j Hj. reflexivity.
  - apply (proj2 (Vector_range_builds (ctor_fails_at CopyCtor 2) [1; 2; 3]%Z boot
                    eq_refl eq_refl) 2).
    + cbn [length]. lia.
    + intros k j Hj. destruct k; destruct j as [|[|j]]; (reflexivity || lia).
    + reflexivity.
Defined.

Lemma constructors_use_unset_pointer_witness :
  alloc_throws (alloc_fails_at 0) (n_alloc (mem (boot (T:=Z)))) = true ∧
  (0 < 2 →
   ∃ fs, faults (mem (final (Vector_sized (alloc_fails_at 0) 2 (boot (T:=Z)))))
         = faults (mem (boot (T:=Z))) ++ BadTest :: fs) ∧
  (∃ fs, faults (mem (final (Vector_fill (alloc_fails_at 0) 2 7%Z boot)))
         = faults (mem (boot (T:=Z))) ++ BadRange Wild Wild :: fs) ∧
  (∃ fs, faults (mem (final (Vector_range (alloc_fails_at 0) [7]%Z boot)))
         = faults (mem (boot (T:=Z))) ++ BadRange Wild Wild :: fs) ∧
  (∃ fs, faults (mem (final (Vector_copy (alloc_fails_at 0) moved_out (boot (T:=Z)))))
         = faults (mem (boot (T:=Z))) ++ BadRange Wild Wild :: fs).
Proof.
  split; [reflexivity|].
  exact (constructors_use_unset_pointer (alloc_fails_at 0) 2 7%Z [7]%Z moved_out boot
           eq_refl).
Defined.

Lemma destructor_releases_witness :
  owns (mem three_sevens) (this three_sevens) [7; 7; 7]%Z ∧
  ∃ s', Vector_destroy never three_sevens = Ok tt s' ∧
        n_dtor (mem s') = length [7; 7; 7]%Z + n_dtor (mem three_sevens) ∧
        n_ctor (mem s') = n_ctor (mem three_sevens) ∧
        n_alloc (mem s') = n_alloc (mem three_sevens) ∧
        faults (mem s') = faults (mem three_sevens) ∧
        (∀ b, block_index (this three_sevens) = Some b → heap (mem s') !! b = Some None) ∧
        (∀ b, block_index (this three_sevens) ≠ Some b →
              heap (mem s') !! b = heap (mem three_sevens) !! b) ∧
        (vector_ (this three_sevens) = Null → s' = three_sevens).
Proof.
  split; [exact three_sevens_owns|].
  exact (destructor_releases never [7; 7; 7]%Z three_sevens three_sevens_owns).
Defined.

Lemma copy_assignment_witness :
  owns (mem seven_seven_eight) (this seven_seven_eight) [7; 7; 8]%Z ∧
  owns (mem seven_seven_eight) (this three_sevens) [7; 7; 7]%Z ∧
  (∃ s', assign_copy never (Other (this three_sevens)) seven_seven_eight = Ok tt s' ∧
         owns (mem s') (this s') [7; 7; 7]%Z ∧
         owns (mem s') (this three_sevens) [7; 7; 7]%Z ∧
         capacity_ (this s') = capacity_ (this three_sevens) ∧
         n_ctor (mem s') = length [7; 7; 7]%Z + n_ctor (mem seven_seven_eight) ∧
         n_dtor (mem s') = length [7; 7; 8]%Z + n_dtor (mem seven_seven_eight) ∧
         (∀ b, block_index (this seven_seven_eight) = Some b →
               heap (mem s') !! b = Some None) ∧
         faults (mem s') = faults (mem seven_seven_eight)) ∧
  (∃ s', assign_copy (ctor_fails_at CopyCtor 7) (Other (this three_sevens))
           seven_seven_eight = Throw ctor_failure s' ∧
         this s' = this seven_seven_eight ∧
         owns (mem s') (this s') [7; 7; 8]%Z ∧
         owns (mem s') (this three_sevens) [7; 7; 7]%Z ∧
         heap (mem s') = heap (mem seven_seven_eight) ++ [None] ∧
         faults (mem s') = faults (mem seven_seven_eight)) ∧
  assign_copy never Self seven_seven_eight = Ok tt seven_seven_eight.
Proof.
  split; [exact (proj1 seven_seven_eight_owns)|].
  split; [exact (proj2 seven_seven_eight_owns)|].
  split; [|split].
  - apply (proj1 (copy_assignment never (this three_sevens) [7; 7; 7]%Z [7; 7; 8]%Z
                    seven_seven_eight (proj1 seven_seven_eight_owns)
                    (proj2 seven_seven_eight_owns))).
    + by split.
    + intros b Hb. vm_compute in Hb. injection Hb as <-. vm_compute. discriminate.
  - apply (proj1 (proj2 (copy_assignment (ctor_fails_at CopyCtor 7) (this three_sevens)
                    [7; 7; 7]%Z [7; 7; 8]%Z seven_seven_eight
                    (proj1 seven_seven_eight_owns) (proj2 seven_seven_eight_owns))) 1).
    + cbn [length]. lia.
    + reflexivity.
    + intros k j Hj. assert (j = 0) as -> by lia. vm_compute. by destruct k.
    + vm_compute. reflexivity.
  - exact (proj2 (proj2 (copy_assignment never (this three_sevens) [7; 7; 7]%Z [7; 7; 8]%Z
                    seven_seven_eight (proj1 seven_seven_eight_owns)
                    (proj2 seven_seven_eight_owns)))).
Defined.

(** * Capacity and removal *)

Section Changing.
Context {T : Type} `{!Element T}.
Implicit Types (s : State (T:=T)) (xs ys : list T).
Variable O : Oracle.

(** X14: [Reserve(n)] with [n] above the capacity moves the elements, in
    order, into a new block of exactly [n] slots, destroys the moved-from
    elements and releases the old block: one allocation, one move
    construction and one destruction per element.  With [n] at most the
    capacity it does nothing at all.  The size and the elements are the
    same afterwards, and no other block is touched. *)
Theorem Reserve_grows_storage (n : nat) xs s :
  never_throws O → owns (mem s) (this s) xs → fits n = true →
  ∃ s', Reserve O n s = Ok tt s' ∧
        owns (mem s') (this s') xs ∧
        capacity_ (this s') = capacity_ (this s) `max` n ∧
        faults (mem s') = faults (mem s) ∧
        (n ≤ capacity_ (this s) → s' = s) ∧
        (capacity_ (this s) < n →
         n_alloc (mem s') = 1 + n_alloc (mem s) ∧
         n_ctor (mem s') = length xs + n_ctor (mem s) ∧
         n_dtor (mem s') = length xs + n_dtor (mem s) ∧
         ∀ b, block_index (this s) = Some b → heap (mem s') !! b = Some None) ∧
        (∀ b, b < length (heap (mem s)) → block_index (this s) ≠ Some b →
              heap (mem s') !! b = heap (mem s) !! b).
Proof.
  intros Hn Hown Hfit.
  destruct (Reserve_step O n xs s Hn Hown Hfit)
    as (s' & E & (Hown' & _ & Hf & _ & Hh) & Hcap & Hsame & Hgrow).
  exists s'. do 6 (split; [done|]). apply Hh.
Qed.

(** X15: [ShrinkToFit()] on a container with spare capacity moves the
    elements, in order, into a new block of exactly [size_] slots and
    releases the old one; with no spare capacity it does nothing at all.
    The capacity is the size afterwards, and the elements are the same. *)
Theorem ShrinkToFit_drops_spare_capacity xs s :
  never_throws O → owns (mem s) (this s) xs →
  ∃ s', ShrinkToFit O s = Ok tt s' ∧
        owns (mem s') (this s') xs ∧
        capacity_ (this s') = length xs ∧
        faults (mem s') = faults (mem s) ∧
        (length xs = capacity_ (this s) → s' = s) ∧
        (length xs < capacity_ (this s) →
         n_alloc (mem s') = 1 + n_alloc (mem s) ∧
         n_ctor (mem s') = length xs + n_ctor (mem s) ∧
         n_dtor (mem s') = length xs + n_dtor (mem s) ∧
         ∀ b, block_index (this s) = Some b → heap (mem s') !! b = Some None) ∧
        (∀ b, b < length (heap (mem s)) → block_index (this s) ≠ Some b →
              heap (mem s') !! b = heap (mem s) !! b).
Proof.
  intros Hn Hown.
  destruct (ShrinkToFit_step O xs s Hn Hown)
    as (s' & E & (Hown' & _ & Hf & _ & Hh) & Hcap & Hsame & Hgrow).
  exists s'. do 6 (split; [done|]). apply Hh.
Qed.

(** X16: when the move of the element at index [j] throws while
    [Reserve] or [ShrinkToFit] relocates the elements,
    [std::uninitialized_move] destroys what it built in the new block, and
    the handler of [Reallocate] then runs a destructor on each of the first
    [size_] slots of that block, none of which holds an object.  The new
    block is released and the exception goes on to the caller; the
    container keeps its block, size and capacity, with the elements before
    index [j] left in the moved-from state. *)
Theorem relocation_move_failure (n j : nat) xs s :
  owns (mem s) (this s) xs →
  alloc_throws O (n_alloc (mem s)) = false →
  j < length xs → quiet O (n_ctor (mem s)) j →
  ctor_throws O MoveCtor (n_ctor (mem s) + j) = true →
  (capacity_ (this s) < n → fits n = true →
   ∃ s', Reserve O n s = Throw ctor_failure s' ∧
         this s' = this s ∧
         owns (mem s') (this s') ((moved_from <$> take j xs) ++ drop j xs) ∧
         heap (mem s') !! length (heap (mem s)) = Some None ∧
         n_dtor (mem s') = j + n_dtor (mem s) ∧
         faults (mem s') =
           faults (mem s) ++ raw_destroys (length (heap (mem s))) 0 (length xs)) ∧
  (length xs < capacity_ (this s) →
   ∃ s', ShrinkToFit O s = Throw ctor_failure s' ∧
         this s' = this s ∧
         owns (mem s') (this s') ((moved_from <$> take j xs) ++ drop j xs) ∧
         heap (mem s') !! length (heap (mem s)) = Some None ∧
         n_dtor (mem s') = j + n_dtor (mem s) ∧
         faults (mem s') =
           faults (mem s) ++ raw_destroys (length (heap (mem s))) 0 (length xs)).
Proof.
  intros Hown Ha Hj Hq Ht. pose proof Hown as (Hsz & Hle & Hfit & _). split.
  - intros Hgrow Hfn.
    destruct (Reallocate_move_throw O n xs j s Hown) as (s' & E & ? & _ & ? & _ & ? & _ & ? & ?);
      [lia|done..|].
    exists s'. split; [|done]. unfold Reserve. mrun.
    by rewrite bool_decide_eq_true_2.
  - intros Hslack.
    destruct (Reallocate_move_throw O (length xs) xs j s Hown)
      as (s' & E & ? & _ & ? & _ & ? & _ & ? & ?); [lia|by eapply fits_le|done..|].
    exists s'. split; [|done]. unfold ShrinkToFit. mrun. rewrite Hsz.
    rewrite bool_decide_eq_true_2 by done. mrun. by rewrite Hsz.
Qed.


(** X18: [Clear()] destroys every element once, leaves the container
    empty and keeps the block and the capacity; it allocates nothing and
    does not throw.  The [PushBack]s that follow, up to the capacity, go
    into the block that was kept, without an allocation. *)
Theorem Clear_keeps_storage xs s :
  owns (mem s) (this s) xs →
  ∃ s1, Clear s = Ok tt s1 ∧
        owns (mem s1) (this s1) [] ∧
        capacity_ (this s1) = capacity_ (this s) ∧
        vector_ (this s1) = vector_ (this s) ∧
        n_alloc (mem s1) = n_alloc (mem s) ∧ n_ctor (mem s1) = n_ctor (mem s) ∧
        n_dtor (mem s1) = length xs + n_dtor (mem s) ∧
        faults (mem s1) = faults (mem s) ∧
        ∀ cs : list (Call T),
          forallb is_PushBack cs = true → length cs ≤ capacity_ (this s) →
          quiet O (n_ctor (mem s)) (length cs) →
          ∃ s', perform_all O cs s1 = Ok tt s' ∧
                owns (mem s') (this s') (list_after_all cs [] (capacity_ (this s))) ∧
                vector_ (this s') = vector_ (this s) ∧
                n_alloc (mem s') = n_alloc (mem s).
Proof.
  intros Hown.
  destruct (Clear_step xs s Hown)
    as (s1 & E & (Hown1 & _ & Hf & _ & _) & Hcap & Hv & Ha & Hd & Hc).
  exists s1. do 8 (split; [done|]).
  intros cs Hall Hlen Hq.
  destruct (pushes_room O cs [] s1 Hown1 Hall) as (s' & E' & (Hown' & _) & Hv' & _ & Ha' & _).
  { cbn [length]. lia. }
  { by rewrite Hc. }
  rewrite Hcap in Hown'.
  exists s'. do 2 (split; [done|]). split; congruence.
Qed.


(** X20: after [Reserve(n)], [PushBack]s that bring the size to at most [n]
    allocate nothing and leave the elements where they are: the storage
    pointer is the one [Reserve] left, so a reference obtained through
    [operator[]] before the calls refers to the same element after
    them. *)
Theorem Reserve_then_PushBack_keeps_storage (n : nat) (cs : list (Call T)) xs s :
  never_throws O → owns (mem s) (this s) xs → fits n = true →
  forallb is_PushBack cs = true → length xs + length cs ≤ n →
  ∃ s1 s', Reserve O n s = Ok tt s1 ∧ perform_all O cs s1 = Ok tt s' ∧
           owns (mem s') (this s') (list_after_all cs xs (capacity_ (this s1))) ∧
           capacity_ (this s') = capacity_ (this s1) ∧
           n_alloc (mem s') = n_alloc (mem s1) ∧
           ∀ i, ∃ p, index i s1 = Ok p s1 ∧ index i s' = Ok p s' ∧
                     (i < length xs → deref s' p = xs !! i ∧ deref s1 p = xs !! i).
Proof.
  intros Hn Hown Hfit Hall Hlen.
  destruct (Reserve_step O n xs s Hn Hown Hfit)
    as (s1 & E1 & (Hown1 & _) & Hcap1 & _).
  destruct (pushes_room O cs xs s1 Hown1 Hall)
    as (s' & E & (Hown' & _) & Hv & Hcap & Ha & _).
  { rewrite Hcap1. lia. }
  { intros k' j _. apply Hn. }
  exists s1, s'. do 5 (split; [done|]).
  intros i. exists (ptr_add (vector_ (this s1)) i).
  split; [done|]. split; [unfold index; mrun; by rewrite Hv|].
  intros Hi. rewrite <- Hv at 1.
  rewrite (owns_deref _ s' i Hown'), (owns_deref _ s1 i Hown1).
  destruct (pushes_append cs xs (capacity_ (this s1)) Hall) as (ys & ->).
  split; [|done]. by rewrite lookup_app_l.
Qed.

(** X21: a sequence of [PushBack], [PopBack], [Resize], [Reserve],
    [ShrinkToFit] and [Clear] calls in which nothing throws, with
    arguments that are objects of the caller's or elements [a[i]] of the
    container itself, leaves the container with the elements that
    [list_after_all] computes on a plain list (append, drop the last,
    truncate or pad, no change, no change, empty) and with the capacity
    the growth rules give.  An argument [a[i]] stands for the element as
    it is when the call reads it: as it was with room left, and in the
    moved-from state when [PushBack] or [Resize] has to grow, since they
    move the elements to the new block first.  The size never exceeds the
    capacity, no step without a meaning is taken and no block of another
    owner is touched.  When every argument is an object of the caller's,
    or moving an element leaves it as it was, the elements are those of
    the list operations with the arguments as they were at the call. *)
Theorem calls_act_as_on_a_list (cs : list (Call T)) xs s :
  never_throws O → owns (mem s) (this s) xs →
  well_posed cs xs (capacity_ (this s)) = true →
  ∃ s', perform_all O cs s = Ok tt s' ∧
        Size s' = Ok (length (list_after_all cs xs (capacity_ (this s)))) s' ∧
        (∀ i, element s' i = list_after_all cs xs (capacity_ (this s)) !! i) ∧
        Capacity s' = Ok (capacity_after_all cs xs (capacity_ (this s))) s' ∧
        length (list_after_all cs xs (capacity_ (this s)))
          ≤ capacity_after_all cs xs (capacity_ (this s)) ∧
        faults (mem s') = faults (mem s) ∧
        (∀ b, b < length (heap (mem s)) → block_index (this s) ≠ Some b →
              heap (mem s') !! b = heap (mem s) !! b) ∧
        (forallb by_value cs = true ∨ (∀ x : T, moved_from x = x) →
         list_after_all cs xs (capacity_ (this s)) = plain_list_after_all cs xs).
Proof.
  intros Hn Hown Hfit.
  destruct (perform_all_step O cs xs s Hn Hown Hfit)
    as (s' & E & (Hown' & _ & Hf & _ & Hh) & Hcap).
  exists s'. split; [done|]. pose proof Hown' as (Hsz & Hle & _).
  split; [unfold Size; mrun; by rewrite Hsz|].
  split.
  { intros i. unfold element, index. mrun. by apply owns_deref. }
  split; [unfold Capacity; mrun; by rewrite Hcap|].
  split; [by rewrite <- Hcap|]. split; [done|]. split; [apply Hh|].
  apply list_after_all_plain.
Qed.

(** X22: a container that is default-constructed, put through any sequence
    of such calls in which nothing throws, and destroyed leaves nothing
    behind: every block allocated for it has been released, every object
    constructed has been destroyed, once, the blocks that existed before
    are as they were, and no step without a meaning was taken. *)
Theorem lifetime_leaves_nothing (cs : list (Call T)) s :
  never_throws O → well_posed cs [] 0 = true →
  ∃ s', (Vector_default;; perform_all O cs;; Vector_destroy O) s = Ok tt s' ∧
        faults (mem s') = faults (mem s) ∧
        n_ctor (mem s') + n_dtor (mem s) = n_ctor (mem s) + n_dtor (mem s') ∧
        (∀ b, b < length (heap (mem s)) → heap (mem s') !! b = heap (mem s) !! b) ∧
        (∀ b, length (heap (mem s)) ≤ b → b < length (heap (mem s')) →
              heap (mem s') !! b = Some None).
Proof.
  intros Hn Hfit.
  set (s0 := set_this moved_out s).
  assert (Hown0 : owns (mem s0) (this s0) []) by by repeat split.
  destruct (perform_all_step O cs [] s0 Hn Hown0 Hfit)
    as (s1 & E1 & (Hown1 & _ & Hf1 & Hcons1 & L1 & K1 & F1 & N1) & _).
  destruct (Vector_destroy_ok O (list_after_all cs [] 0) s1 Hown1)
    as (s2 & E2 & _ & _ & Hf2 & _ & Hc2 & Hd2 & Hl2 & Hk2 & Hfree2).
  exists s2. split.
  { rewrite bind_eq. change (Vector_default s) with (Ok (T:=T) tt s0).
    cbv beta iota. by rewrite bind_eq, E1. }
  cbn [s0 set_this mem this block_index moved_out vector_ capacity_ length] in *.
  split; [congruence|]. split; [lia|]. split.
  - intros b Hb. rewrite Hk2, K1; [done..|].
    intros Hb1. destruct (N1 b Hb1); [done|lia].
  - intros b Hge Hlt. rewrite Hl2 in Hlt.
    destruct (decide (block_index (this s1) = Some b)) as [Hb1|Hb1]; [by apply Hfree2|].
    rewrite Hk2 by done. apply F1; auto.
Qed.

(** X23: [N >= 1] calls of [PushBack] on a default-constructed container
    leave it with a capacity that is a power of two, at least [N] and
    below [2 N].  With [2 ^ e] that capacity, [e + 1] allocations were
    made and [N + 2 ^ e - 1] elements were constructed, the new ones
    included: fewer than three constructions for each [PushBack]. *)
Theorem PushBack_growth_is_geometric (cs : list (Call T)) s :
  never_throws O → forallb is_PushBack cs = true → cs ≠ [] →
  fits (2 * length cs) = true →
  ∃ s' e, (Vector_default;; perform_all O cs) s = Ok tt s' ∧
          Size s' = Ok (length cs) s' ∧
          Capacity s' = Ok (2 ^ e) s' ∧
          length cs ≤ 2 ^ e ∧ 2 ^ e < 2 * length cs ∧
          n_alloc (mem s') = S e + n_alloc (mem s) ∧
          n_ctor (mem s') + 1 = length cs + 2 ^ e + n_ctor (mem s) ∧
          n_ctor (mem s') < 3 * length cs + n_ctor (mem s).
Proof.
  intros Hn Hall Hne Hfit.
  set (s0 := set_this moved_out s).
  assert (Hown0 : owns (mem s0) (this s0) []) by by repeat split.
  destruct (pushes_geometric O cs s0 Hn Hown0 eq_refl Hall Hfit)
    as (s' & E & (Hown' & _) & [->|(e & Hcap & Hlo & Hhi & Ha & Hc)]); [done|].
  exists s', e. split.
  { rewrite bind_eq. by change (Vector_default s) with (Ok (T:=T) tt s0). }
  destruct Hown' as (Hsz & _).
  rewrite (length_after_pushes cs [] 0 Hall) in Hsz. cbn [length Nat.add] in Hsz.
  split; [unfold Size; mrun; by rewrite Hsz|].
  split; [unfold Capacity; mrun; by rewrite Hcap|].
  cbn [s0 set_this mem] in *. repeat split; try done; lia.
Qed.

End Changing.

Lemma never_never_throws : never_throws never.
Proof. by split. Qed.

Lemma two_sevens_cap4_owns : owns (mem two_sevens_cap4) (this two_sevens_cap4) [7; 7]%Z.
Proof.
  split; [vm_compute; reflexivity|]. split; [vm_compute; lia|].
  split; vm_compute; reflexivity.
Qed.

Lemma Reserve_grows_storage_witness :
  never_throws never ∧ owns (mem three_sevens) (this three_sevens) [7; 7; 7]%Z ∧
  fits 5 = true ∧
  ∃ s', Reserve never 5 three_sevens = Ok tt s' ∧
        owns (mem s') (this s') [7; 7; 7]%Z ∧
        capacity_ (this s') = capacity_ (this three_sevens) `max` 5 ∧
        faults (mem s') = faults (mem three_sevens) ∧
        (5 ≤ capacity_ (this three_sevens) → s' = three_sevens) ∧
        (capacity_ (this three_sevens) < 5 →
         n_alloc (mem s') = 1 + n_alloc (mem three_sevens) ∧
         n_ctor (mem s') = length [7; 7; 7]%Z + n_ctor (mem three_sevens) ∧
         n_dtor (mem s') = length [7; 7; 7]%Z + n_dtor (mem three_sevens) ∧
         ∀ b, block_index (this three_sevens) = Some b → heap (mem s') !! b = Some None) ∧
        (∀ b, b < length (heap (mem three_sevens)) →
              block_index (this three_sevens) ≠ Some b →
              heap (mem s') !! b = heap (mem three_sevens) !! b).
Proof.
  split; [exact never_never_throws|]. split; [exact three_sevens_owns|].
  split; [reflexivity|].
  exact (Reserve_grows_storage never 5 [7; 7; 7]%Z three_sevens never_never_throws
           three_sevens_owns eq_refl).
Defined.

Lemma ShrinkToFit_drops_spare_capacity_witness :
  never_throws never ∧ owns (mem two_sevens_cap4) (this two_sevens_cap4) [7; 7]%Z ∧
  ∃ s', ShrinkToFit never two_sevens_cap4 = Ok tt s' ∧
        owns (mem s') (this s') [7; 7]%Z ∧
        capacity_ (this s') = length [7; 7]%Z ∧
        faults (mem s') = faults (mem two_sevens_cap4) ∧
        (length [7; 7]%Z = capacity_ (this two_sevens_cap4) → s' = two_sevens_cap4) ∧
        (length [7; 7]%Z < capacity_ (this two_sevens_cap4) →
         n_alloc (mem s') = 1 + n_alloc (mem two_sevens_cap4) ∧
         n_ctor (mem s') = length [7; 7]%Z + n_ctor (mem two_sevens_cap4) ∧
         n_dtor (mem s') = length [7; 7]%Z + n_dtor (mem two_sevens_cap4) ∧
         ∀ b, block_index (this two_sevens_cap4) = Some b →
              heap (mem s') !! b = Some None) ∧
        (∀ b, b < length (heap (mem two_sevens_cap4)) →
              block_index (this two_sevens_cap4) ≠ Some b →
              heap (mem s') !! b = heap (mem two_sevens_cap4) !! b).
Proof.
  split; [exact never_never_throws|]. split; [exact two_sevens_cap4_owns|].
  exact (ShrinkToFit_drops_spare_capacity never [7; 7]%Z two_sevens_cap4
           never_never_throws two_sevens_cap4_owns).
Defined.

Lemma relocation_move_failure_witness :
  owns (mem three_sevens) (this three_sevens) [7; 7; 7]%Z ∧
  alloc_throws (ctor_fails_at MoveCtor 4) (n_alloc (mem three_sevens)) = false ∧
  1 < length [7; 7; 7]%Z ∧
  quiet (ctor_fails_at MoveCtor 4) (n_ctor (mem three_sevens)) 1 ∧
  ctor_throws (ctor_fails_at MoveCtor 4) MoveCtor (n_ctor (mem three_sevens) + 1) = true ∧
  capacity_ (this three_sevens) < 5 ∧ fits 5 = true ∧
  ∃ s', Reserve (ctor_fails_at MoveCtor 4) 5 three_sevens = Throw ctor_failure s' ∧
        this s' = this three_sevens ∧
        owns (mem s') (this s')
          ((moved_from <$> take 1 [7; 7; 7]%Z) ++ drop 1 [7; 7; 7]%Z) ∧
        heap (mem s') !! length (heap (mem three_sevens)) = Some None ∧
        n_dtor (mem s') = 1 + n_dtor (mem three_sevens) ∧
        faults (mem s') =
          faults (mem three_sevens)
          ++ raw_destroys (length (heap (mem three_sevens))) 0 (length [7; 7; 7]%Z).
Proof.
  assert (H1 : alloc_throws (ctor_fails_at MoveCtor 4) (n_alloc (mem three_sevens)) = false)
    by reflexivity.
  assert (H2 : 1 < length [7; 7; 7]%Z) by (cbn [length]; lia).
  assert (H3 : quiet (ctor_fails_at MoveCtor 4) (n_ctor (mem three_sevens)) 1).
  { intros k j Hj. assert (j = 0) as -> by lia. destruct k; vm_compute; reflexivity. }
  assert (H4 : ctor_throws (ctor_fails_at MoveCtor 4) MoveCtor
                 (n_ctor (mem three_sevens) + 1) = true) by (vm_compute; reflexivity).
  assert (H5 : capacity_ (this three_sevens) < 5) by (vm_compute; lia).
  assert (H6 : fits 5 = true) by reflexivity.
  split; [exact three_sevens_owns|]. do 6 (split; [assumption|]).
  exact (proj1 (relocation_move_failure (ctor_fails_at MoveCtor 4) 5 1 [7; 7; 7]%Z
                  three_sevens three_sevens_owns H1 H2 H3 H4) H5 H6).
Defined.


Lemma Clear_keeps_storage_witness :
  owns (mem three_sevens) (this three_sevens) [7; 7; 7]%Z ∧
  ∃ s1, Clear three_sevens = Ok tt s1 ∧
        owns (mem s1) (this s1) [] ∧
        capacity_ (this s1) = capacity_ (this three_sevens) ∧
        vector_ (this s1) = vector_ (this three_sevens) ∧
        n_alloc (mem s1) = n_alloc (mem three_sevens) ∧
        n_ctor (mem s1) = n_ctor (mem three_sevens) ∧
        n_dtor (mem s1) = length [7; 7; 7]%Z + n_dtor (mem three_sevens) ∧
        faults (mem s1) = faults (mem three_sevens) ∧
        ∀ cs : list (Call Z),
          forallb is_PushBack cs = true → length cs ≤ capacity_ (this three_sevens) →
          quiet never (n_ctor (mem three_sevens)) (length cs) →
          ∃ s', perform_all never cs s1 = Ok tt s' ∧
                owns (mem s') (this s')
                  (list_after_all cs [] (capacity_ (this three_sevens))) ∧
                vector_ (this s') = vector_ (this three_sevens) ∧
                n_alloc (mem s') = n_alloc (mem three_sevens).
Proof.
  split; [exact three_sevens_owns|].
  exact (Clear_keeps_storage never [7; 7; 7]%Z three_sevens three_sevens_owns).
Defined.


Lemma Reserve_then_PushBack_keeps_storage_witness :
  never_throws never ∧ owns (mem three_sevens) (this three_sevens) [7; 7; 7]%Z ∧
  fits 5 = true ∧
  forallb is_PushBack [CallPushBack (Value 8%Z); CallPushBackRvalue (Value 9%Z)] = true ∧
  length [7; 7; 7]%Z
    + length [CallPushBack (Value 8%Z); CallPushBackRvalue (Value 9%Z)] ≤ 5 ∧
  ∃ s1 s', Reserve never 5 three_sevens = Ok tt s1 ∧
           perform_all never [CallPushBack (Value 8%Z); CallPushBackRvalue (Value 9%Z)] s1
             = Ok tt s' ∧
           owns (mem s') (this s')
             (list_after_all [CallPushBack (Value 8%Z); CallPushBackRvalue (Value 9%Z)]
                [7; 7; 7]%Z (capacity_ (this s1))) ∧
           capacity_ (this s') = capacity_ (this s1) ∧
           n_alloc (mem s') = n_alloc (mem s1) ∧
           ∀ i, ∃ p, index i s1 = Ok p s1 ∧ index i s' = Ok p s' ∧
                     (i < length [7; 7; 7]%Z →
                      deref s' p = [7; 7; 7]%Z !! i ∧ deref s1 p = [7; 7; 7]%Z !! i).
Proof.
  assert (H : length [7; 7; 7]%Z
               + length [CallPushBack (Value 8%Z); CallPushBackRvalue (Value 9%Z)] ≤ 5)
    by (cbn [length]; lia).
  split; [exact never_never_throws|]. split; [exact three_sevens_owns|].
  split; [reflexivity|]. split; [reflexivity|]. split; [exact H|].
  exact (Reserve_then_PushBack_keeps_storage never 5
           [CallPushBack (Value 8%Z); CallPushBackRvalue (Value 9%Z)] [7; 7; 7]%Z
           three_sevens never_never_throws three_sevens_owns eq_refl eq_refl H).
Defined.

(** A run of calls over [{7,7,7}] of capacity 3. *)
Example calls_on_three_sevens :
  list_after_all
    [CallPushBack (Value 1%Z); CallResize 5; CallPopBack; CallReserve 10; CallShrinkToFit]
    [7; 7; 7]%Z 3 = [7; 7; 7; 1]%Z ∧
  capacity_after_all
    [CallPushBack (Value 1%Z); CallResize 5; CallPopBack; CallReserve 10; CallShrinkToFit]
    [7; 7; 7]%Z 3 = 4.
Proof. split; vm_compute; reflexivity. Qed.

(** A run of calls over two buffers at capacity 2, with elements of the
    container for arguments: [PushBack(a[0])] has to grow and appends the
    moved-from buffer, [PushBack(std::move(a[1]))] has room and takes the
    buffer of [a[1]], [Resize(6, a[0])] has to grow and pads with
    moved-from buffers. *)
Example calls_on_two_buffers :
  list_after_all
    [CallPushBack (Own 0); CallPushBackRvalue (Own 1); CallResizeFill 6 (Own 0);
     CallPopBack]
    [[1; 2]; [1; 2]]%Z 2 = [[1; 2]; []; []; [1; 2]; []]%Z ∧
  plain_list_after_all
    [CallPushBack (Own 0); CallPushBackRvalue (Own 1); CallResizeFill 6 (Own 0);
     CallPopBack]
    [[1; 2]; [1; 2]]%Z = [[1; 2]; [1; 2]; [1; 2]; [1; 2]; [1; 2]]%Z ∧
  (λ s', (block_at (mem s') 2, capacity_ (this s'), faults (mem s')))
    (final (perform_all never
              [CallPushBack (Own 0); CallPushBackRvalue (Own 1); CallResizeFill 6 (Own 0);
               CallPopBack] two_buffers)) =
  (Some [Live [1; 2]; Live []; Live []; Live [1; 2]; Live []; Raw]%Z, 6, []).
Proof. split; [|split]; vm_compute; reflexivity. Qed.

Lemma calls_act_as_on_a_list_witness :
  never_throws never ∧ owns (mem two_buffers) (this two_buffers) [[1; 2]; [1; 2]]%Z ∧
  well_posed
    [CallPushBack (Own 0); CallPushBackRvalue (Own 1); CallResizeFill 6 (Own 0);
     CallPopBack]
    [[1; 2]; [1; 2]]%Z (capacity_ (this two_buffers)) = true ∧
  ∃ s', perform_all never
          [CallPushBack (Own 0); CallPushBackRvalue (Own 1); CallResizeFill 6 (Own 0);
           CallPopBack]
          two_buffers = Ok tt s' ∧
        Size s' = Ok (length (list_after_all
          [CallPushBack (Own 0); CallPushBackRvalue (Own 1); CallResizeFill 6 (Own 0);
           CallPopBack]
          [[1; 2]; [1; 2]]%Z (capacity_ (this two_buffers)))) s' ∧
        (∀ i, element s' i = list_after_all
          [CallPushBack (Own 0); CallPushBackRvalue (Own 1); CallResizeFill 6 (Own 0);
           CallPopBack]
          [[1; 2]; [1; 2]]%Z (capacity_ (this two_buffers)) !! i) ∧
        Capacity s' = Ok (capacity_after_all
          [CallPushBack (Own 0); CallPushBackRvalue (Own 1); CallResizeFill 6 (Own 0);
           CallPopBack]
          [[1; 2]; [1; 2]]%Z (capacity_ (this two_buffers))) s' ∧
        length (list_after_all
          [CallPushBack (Own 0); CallPushBackRvalue (Own 1); CallResizeFill 6 (Own 0);
           CallPopBack]
          [[1; 2]; [1; 2]]%Z (capacity_ (this two_buffers)))
        ≤ capacity_after_all
          [CallPushBack (Own 0); CallPushBackRvalue (Own 1); CallResizeFill 6 (Own 0);
           CallPopBack]
          [[1; 2]; [1; 2]]%Z (capacity_ (this two_buffers)) ∧
        faults (mem s') = faults (mem two_buffers) ∧
        (∀ b, b < length (heap (mem two_buffers)) →
              block_index (this two_buffers) ≠ Some b →
              heap (mem s') !! b = heap (mem two_buffers) !! b) ∧
        (forallb (by_value (T:=list Z))
           [CallPushBack (Own 0); CallPushBackRvalue (Own 1); CallResizeFill 6 (Own 0);
            CallPopBack] = true
         ∨ (∀ x : list Z, moved_from x = x) →
         list_after_all
           [CallPushBack (Own 0); CallPushBackRvalue (Own 1); CallResizeFill 6 (Own 0);
            CallPopBack]
           [[1; 2]; [1; 2]]%Z (capacity_ (this two_buffers))
         = plain_list_after_all
             [CallPushBack (Own 0); CallPushBackRvalue (Own 1); CallResizeFill 6 (Own 0);
              CallPopBack]
             [[1; 2]; [1; 2]]%Z).
Proof.
  assert (H0 : owns (mem two_buffers) (this two_buffers) [[1; 2]; [1; 2]]%Z).
  { split; [vm_compute; reflexivity|]. split; [vm_compute; lia|].
    split; vm_compute; reflexivity. }
  assert (H : well_posed
    [CallPushBack (Own 0); CallPushBackRvalue (Own 1); CallResizeFill 6 (Own 0);
     CallPopBack]
    [[1; 2]; [1; 2]]%Z (capacity_ (this two_buffers)) = true) by (vm_compute; reflexivity).
  split; [exact never_never_throws|]. split; [exact H0|].
  split; [exact H|].
  exact (calls_act_as_on_a_list never
           [CallPushBack (Own 0); CallPushBackRvalue (Own 1); CallResizeFill 6 (Own 0);
            CallPopBack]
           [[1; 2]; [1; 2]]%Z two_buffers never_never_throws H0 H).
Defined.

Lemma lifetime_leaves_nothing_witness :
  never_throws never ∧
  well_posed [CallPushBack (Value 1%Z); CallResizeFill 5 (Own 0); CallPopBack; CallClear;
              CallPushBackRvalue (Value 3%Z); CallPushBack (Own 0)] [] 0 = true ∧
  ∃ s', (Vector_default;;
         perform_all never
           [CallPushBack (Value 1%Z); CallResizeFill 5 (Own 0); CallPopBack; CallClear;
            CallPushBackRvalue (Value 3%Z); CallPushBack (Own 0)];;
         Vector_destroy never) three_sevens = Ok tt s' ∧
        faults (mem s') = faults (mem three_sevens) ∧
        n_ctor (mem s') + n_dtor (mem three_sevens)
          = n_ctor (mem three_sevens) + n_dtor (mem s') ∧
        (∀ b, b < length (heap (mem three_sevens)) →
              heap (mem s') !! b = heap (mem three_sevens) !! b) ∧
        (∀ b, length (heap (mem three_sevens)) ≤ b → b < length (heap (mem s')) →
              heap (mem s') !! b = Some None).
Proof.
  assert (H : well_posed
                [CallPushBack (Value 1%Z); CallResizeFill 5 (Own 0); CallPopBack; CallClear;
                 CallPushBackRvalue (Value 3%Z); CallPushBack (Own 0)] [] 0 = true)
    by (vm_compute; reflexivity).
  split; [exact never_never_throws|]. split; [exact H|].
  exact (lifetime_leaves_nothing never
           [CallPushBack (Value 1%Z); CallResizeFill 5 (Own 0); CallPopBack; CallClear;
            CallPushBackRvalue (Value 3%Z); CallPushBack (Own 0)]
           three_sevens never_never_throws H).
Defined.

Lemma PushBack_growth_is_geometric_witness :
  never_throws never ∧
  forallb is_PushBack [CallPushBack (Value 1%Z); CallPushBack (Value 2%Z);
     CallPushBackRvalue (Value 3%Z);
                       CallPushBack (Value 4%Z); CallPushBack (Value 5%Z)] = true ∧
  [CallPushBack (Value 1%Z); CallPushBack (Value 2%Z);
     CallPushBackRvalue (Value 3%Z);
   CallPushBack (Value 4%Z); CallPushBack (Value 5%Z)] ≠ [] ∧
  fits (2 * length [CallPushBack (Value 1%Z); CallPushBack (Value 2%Z);
     CallPushBackRvalue (Value 3%Z);
                    CallPushBack (Value 4%Z); CallPushBack (Value 5%Z)]) = true ∧
  ∃ s' e, (Vector_default;;
           perform_all never [CallPushBack (Value 1%Z); CallPushBack (Value 2%Z);
     CallPushBackRvalue (Value 3%Z);
                              CallPushBack (Value 4%Z); CallPushBack (Value 5%Z)]) boot = Ok tt s' ∧
          Size s' = Ok (length [CallPushBack (Value 1%Z); CallPushBack (Value 2%Z);
     CallPushBackRvalue (Value 3%Z);
                                CallPushBack (Value 4%Z); CallPushBack (Value 5%Z)]) s' ∧
          Capacity s' = Ok (2 ^ e) s' ∧
          length [CallPushBack (Value 1%Z); CallPushBack (Value 2%Z);
     CallPushBackRvalue (Value 3%Z);
                  CallPushBack (Value 4%Z); CallPushBack (Value 5%Z)] ≤ 2 ^ e ∧
          2 ^ e < 2 * length [CallPushBack (Value 1%Z); CallPushBack (Value 2%Z);
     CallPushBackRvalue (Value 3%Z);
                              CallPushBack (Value 4%Z); CallPushBack (Value 5%Z)] ∧
          n_alloc (mem s') = S e + n_alloc (mem (boot (T:=Z))) ∧
          n_ctor (mem s') + 1
            = length [CallPushBack (Value 1%Z); CallPushBack (Value 2%Z);
     CallPushBackRvalue (Value 3%Z);
                      CallPushBack (Value 4%Z); CallPushBack (Value 5%Z)] + 2 ^ e
              + n_ctor (mem (boot (T:=Z))) ∧
          n_ctor (mem s')
            < 3 * length [CallPushBack (Value 1%Z); CallPushBack (Value 2%Z);
     CallPushBackRvalue (Value 3%Z);
                          CallPushBack (Value 4%Z); CallPushBack (Value 5%Z)]
              + n_ctor (mem (boot (T:=Z))).
Proof.
  assert (H1 : [CallPushBack (Value 1%Z); CallPushBack (Value 2%Z);
     CallPushBackRvalue (Value 3%Z);
                CallPushBack (Value 4%Z); CallPushBack (Value 5%Z)] ≠ []) by discriminate.
  split; [exact never_never_throws|]. split; [reflexivity|]. split; [exact H1|].
  split; [reflexivity|].
  exact (PushBack_growth_is_geometric never
           [CallPushBack (Value 1%Z); CallPushBack (Value 2%Z);
     CallPushBackRvalue (Value 3%Z);
            CallPushBack (Value 4%Z); CallPushBack (Value 5%Z)] boot never_never_throws eq_refl H1 eq_refl).
Defined.

(** Five [PushBack]s into a default-constructed container. *)
Example five_pushes :
  final ((Vector_default;;
          perform_all never [CallPushBack (Value 1%Z); CallPushBack (Value 2%Z);
     CallPushBackRvalue (Value 3%Z);
                             CallPushBack (Value 4%Z); CallPushBack (Value 5%Z)]) boot) =
  {| this := {| vector_ := Ptr 3 0; size_ := 5; capacity_ := 8 |};
     frame := {| new_vector_end := Wild; local_i := 0 |};
     mem := {| heap := [None; None; None;
                        Some [Live 1%Z; Live 2%Z; Live 3%Z; Live 4%Z; Live 5%Z;
                              Raw; Raw; Raw]];
               n_alloc := 4; n_ctor := 12; n_dtor := 7; faults := [] |} |}.
Proof. vm_compute. reflexivity. Qed.

(** * Growth with a move that fails; copies and swaps *)

Section Growth.
Context {T : Type} `{!Element T}.
Implicit Types (s : State (T:=T)) (w : World (T:=T)) (xs : list T).
Variable O : Oracle.

(** [std::uninitialized_move] from a container's block into a fresh one,
    when the move of the element at index [j] throws. *)
Lemma uninitialized_move_throw b cap n xs j s h :
  heap (mem s) = h ++ [Some (replicate n Raw)] → b < length h →
  h !! b = Some (Some (block_of xs cap)) →
  length xs ≤ n → j < length xs →
  quiet O (n_ctor (mem s)) j →
  ctor_throws O MoveCtor (n_ctor (mem s) + j) = true →
  uninitialized_move O (Ptr b 0) (ptr_add (Ptr b 0) (length xs)) (Ptr (length h) 0) s =
  Throw ctor_failure
    (set_mem (evolve
       (<[b := Some (block_of ((moved_from <$> take j xs) ++ drop j xs) cap)]>
          (h ++ [Some (replicate n Raw)]))
       0 (S j) j (mem s)) s).
Proof.
  intros Hh Hb Hblk Hn Hj Hq Ht.
  unfold uninitialized_move. rewrite range_len_At.
  pose proof (move_n_throw O b (length h) [] [] xs j
                (replicate (cap - length xs) Raw) (replicate (n - length xs) Raw) s) as H.
  cbn [length app fmap list_fmap Nat.add] in H. rewrite H; [|lia|done|done|done| |].
  - rewrite Hh. do 2 f_equal. f_equal.
    rewrite <- replicate_add. replace (length xs + (n - length xs)) with n by lia.
    rewrite (list_insert_id (h ++ _) (length h)) by by rewrite lookup_app_r, Nat.sub_diag.
    do 2 f_equal. unfold block_of.
    rewrite fmap_app, <- app_assoc, length_app, length_fmap, length_take, length_drop.
    do 3 f_equal. lia.
  - unfold block_at. rewrite Hh, lookup_app_l by done. by rewrite Hblk.
  - unfold block_at. rewrite Hh, lookup_app_r, Nat.sub_diag by done.
    cbn [lookup list_lookup mjoin option_join]. rewrite <- replicate_add.
    do 2 f_equal. lia.
Qed.

Lemma owns_moved_prefix b cap xs j h blk (f : list Fault) a c d :
  b < length h → length xs ≤ cap → fits cap = true →
  owns {| heap := <[length h := None]>
                    (<[b := Some (block_of ((moved_from <$> take j xs) ++ drop j xs) cap)]>
                       (h ++ [Some blk]));
          n_alloc := a; n_ctor := c; n_dtor := d; faults := f |}
       {| vector_ := Ptr b 0; size_ := length xs; capacity_ := cap |}
       ((moved_from <$> take j xs) ++ drop j xs).
Proof.
  intros Hb Hle Hfit. unfold owns. cbn [vector_ size_ capacity_].
  assert (length ((moved_from <$> take j xs) ++ drop j xs) = length xs) as Hl.
  { rewrite length_app, length_fmap, length_take, length_drop. lia. }
  rewrite Hl. repeat split; try done.
  unfold block_at. cbn [heap].
  rewrite list_lookup_insert_ne by lia. by rewrite list_lookup_insert_eq by len.
Qed.

Lemma PushBack_with_move_throw k (value : Reference T) xs j s :
  owns (mem s) (this s) xs → length xs = capacity_ (this s) →
  fits (2 * (length xs + 1)) = true →
  alloc_throws O (n_alloc (mem s)) = false →
  j < length xs → quiet O (n_ctor (mem s)) j →
  ctor_throws O MoveCtor (n_ctor (mem s) + j) = true →
  ∃ s', PushBack_with O k value s = Throw ctor_failure s' ∧
        this s' = this s ∧ frame s' = frame s ∧
        owns (mem s') (this s') ((moved_from <$> take j xs) ++ drop j xs) ∧
        heap (mem s') !! length (heap (mem s)) = Some None ∧
        n_dtor (mem s') = j + n_dtor (mem s) ∧
        faults (mem s') = faults (mem s) ++ [DestroyRaw (Ptr (length (heap (mem s))) 0)].
Proof.
  intros (Hsz & Hle & Hfit & Hv) Hfull Hbig Ha Hj Hq Ht.
  destruct s as [[p sz cap] fr w]. cbn [this mem frame vector_ size_ capacity_] in *.
  subst sz cap. unfold PushBack_with. mrun.
  rewrite bool_decide_eq_true_2 by done. mrun.
  set (nc := if bool_decide (length xs = 0) then 1 else size_mul 2 (length xs)).
  assert (Hnc : nc = 1 `max` (2 * length xs)).
  { unfold nc. case_bool_decide as H0; [rewrite H0; done|].
    rewrite size_mul_2 by (eapply fits_le; [|done]; lia). lia. }
  assert (Hfnc : fits nc = true) by (eapply fits_le; [|done]; lia).
  clearbody nc.
  rewrite allocate_ok by (done || (left; lia)). mrun.
  destruct p as [| |b [|?]]; try done; [lia|].
  assert (Hb : b < length (heap w)) by by eapply block_at_lt.
  erewrite (uninitialized_move_throw b (length xs) nc xs j _ (heap w));
    [|done|done|by apply block_at_heap|lia|done|done|done].
  mrun. cbn [ptr_add Nat.add]. unfold destroy. rewrite range_len_At' by lia.
  erewrite (destroy_n_raw (length (heap w)) 0 (1 - 0)).
  2:{ cbn [mem]. unfold block_at. cbn [heap].
      rewrite list_lookup_insert_ne, lookup_app_r, Nat.sub_diag by lia. done. }
  2:{ intros k' Hk. apply lookup_replicate_2. lia. }
  mrun.
  erewrite deallocate_ok; [| |].
  2:{ cbn [mem add_faults]. unfold block_at. cbn [heap].
      rewrite list_lookup_insert_ne, lookup_app_r, Nat.sub_diag by lia. done. }
  2:{ by rewrite length_replicate. }
  mrun. eexists. split; [reflexivity|]. mrun. cbn [add_faults heap faults].
  split; [done|]. split; [done|].
  split; [by apply owns_moved_prefix|].
  split; [by rewrite list_lookup_insert_eq by len|]. split; [lia|done].
Qed.

Lemma Resize_fill_move_throw n (value : Reference T) xs j s :
  owns (mem s) (this s) xs → capacity_ (this s) < n → fits n = true →
  alloc_throws O (n_alloc (mem s)) = false →
  j < length xs → quiet O (n_ctor (mem s)) j →
  ctor_throws O MoveCtor (n_ctor (mem s) + j) = true →
  ∃ s', Resize_fill O n value s = Throw ctor_failure s' ∧
        this s' = this s ∧ frame s' = frame s ∧
        owns (mem s') (this s') ((moved_from <$> take j xs) ++ drop j xs) ∧
        heap (mem s') !! length (heap (mem s)) = Some None ∧
        n_dtor (mem s') = j + n_dtor (mem s) ∧
        faults (mem s') = faults (mem s).
Proof.
  intros (Hsz & Hle & Hfit & Hv) Hgrow Hfn Ha Hj Hq Ht.
  destruct s as [[p sz cap] fr w]. cbn [this mem frame vector_ size_ capacity_] in *.
  subst sz. unfold Resize_fill. mrun.
  rewrite bool_decide_eq_true_2 by done. mrun.
  rewrite allocate_ok by (done || (left; lia)). mrun.
  destruct p as [| |b [|?]]; try done; [lia|].
  assert (Hb : b < length (heap w)) by by eapply block_at_lt.
  erewrite (uninitialized_move_throw b cap n xs j _ (heap w));
    [|done|done|by apply block_at_heap|lia|done|done|done].
  mrun.
  erewrite deallocate_ok; [| |].
  2:{ cbn [mem]. unfold block_at. cbn [heap].
      rewrite list_lookup_insert_ne, lookup_app_r, Nat.sub_diag by lia. done. }
  2:{ by rewrite length_replicate. }
  mrun. eexists. split; [reflexivity|]. mrun.
  split; [done|]. split; [done|].
  split; [by apply owns_moved_prefix|].
  split; [by rewrite list_lookup_insert_eq by len|]. split; [lia|done].
Qed.

Lemma Resize_move_throw n xs j s :
  owns (mem s) (this s) xs → capacity_ (this s) < n → fits n = true →
  alloc_throws O (n_alloc (mem s)) = false →
  j < length xs → quiet O (n_ctor (mem s)) j →
  ctor_throws O MoveCtor (n_ctor (mem s) + j) = true →
  ∃ s', Resize O n s = Throw ctor_failure s' ∧
        this s' = this s ∧ frame s' = frame s ∧
        owns (mem s') (this s') ((moved_from <$> take j xs) ++ drop j xs) ∧
        heap (mem s') !! length (heap (mem s)) = Some None ∧
        n_dtor (mem s') = j + n_dtor (mem s) ∧
        faults (mem s') = faults (mem s).
Proof.
  intros (Hsz & Hle & Hfit & Hv) Hgrow Hfn Ha Hj Hq Ht.
  destruct s as [[p sz cap] fr w]. cbn [this mem frame vector_ size_ capacity_] in *.
  subst sz. unfold Resize. mrun.
  rewrite bool_decide_eq_true_2 by done. mrun.
  rewrite allocate_ok by (done || (left; lia)). mrun.
  destruct p as [| |b [|?]]; try done; [lia|].
  assert (Hb : b < length (heap w)) by by eapply block_at_lt.
  erewrite (uninitialized_move_throw b cap n xs j _ (heap w));
    [|done|done|by apply block_at_heap|lia|done|done|done].
  mrun. unfold destroy. rewrite range_len_At' by lia.
  cbn [Nat.sub destroy_n]. mrun.
  erewrite deallocate_ok; [| |].
  2:{ cbn [mem]. unfold block_at. cbn [heap].
      rewrite list_lookup_insert_ne, lookup_app_r, Nat.sub_diag by lia. done. }
  2:{ by rewrite length_replicate. }
  mrun. eexists. split; [reflexivity|]. mrun.
  split; [done|]. split; [done|].
  split; [by apply owns_moved_prefix|].
  split; [by rewrite list_lookup_insert_eq by len|]. split; [lia|done].
Qed.

End Growth.

Section Further.
Context {T : Type} `{!Element T}.
Implicit Types (s : State (T:=T)) (xs : list T).
Variable O : Oracle.

(** X24: a copy is independent of its source: whatever sequence of calls
    is made on a container that was copy-constructed, the source holds
    the elements it held, untouched, while the copy holds what the calls
    make of them. *)
Theorem copy_is_independent (other : Vector) (cs : list (Call T)) xs s :
  never_throws O → owns (mem s) other xs →
  well_posed cs xs (capacity_ other) = true →
  ∃ s', (Vector_copy O other;; perform_all O cs) s = Ok tt s' ∧
        owns (mem s') (this s') (list_after_all cs xs (capacity_ other)) ∧
        owns (mem s') other xs ∧
        faults (mem s') = faults (mem s).
Proof.
  intros Hn Hother Hfit.
  destruct (Vector_copy_built O other xs s Hn Hother)
    as (s1 & E1 & Hown1 & Hcap1 & _ & Hf1 & _ & _ & _ & L1 & K1 & _ & N1).
  rewrite <- Hcap1 in Hfit |- *.
  destruct (perform_all_step O cs xs s1 Hn Hown1 Hfit)
    as (s' & E & (Hown' & _ & Hf & _ & L & K & _) & _).
  exists s'. rewrite bind_eq, E1. split; [done|]. split; [done|]. split; [|congruence].
  eapply owns_kept; [done|]. intros b Hb.
  assert (Hlt : b < length (heap (mem s))).
  { unfold block_index in Hb. destruct Hother as (_ & _ & _ & Hv).
    destruct (vector_ other) as [| |b' [|?]]; try done.
    injection Hb as <-. by eapply block_at_lt. }
  rewrite K, K1; [done..|lia|].
  intros Hb1. destruct (N1 b Hb1); [done|lia].
Qed.

(** X25: when the move of the element at index [j] throws while [PushBack]
    or [Resize] relocates the elements of a container that has to grow,
    the new block is released and the exception goes on to the caller;
    the container keeps its block, size and capacity, but its elements
    before index [j] are left in the moved-from state.  The handler of
    [PushBack] moreover runs a destructor on the first slot of the new
    block, which holds no object; the handlers of [Resize] destroy
    nothing.  The argument is not read before the move, so that it may
    refer to anything. *)
Theorem growth_move_failure (k : ctor_kind) (value : Reference T) (n j : nat) xs s :
  owns (mem s) (this s) xs →
  alloc_throws O (n_alloc (mem s)) = false →
  j < length xs → quiet O (n_ctor (mem s)) j →
  ctor_throws O MoveCtor (n_ctor (mem s) + j) = true →
  (length xs = capacity_ (this s) → fits (2 * (length xs + 1)) = true →
   ∃ s', PushBack_with O k value s = Throw ctor_failure s' ∧
         this s' = this s ∧
         owns (mem s') (this s') ((moved_from <$> take j xs) ++ drop j xs) ∧
         heap (mem s') !! length (heap (mem s)) = Some None ∧
         faults (mem s') = faults (mem s) ++ [DestroyRaw (Ptr (length (heap (mem s))) 0)]) ∧
  (capacity_ (this s) < n → fits n = true →
   (∃ s', Resize_fill O n value s = Throw ctor_failure s' ∧
          this s' = this s ∧
          owns (mem s') (this s') ((moved_from <$> take j xs) ++ drop j xs) ∧
          heap (mem s') !! length (heap (mem s)) = Some None ∧
          faults (mem s') = faults (mem s)) ∧
   (∃ s', Resize O n s = Throw ctor_failure s' ∧
          this s' = this s ∧
          owns (mem s') (this s') ((moved_from <$> take j xs) ++ drop j xs) ∧
          heap (mem s') !! length (heap (mem s)) = Some None ∧
          faults (mem s') = faults (mem s))).
Proof.
  intros Hown Ha Hj Hq Ht. split.
  - intros Hfull Hfit.
    destruct (PushBack_with_move_throw O k value xs j s Hown Hfull Hfit Ha Hj Hq Ht)
      as (s' & ? & ? & _ & ? & ? & _ & ?).
    by exists s'.
  - intros Hgrow Hfit. split.
    + destruct (Resize_fill_move_throw O n value xs j s Hown Hgrow Hfit Ha Hj Hq Ht)
        as (s' & ? & ? & _ & ? & ? & _ & ?).
      by exists s'.
    + destruct (Resize_move_throw O n xs j s Hown Hgrow Hfit Ha Hj Hq Ht)
        as (s' & ? & ? & _ & ? & ? & _ & ?).
      by exists s'.
Qed.

(** X26: [Swap] exchanges what two containers hold and touches nothing
    else: no element is constructed, destroyed or moved and no block is
    allocated, and swapping back restores both.  The calls made on the
    container afterwards work on the elements the other one had, and
    leave the elements handed over to the other one as they were. *)
Theorem Swap_exchanges_contents (other : Vector) (cs : list (Call T)) xs ys s :
  never_throws O → owns (mem s) (this s) xs → owns (mem s) other ys →
  (∀ b, block_index (this s) = Some b → block_index other ≠ Some b) →
  well_posed cs ys (capacity_ other) = true →
  (∃ s1, Swap other s = Ok (this s) s1 ∧ this s1 = other ∧ mem s1 = mem s ∧
         owns (mem s1) (this s1) ys ∧ owns (mem s1) (this s) xs) ∧
  (o ← Swap other; Swap o) s = Ok other s ∧
  (∃ s', (o ← Swap other; perform_all O cs;; mret o) s = Ok (this s) s' ∧
         owns (mem s') (this s') (list_after_all cs ys (capacity_ other)) ∧
         owns (mem s') (this s) xs ∧
         faults (mem s') = faults (mem s)).
Proof.
  intros Hn Hown Hother Hne Hfit. split; [|split].
  - exists (set_this other s). by destruct s.
  - by destruct s.
  - destruct (perform_all_step O cs ys (set_this other s) Hn) as
      (s' & E & (Hown' & _ & Hf & _ & L & K & _) & _); [by destruct s..|done|].
    exists s'. split; [|split; [done|split]].
    + unfold Swap. mrun.
      change {| this := other; frame := frame s; mem := mem s |}
        with (set_this other s).
      by rewrite E.
    + eapply owns_kept; [exact Hown|]. intros b Hb.
      assert (Hlt : b < length (heap (mem s))).
      { unfold block_index in Hb. destruct Hown as (_ & _ & _ & Hv).
        destruct (vector_ (this s)) as [| |b' [|?]]; try done.
        injection Hb as <-. by eapply block_at_lt. }
      destruct s as [v f w]. cbn in *. rewrite K; [done|done|]. by apply Hne.
    + destruct s; cbn in *. congruence.
Qed.

End Further.

Lemma copy_is_independent_witness :
  never_throws never ∧ owns (mem three_sevens) (this three_sevens) [7; 7; 7]%Z ∧
  well_posed [CallPushBack (Own 0); CallClear; CallPushBack (Value 2%Z)] [7; 7; 7]%Z
    (capacity_ (this three_sevens)) = true ∧
  ∃ s', (Vector_copy never (this three_sevens);;
         perform_all never [CallPushBack (Own 0); CallClear; CallPushBack (Value 2%Z)])
          three_sevens = Ok tt s' ∧
        owns (mem s') (this s')
          (list_after_all [CallPushBack (Own 0); CallClear; CallPushBack (Value 2%Z)]
             [7; 7; 7]%Z (capacity_ (this three_sevens))) ∧
        owns (mem s') (this three_sevens) [7; 7; 7]%Z ∧
        faults (mem s') = faults (mem three_sevens).
Proof.
  assert (H : well_posed [CallPushBack (Own 0); CallClear; CallPushBack (Value 2%Z)]
                [7; 7; 7]%Z (capacity_ (this three_sevens)) = true)
    by (vm_compute; reflexivity).
  split; [exact never_never_throws|]. split; [exact three_sevens_owns|].
  split; [exact H|].
  exact (copy_is_independent never (this three_sevens)
           [CallPushBack (Own 0); CallClear; CallPushBack (Value 2%Z)] [7; 7; 7]%Z
           three_sevens never_never_throws three_sevens_owns H).
Defined.

Lemma growth_move_failure_witness :
  owns (mem two_buffers) (this two_buffers) [[1; 2]; [1; 2]]%Z ∧
  alloc_throws (ctor_fails_at MoveCtor 3) (n_alloc (mem two_buffers)) = false ∧
  1 < length [[1; 2]; [1; 2]]%Z ∧
  quiet (ctor_fails_at MoveCtor 3) (n_ctor (mem two_buffers)) 1 ∧
  ctor_throws (ctor_fails_at MoveCtor 3) MoveCtor (n_ctor (mem two_buffers) + 1) = true ∧
  length [[1; 2]; [1; 2]]%Z = capacity_ (this two_buffers) ∧
  fits (2 * (length [[1; 2]; [1; 2]]%Z + 1)) = true ∧
  ∃ s', PushBack_with (ctor_fails_at MoveCtor 3) CopyCtor (Object [9]%Z) two_buffers
        = Throw ctor_failure s' ∧
        this s' = this two_buffers ∧
        owns (mem s') (this s')
          ((moved_from <$> take 1 [[1; 2]; [1; 2]]%Z) ++ drop 1 [[1; 2]; [1; 2]]%Z) ∧
        heap (mem s') !! length (heap (mem two_buffers)) = Some None ∧
        faults (mem s') =
          faults (mem two_buffers)
          ++ [DestroyRaw (Ptr (length (heap (mem two_buffers))) 0)].
Proof.
  assert (H0 : owns (mem two_buffers) (this two_buffers) [[1; 2]; [1; 2]]%Z).
  { split; [vm_compute; reflexivity|]. split; [vm_compute; lia|].
    split; vm_compute; reflexivity. }
  assert (H1 : alloc_throws (ctor_fails_at MoveCtor 3) (n_alloc (mem two_buffers)) = false)
    by reflexivity.
  assert (H2 : 1 < length [[1; 2]; [1; 2]]%Z) by (cbn [length]; lia).
  assert (H3 : quiet (ctor_fails_at MoveCtor 3) (n_ctor (mem two_buffers)) 1).
  { intros k j Hj. assert (j = 0) as -> by lia. destruct k; vm_compute; reflexivity. }
  assert (H4 : ctor_throws (ctor_fails_at MoveCtor 3) MoveCtor
                 (n_ctor (mem two_buffers) + 1) = true) by (vm_compute; reflexivity).
  assert (H5 : length [[1; 2]; [1; 2]]%Z = capacity_ (this two_buffers))
    by (vm_compute; reflexivity).
  assert (H6 : fits (2 * (length [[1; 2]; [1; 2]]%Z + 1)) = true) by reflexivity.
  split; [exact H0|]. do 6 (split; [assumption|]).
  exact (proj1 (growth_move_failure (ctor_fails_at MoveCtor 3) CopyCtor (Object [9]%Z) 5 1
                  [[1; 2]; [1; 2]]%Z two_buffers H0 H1 H2 H3 H4) H5 H6).
Defined.

(** The buffers after the failed [PushBack]: the first one has been moved
    from. *)
Example buffers_after_failed_move :
  (λ s', (this s', block_at (mem s') 0, faults (mem s')))
    (final (PushBack (ctor_fails_at MoveCtor 3) (Object [9]%Z) two_buffers)) =
  ({| vector_ := Ptr 0 0; size_ := 2; capacity_ := 2 |},
   Some [Live []; Live [1; 2]%Z],
   [DestroyRaw (Ptr 1 0)]).
Proof. vm_compute. reflexivity. Qed.

Lemma Swap_exchanges_contents_witness :
  never_throws never ∧
  owns (mem seven_seven_eight) (this seven_seven_eight) [7; 7; 8]%Z ∧
  owns (mem seven_seven_eight) (this three_sevens) [7; 7; 7]%Z ∧
  well_posed [CallPushBack (Value 1%Z); CallPopBack; CallPopBack] [7; 7; 7]%Z
    (capacity_ (this three_sevens)) = true ∧
  ∃ s', (o ← Swap (this three_sevens);
         perform_all never [CallPushBack (Value 1%Z); CallPopBack; CallPopBack];; mret o)
          seven_seven_eight = Ok (this seven_seven_eight) s' ∧
        owns (mem s') (this s')
          (list_after_all [CallPushBack (Value 1%Z); CallPopBack; CallPopBack] [7; 7; 7]%Z
             (capacity_ (this three_sevens))) ∧
        owns (mem s') (this seven_seven_eight) [7; 7; 8]%Z ∧
        faults (mem s') = faults (mem seven_seven_eight).
Proof.
  pose proof (proj1 seven_seven_eight_owns) as H0.
  pose proof (proj2 seven_seven_eight_owns) as H1.
  assert (H2 : ∀ b, block_index (this seven_seven_eight) = Some b →
               block_index (this three_sevens) ≠ Some b).
  { intros b Hb. vm_compute in Hb. injection Hb as <-. vm_compute. discriminate. }
  assert (H3 : well_posed [CallPushBack (Value 1%Z); CallPopBack; CallPopBack]
                 [7; 7; 7]%Z (capacity_ (this three_sevens)) = true)
    by (vm_compute; reflexivity).
  split; [exact never_never_throws|]. split; [exact H0|].
  split; [exact H1|]. split; [exact H3|].
  exact (proj2 (proj2 (Swap_exchanges_contents never (this three_sevens)
           [CallPushBack (Value 1%Z); CallPopBack; CallPopBack] [7; 7; 8]%Z [7; 7; 7]%Z
           seven_seven_eight never_never_throws H0 H1 H2 H3))).
Defined.
